(** * Unmute frontend: chat history, tool dispatch and session glue

    A shallow embedding of the TypeScript sources of the Unmute frontend
    (chatHistory.ts, tools.ts and the message handlers of Unmute.tsx),
    followed by the properties proved about them.

    JavaScript strings are sequences of UTF-16 code units; they are
    modelled as lists of code units, so that [trimStart], the default
    order of [Array.prototype.sort] and the escapes of [JSON.stringify]
    are the ones of the language. *)

From Stdlib Require Import Ascii String.
From stdpp Require Import base option list sorting gmap.

(** ** JavaScript strings *)

Module JS.

Abbreviation jsstring := (list N).

(** An ASCII literal as a JavaScript string. *)
Definition u16 (s : string) : jsstring :=
  map N_of_ascii (list_ascii_of_string s).

(** The code unit of a one-character ASCII literal. *)
Definition ch (s : string) : N :=
  match s with
  | String a _ => N_of_ascii a
  | EmptyString => 0%N
  end.

Definition between (lo hi c : N) : bool := (lo <=? c)%N && (c <=? hi)%N.

(** WhiteSpace and LineTerminator code points of ECMAScript, the ones
    [String.prototype.trimStart] removes: TAB, LF, VT, FF, CR, SP, NBSP,
    U+1680, U+2000..U+200A, U+2028, U+2029, U+202F, U+205F, U+3000 and the
    byte order mark U+FEFF. All of them are single code units. *)
Definition is_white_space (c : N) : bool :=
  between 9 13 c || (c =? 32)%N || (c =? 160)%N || (c =? 5760)%N
  || between 8192 8202 c || (c =? 8232)%N || (c =? 8233)%N
  || (c =? 8239)%N || (c =? 8287)%N || (c =? 12288)%N || (c =? 65279)%N.

(** [s.trimStart()] *)
Fixpoint trimStart (s : jsstring) : jsstring :=
  match s with
  | c :: r => if is_white_space c then trimStart r else s
  | [] => []
  end.

(** [a.join(separator)] on an array of strings. *)
Fixpoint join (separator : jsstring) (l : list jsstring) : jsstring :=
  match l with
  | [] => []
  | [x] => x
  | x :: r => x ++ separator ++ join separator r
  end.

(** [key.startsWith(prefix)] *)
Fixpoint startsWith (prefix s : jsstring) : bool :=
  match prefix, s with
  | [], _ => true
  | p :: prefix', c :: s' => (p =? c)%N && startsWith prefix' s'
  | _ :: _, [] => false
  end.

(** The order of the relational operators on strings, which is also the
    order of [Array.prototype.sort] without a comparator: lexicographic on
    code units. [str_leb a b] is [a <= b]. *)
Fixpoint str_leb (a b : jsstring) : bool :=
  match a, b with
  | [], _ => true
  | _ :: _, [] => false
  | x :: a', y :: b' => (x <? y)%N || ((x =? y)%N && str_leb a' b')
  end.

Definition str_le (a b : jsstring) : Prop := str_leb a b = true.

#[global] Instance str_le_dec : RelDecision str_le :=
  fun a b => decide (str_leb a b = true).

(** [a.sort()] on an array of strings. The specification leaves the
    algorithm open; on a total order every algorithm returns the same
    array up to the identity of equal strings. *)
Definition sort (l : list jsstring) : list jsstring := merge_sort str_le l.

(** Truthiness of a [string | null] value: [null] and the empty string are
    falsy, every other string is truthy. *)
Definition truthy (c : option jsstring) : bool :=
  match c with
  | Some (_ :: _) => true
  | _ => false
  end.

(** [`${v}`] for a [string | null] value. *)
Definition to_str (c : option jsstring) : jsstring :=
  match c with
  | Some s => s
  | None => u16 "null"
  end.

End JS.

Import JS.

(** ** Completions: values returned and exceptions thrown *)

Module Completion.

(** A thrown value: an instance of [Error] with its message, or
    anything else. *)
Inductive exn :=
| Error (message : jsstring)
| NonError.

Inductive completion (A : Type) :=
| Return (a : A)
| Throw (e : exn).
Arguments Return {A} a.
Arguments Throw {A} e.

Definition bind {A B} (c : completion A) (k : A -> completion B)
  : completion B :=
  match c with
  | Return a => k a
  | Throw e => Throw e
  end.

(** [try { body } catch (e) { handler(e) }] *)
Definition try_catch {A} (body : completion A) (handler : exn -> completion A)
  : completion A :=
  match body with
  | Return a => Return a
  | Throw e => handler e
  end.

Definition returned {A} (c : completion A) : Prop :=
  exists a, c = Return a.

End Completion.

Import Completion.

(** ** JSON values, [JSON.stringify] and [JSON.parse] *)

Module JSON.

(** The values [JSON.parse] builds. A number is kept as the literal it was
    read from (the program never looks inside one); an object is the list of
    its properties in the order of their creation. *)
Unset Elimination Schemes.
Inductive json :=
| JNull
| JBool (b : bool)
| JNum (literal : jsstring)
| JStr (s : jsstring)
| JArr (elements : list json)
| JObj (members : list (jsstring * json)).
Set Elimination Schemes.

Definition QUOTE : N := 34.
Definition BACKSLASH : N := 92.

(** *** Serialization *)

Definition hex_digit (n : N) : N :=
  if (n <? 10)%N then (48 + n)%N else (87 + n)%N.

Definition hex4 (c : N) : jsstring :=
  [ hex_digit ((c / 4096) mod 16); hex_digit ((c / 256) mod 16);
    hex_digit ((c / 16) mod 16); hex_digit (c mod 16) ]%N.

Definition unicode_escape (c : N) : jsstring :=
  BACKSLASH :: ch "u" :: hex4 c.

Definition is_leading_surrogate (c : N) : bool := between 55296 56319 c.
Definition is_trailing_surrogate (c : N) : bool := between 56320 57343 c.

(** QuoteJSONString on one code unit that is not a surrogate. *)
Definition quote_unit (c : N) : jsstring :=
  if (c =? 8)%N then [BACKSLASH; ch "b"]
  else if (c =? 9)%N then [BACKSLASH; ch "t"]
  else if (c =? 10)%N then [BACKSLASH; ch "n"]
  else if (c =? 12)%N then [BACKSLASH; ch "f"]
  else if (c =? 13)%N then [BACKSLASH; ch "r"]
  else if (c =? QUOTE)%N then [BACKSLASH; QUOTE]
  else if (c =? BACKSLASH)%N then [BACKSLASH; BACKSLASH]
  else if (c <? 32)%N then unicode_escape c
  else [c].

(** QuoteJSONString walks the code points of the string: a surrogate pair
    is copied, a lone surrogate is escaped. *)
Fixpoint quote_units (s : jsstring) : jsstring :=
  match s with
  | [] => []
  | c :: r =>
      if is_leading_surrogate c then
        match r with
        | d :: r' =>
            if is_trailing_surrogate d then c :: d :: quote_units r'
            else unicode_escape c ++ quote_units r
        | [] => unicode_escape c
        end
      else if is_trailing_surrogate c then unicode_escape c ++ quote_units r
      else quote_unit c ++ quote_units r
  end.

Definition quote (s : jsstring) : jsstring :=
  QUOTE :: quote_units s ++ [QUOTE].

Definition stringify_member (stringify : json -> jsstring)
    (m : jsstring * json) : jsstring :=
  quote (fst m) ++ ch ":" :: stringify (snd m).

(** [JSON.stringify(v)] without indentation. *)
Fixpoint stringify (v : json) : jsstring :=
  match v with
  | JNull => u16 "null"
  | JBool true => u16 "true"
  | JBool false => u16 "false"
  | JNum literal => literal
  | JStr s => quote s
  | JArr elements =>
      ch "[" :: join [ch ","] (map stringify elements) ++ [ch "]"]
  | JObj members =>
      ch "{" :: join [ch ","] (map (stringify_member stringify) members)
        ++ [ch "}"]
  end.

(** *** Parsing *)

(** JSON white space: TAB, LF, CR and SP. *)
Definition is_json_ws (c : N) : bool :=
  (c =? 9)%N || (c =? 10)%N || (c =? 13)%N || (c =? 32)%N.

Fixpoint skip_ws (s : jsstring) : jsstring :=
  match s with
  | c :: r => if is_json_ws c then skip_ws r else s
  | [] => []
  end.

Definition hex_val (c : N) : option N :=
  if between 48 57 c then Some (c - 48)%N
  else if between 97 102 c then Some (c - 87)%N
  else if between 65 70 c then Some (c - 55)%N
  else None.

(** The character a one-letter escape stands for. *)
Definition unescape (e : N) : option N :=
  if (e =? QUOTE)%N then Some QUOTE
  else if (e =? BACKSLASH)%N then Some BACKSLASH
  else if (e =? ch "/")%N then Some (ch "/")
  else if (e =? ch "b")%N then Some 8%N
  else if (e =? ch "f")%N then Some 12%N
  else if (e =? ch "n")%N then Some 10%N
  else if (e =? ch "r")%N then Some 13%N
  else if (e =? ch "t")%N then Some 9%N
  else None.

(** The characters of a string literal after its opening quote, up to and
    including the closing quote: the string denoted and the input left. *)
Fixpoint parse_chars (s : jsstring) : option (jsstring * jsstring) :=
  match s with
  | [] => None
  | c :: r =>
      if (c =? QUOTE)%N then Some ([], r)
      else if (c =? BACKSLASH)%N then
        match r with
        | [] => None
        | e :: r1 =>
            if (e =? ch "u")%N then
              match r1 with
              | a :: b :: c' :: d :: r2 =>
                  match hex_val a, hex_val b, hex_val c', hex_val d with
                  | Some ha, Some hb, Some hc, Some hd =>
                      match parse_chars r2 with
                      | Some (t, rest) =>
                          Some ((((ha * 16 + hb) * 16 + hc) * 16 + hd)%N :: t,
                                rest)
                      | None => None
                      end
                  | _, _, _, _ => None
                  end
              | _ => None
              end
            else
              match unescape e with
              | Some u =>
                  match parse_chars r1 with
                  | Some (t, rest) => Some (u :: t, rest)
                  | None => None
                  end
              | None => None
              end
        end
      else if (c <? 32)%N then None
      else
        match parse_chars r with
        | Some (t, rest) => Some (c :: t, rest)
        | None => None
        end
  end.

Definition is_digit (c : N) : bool := between 48 57 c.

Fixpoint take_digits (s : jsstring) : jsstring * jsstring :=
  match s with
  | c :: r =>
      if is_digit c then let '(d, rest) := take_digits r in (c :: d, rest)
      else ([], s)
  | [] => ([], [])
  end.

Definition parse_int (s : jsstring) : option (jsstring * jsstring) :=
  match s with
  | c :: r =>
      if (c =? ch "0")%N then Some ([c], r)
      else if between 49 57 c then
        let '(d, rest) := take_digits r in Some (c :: d, rest)
      else None
  | [] => None
  end.

Definition parse_frac (s : jsstring) : option (jsstring * jsstring) :=
  match s with
  | c :: r =>
      if (c =? ch ".")%N then
        match take_digits r with
        | ([], _) => None
        | (d, rest) => Some (c :: d, rest)
        end
      else Some ([], s)
  | [] => Some ([], [])
  end.

Definition parse_sign (s : jsstring) : jsstring * jsstring :=
  match s with
  | c :: r =>
      if (c =? ch "+")%N || (c =? ch "-")%N then ([c], r) else ([], s)
  | [] => ([], [])
  end.

Definition parse_exp (s : jsstring) : option (jsstring * jsstring) :=
  match s with
  | c :: r =>
      if (c =? ch "e")%N || (c =? ch "E")%N then
        let '(sign, r1) := parse_sign r in
        match take_digits r1 with
        | ([], _) => None
        | (d, rest) => Some (c :: sign ++ d, rest)
        end
      else Some ([], s)
  | [] => Some ([], [])
  end.

(** A number literal: [-? int frac? exp?]. *)
Definition parse_number (s : jsstring) : option (jsstring * jsstring) :=
  let '(sign, r0) :=
    match s with
    | c :: r => if (c =? ch "-")%N then ([c], r) else ([], s)
    | [] => ([], [])
    end in
  '(i, r1) ← parse_int r0;
  '(f, r2) ← parse_frac r1;
  '(e, r3) ← parse_exp r2;
  Some (sign ++ i ++ f ++ e, r3).

(** [s] without the prefix [word], when it starts with it. *)
Definition expect (word s : jsstring) : option jsstring :=
  if startsWith word s then Some (drop (length word) s) else None.

(** CreateDataProperty: a property defined twice keeps its place and takes
    the later value. *)
Fixpoint obj_set (k : jsstring) (v : json) (o : list (jsstring * json))
  : list (jsstring * json) :=
  match o with
  | [] => [(k, v)]
  | (k', v') :: o' =>
      if decide (k' = k) then (k, v) :: o' else (k', v') :: obj_set k v o'
  end.

Definition make_object (members : list (jsstring * json))
  : list (jsstring * json) :=
  foldl (fun o m => obj_set (fst m) (snd m) o) [] members.

(** Recursive descent on the JSON grammar. The fuel bounds the number of
    nested calls; [parse_text] gives enough of it for any input. *)
Fixpoint parse_value (fuel : nat) (s : jsstring) {struct fuel}
  : option (json * jsstring) :=
  match fuel with
  | O => None
  | S fuel =>
      match skip_ws s with
      | [] => None
      | c :: r =>
          if (c =? ch "[")%N then
            match skip_ws r with
            | c' :: r' =>
                if (c' =? ch "]")%N then Some (JArr [], r')
                else '(vs, r1) ← parse_elements fuel r; Some (JArr vs, r1)
            | [] => None
            end
          else if (c =? ch "{")%N then
            match skip_ws r with
            | c' :: r' =>
                if (c' =? ch "}")%N then Some (JObj [], r')
                else '(ms, r1) ← parse_members fuel r;
                     Some (JObj (make_object ms), r1)
            | [] => None
            end
          else if (c =? QUOTE)%N then
            '(str, r1) ← parse_chars r; Some (JStr str, r1)
          else if (c =? ch "t")%N then
            r1 ← expect (u16 "rue") r; Some (JBool true, r1)
          else if (c =? ch "f")%N then
            r1 ← expect (u16 "alse") r; Some (JBool false, r1)
          else if (c =? ch "n")%N then
            r1 ← expect (u16 "ull") r; Some (JNull, r1)
          else
            '(literal, r1) ← parse_number (c :: r); Some (JNum literal, r1)
      end
  end
with parse_elements (fuel : nat) (s : jsstring) {struct fuel}
  : option (list json * jsstring) :=
  match fuel with
  | O => None
  | S fuel =>
      '(v, r) ← parse_value fuel s;
      match skip_ws r with
      | c :: r1 =>
          if (c =? ch ",")%N then
            '(vs, r2) ← parse_elements fuel r1; Some (v :: vs, r2)
          else if (c =? ch "]")%N then Some ([v], r1)
          else None
      | [] => None
      end
  end
with parse_members (fuel : nat) (s : jsstring) {struct fuel}
  : option (list (jsstring * json) * jsstring) :=
  match fuel with
  | O => None
  | S fuel =>
      match skip_ws s with
      | c :: r =>
          if (c =? QUOTE)%N then
            '(k, r1) ← parse_chars r;
            match skip_ws r1 with
            | c1 :: r2 =>
                if (c1 =? ch ":")%N then
                  '(v, r3) ← parse_value fuel r2;
                  match skip_ws r3 with
                  | c3 :: r4 =>
                      if (c3 =? ch ",")%N then
                        '(ms, r5) ← parse_members fuel r4;
                        Some ((k, v) :: ms, r5)
                      else if (c3 =? ch "}")%N then Some ([(k, v)], r4)
                      else None
                  | [] => None
                  end
                else None
            | [] => None
            end
          else None
      | [] => None
      end
  end.

(** A whole JSON text: one value between optional white space. [None] is
    the SyntaxError of [JSON.parse]. *)
Definition parse_text (text : jsstring) : option json :=
  '(v, r) ← parse_value (2 * length text + 1) text;
  match skip_ws r with
  | [] => Some v
  | _ :: _ => None
  end.

(** [JSON.parse(text)]; the message of the SyntaxError is the engine's. *)
Definition parse (syntax_error_message : jsstring -> jsstring)
    (text : jsstring) : completion json :=
  match parse_text text with
  | Some v => Return v
  | None => Throw (Error (syntax_error_message text))
  end.

(** Values without numbers whose objects name each property once: the
    values whose serialization is read back as they are. *)
Fixpoint plain (v : json) : bool :=
  match v with
  | JNum _ => false
  | JArr elements => forallb plain elements
  | JObj members =>
      bool_decide (NoDup members.*1)
      && forallb (fun m => plain (snd m)) members
  | _ => true
  end.

Fixpoint size (v : json) : nat :=
  match v with
  | JArr elements => S (list_sum (map (fun e => S (size e)) elements))
  | JObj members => S (list_sum (map (fun m => S (size (snd m))) members))
  | _ => 1
  end.

(** [Array.isArray(v)] *)
Definition isArray (v : json) : bool :=
  match v with
  | JArr _ => true
  | _ => false
  end.

End JSON.

Import JSON.

(** ** chatHistory.ts: the data model and the merge view *)

Module ChatHistory.

Inductive ChatRole := user | assistant | system | tool.

Record ToolFunction := {
  fn_name : jsstring;
  fn_arguments : jsstring;
}.

(** [type] is the constant ["function"]. *)
Record ToolCall := {
  tc_id : jsstring;
  tc_function : ToolFunction;
}.

Record ChatMessage := {
  role : ChatRole;
  content : option jsstring;          (* string | null *)
  tool_calls : option (list ToolCall); (* optional property *)
  tool_call_id : option jsstring;      (* optional property *)
}.

Definition role_eqb (a b : ChatRole) : bool :=
  match a, b with
  | user, user | assistant, assistant | system, system | tool, tool => true
  | _, _ => false
  end.

Definition set_content (c : option jsstring) (m : ChatMessage) : ChatMessage :=
  {| role := role m; content := c;
     tool_calls := tool_calls m; tool_call_id := tool_call_id m |}.

(** [l[l.length - 1] = f(l[l.length - 1])] *)
Fixpoint update_last {A} (f : A -> A) (l : list A) : list A :=
  match l with
  | [] => []
  | [x] => [f x]
  | x :: r => x :: update_last f r
  end.

(** [if (typeof message.content === "string")
       message.content = message.content.trimStart();] *)
Definition trim_content (message : ChatMessage) : ChatMessage :=
  match content message with
  | Some s => set_content (Some (trimStart s)) message
  | None => message
  end.

(** [last.content += `${separator}${message.content}`] *)
Definition append_content (separator : jsstring) (message last : ChatMessage)
  : ChatMessage :=
  set_content
    (Some (to_str (content last) ++ separator ++ to_str (content message)))
    last.

(** One iteration of the loop of [compressChatHistory]. *)
Definition compress_step (separator : jsstring)
    (compressed : list ChatMessage) (message : ChatMessage)
  : list ChatMessage :=
  match last compressed with
  | Some prev =>
      if role_eqb (role prev) (role message)
         && truthy (content message)
         && truthy (content prev)
      then update_last (append_content separator message) compressed
      else compressed ++ [trim_content message]
  | None => compressed ++ [trim_content message]
  end.

(** [compressChatHistory(chatHistory, separator)]: the array it returns.
    Every element of [chatHistory] is an object of its own, as in every
    array the program builds; the elements pushed are copies
    ([{ ...message }]), so appending to the last one leaves the argument
    alone. *)
Definition compressChatHistory (chatHistory : list ChatMessage)
    (separator : jsstring) : list ChatMessage :=
  foldl (compress_step separator) [] chatHistory.

(** [{ role, content }] with a string content. *)
Definition text_turn (r : ChatRole) (text : jsstring) : ChatMessage :=
  {| role := r; content := Some text; tool_calls := None;
     tool_call_id := None |}.

(** The separator when the second argument is omitted. *)
Definition default_separator : jsstring := u16 (String "010" EmptyString).

(** *** The argument as the engine holds it

    [chatHistory] is an array of references to message objects, and the
    loop writes the trimmed content back into the object it reads
    ([message.content = message.content.trimStart()]). [compress_loop]
    runs the loop over a heap of message objects; [compressChatHistory]
    above is its result when no object occurs twice in the array. *)

Fixpoint compress_loop (separator : jsstring) (heap : list ChatMessage)
    (chatHistory : list nat) (compressed : list ChatMessage)
  : list ChatMessage * list ChatMessage :=
  match chatHistory with
  | [] => (heap, compressed)
  | ref :: rest =>
      match heap !! ref with
      | None => (heap, compressed)
      | Some message =>
          let merge :=
            match last compressed with
            | Some prev =>
                role_eqb (role prev) (role message)
                && truthy (content message)
                && truthy (content prev)
            | None => false
            end in
          if merge then
            compress_loop separator heap rest
              (update_last (append_content separator message) compressed)
          else
            compress_loop separator (<[ref := trim_content message]> heap) rest
              (compressed ++ [trim_content message])
      end
  end.

(** The objects an array of references points to. *)
Definition deref (heap : list ChatMessage) (refs : list nat)
  : list ChatMessage :=
  omap (fun ref => heap !! ref) refs.

(** *** Persistence in [localStorage] *)

Definition role_name (r : ChatRole) : jsstring :=
  match r with
  | user => u16 "user"
  | assistant => u16 "assistant"
  | system => u16 "system"
  | tool => u16 "tool"
  end.

(** The objects behind the records, as [JSON.stringify] sees them. An
    optional property that is absent (or [undefined]) is not serialized. *)
Definition js_of_tool_call (c : ToolCall) : json :=
  JObj [ (u16 "id", JStr (tc_id c));
         (u16 "type", JStr (u16 "function"));
         (u16 "function",
          JObj [ (u16 "name", JStr (fn_name (tc_function c)));
                 (u16 "arguments", JStr (fn_arguments (tc_function c))) ]) ].

Definition js_of_message (m : ChatMessage) : json :=
  JObj ([ (u16 "role", JStr (role_name (role m)));
          (u16 "content",
           match content m with Some s => JStr s | None => JNull end) ]
        ++ match tool_calls m with
           | Some calls =>
               [ (u16 "tool_calls", JArr (map js_of_tool_call calls)) ]
           | None => []
           end
        ++ match tool_call_id m with
           | Some i => [ (u16 "tool_call_id", JStr i) ]
           | None => []
           end).

Definition js_of_history (chatHistory : list ChatMessage) : list json :=
  map js_of_message chatHistory.

(** [localStorage]: a map from keys to values, both strings. No quota is
    modelled: [setItem] always stores. *)
Abbreviation Storage := (gmap jsstring jsstring).

Definition getItem (key : jsstring) (localStorage : Storage)
  : option jsstring := localStorage !! key.

Definition setItem (key value : jsstring) (localStorage : Storage)
  : Storage := <[key := value]> localStorage.

Definition removeItem (key : jsstring) (localStorage : Storage) : Storage :=
  delete key localStorage.

(** [localStorage.key(0)], ..., [localStorage.key(length - 1)], in the
    order of the implementation. *)
Definition keys (localStorage : Storage) : list jsstring :=
  (map_to_list localStorage).*1.

(** [s.replace(pattern, replacement)] with a string pattern: the first
    occurrence is replaced. The replacement has no [$] pattern. *)
Fixpoint replace (pattern replacement s : jsstring) : jsstring :=
  match s with
  | [] => if startsWith pattern [] then replacement else []
  | c :: r =>
      if startsWith pattern s then replacement ++ drop (length pattern) s
      else c :: replace pattern replacement r
  end.

Definition getStorageKey (voiceName : jsstring) : jsstring :=
  u16 "chatHistory_" ++ voiceName.

(** [`chatHistory_${voiceName}_memory_`] *)
Definition memoryPrefix (voiceName : jsstring) : jsstring :=
  u16 "chatHistory_" ++ voiceName ++ u16 "_memory_".

(** [`chatHistory_${voiceName}_memory_${timestamp}`] *)
Definition memoryKey (voiceName timestamp : jsstring) : jsstring :=
  memoryPrefix voiceName ++ timestamp.

Definition saveChatHistory (chatHistory : list ChatMessage)
    (voiceName : jsstring) (localStorage : Storage) : Storage :=
  setItem (getStorageKey voiceName)
    (stringify (JArr (js_of_history chatHistory))) localStorage.

Section Load.
Variable syntax_error_message : jsstring -> jsstring.

(** The array returned is whatever [JSON.parse] built: its elements are
    not checked against [ChatMessage]. *)
Definition loadChatHistory (voiceName : jsstring) (localStorage : Storage)
  : completion (list json) :=
  let savedHistory := getItem (getStorageKey voiceName) localStorage in
  if negb (truthy savedHistory) then Return []
  else
    try_catch
      (bind (JSON.parse syntax_error_message (to_str savedHistory))
         (fun parsed =>
            match parsed with
            | JArr elements => Return elements
            | _ => Return []
            end))
      (fun e => Return []).

End Load.

(** [saveMemory(voiceName)]; [timestamp] is what
    [new Date().toISOString()] returns when it runs. *)
Definition saveMemory (timestamp voiceName : jsstring)
    (localStorage : Storage) : Storage :=
  let currentHistory := getItem (getStorageKey voiceName) localStorage in
  if truthy currentHistory
  then setItem (memoryKey voiceName timestamp) (to_str currentHistory)
         localStorage
  else localStorage.

Definition getMemoryList (voiceName : jsstring) (localStorage : Storage)
  : list jsstring :=
  let memoryTimestamps :=
    omap (fun key =>
            if truthy (Some key) && startsWith (memoryPrefix voiceName) key
            then Some (replace (memoryPrefix voiceName) [] key)
            else None)
         (keys localStorage) in
  reverse (sort memoryTimestamps).

Definition loadMemory (voiceName memoryTimestamp : jsstring)
    (localStorage : Storage) : Storage :=
  let memoryHistory :=
    getItem (memoryKey voiceName memoryTimestamp) localStorage in
  if truthy memoryHistory
  then setItem (getStorageKey voiceName) (to_str memoryHistory) localStorage
  else localStorage.

Definition clearChatHistory (voiceName : jsstring) (localStorage : Storage)
  : Storage :=
  removeItem (getStorageKey voiceName) localStorage.

End ChatHistory.

Import ChatHistory.

(** ** tools.ts: the tool dispatcher *)

Module Tools.

(** A [function_call] entry of [response.output]; [handleToolCall] reads
    its [name] and [arguments]. *)
Record FunctionCall := {
  call_type : jsstring;
  call_id : jsstring;
  call_name : jsstring;
  call_arguments : jsstring;
}.

(** A JavaScript value that a tool may produce: [None] is [undefined]. *)
Abbreviation jsvalue := (option json).

(** [{ error: message }] *)
Definition error_result (message : jsstring) : jsvalue :=
  Some (JObj [ (u16 "error", JStr message) ]).

Definition is_error_result (v : jsvalue) : Prop :=
  exists message, v = error_result message.

Definition str_eqb (a b : jsstring) : bool := bool_decide (a = b).

(** [call.arguments || "{}"] *)
Definition arguments_or_default (arguments : jsstring) : jsstring :=
  if truthy (Some arguments) then arguments else u16 "{}".

(** The [catch] block of [handleToolCall]. *)
Definition on_failure (error : exn) : completion jsvalue :=
  match error with
  | Error message => Return (error_result message)
  | NonError => Return (error_result (u16 "An unknown error occurred."))
  end.

Definition unknown_function (name : jsstring) : jsvalue :=
  error_result (u16 "Unknown function call: " ++ name).

Definition tool_names : list jsstring :=
  [ u16 "get_weather"; u16 "get_coordinates"; u16 "get_news";
    u16 "get_news_sources" ].

Section Dispatch.

(** The message of the SyntaxError of [JSON.parse], and the tools: each is
    given by the completion of the promise it returns, fulfilled with a
    value or rejected with what was thrown. They call services over the
    network and are not part of the dispatcher. *)
Variable syntax_error_message : jsstring -> jsstring.
Variables getWeather getCoordinates : json -> completion jsvalue.
Variables getNews getNewsSources : jsstring -> json -> completion jsvalue.

(** [handleToolCall(call, backendServerUrl)]: the completion of the promise
    it returns. *)
Definition handleToolCall (call : FunctionCall) (backendServerUrl : jsstring)
  : completion jsvalue :=
  try_catch
    (bind (JSON.parse syntax_error_message
             (arguments_or_default (call_arguments call)))
       (fun args =>
          if str_eqb (call_name call) (u16 "get_weather") then
            getWeather args
          else if str_eqb (call_name call) (u16 "get_coordinates") then
            getCoordinates args
          else if str_eqb (call_name call) (u16 "get_news") then
            getNews backendServerUrl args
          else if str_eqb (call_name call) (u16 "get_news_sources") then
            getNewsSources backendServerUrl args
          else Return (unknown_function (call_name call))))
    on_failure.

End Dispatch.

End Tools.

(** The dispatcher of tools.ts that looks the name up in the object
    [toolFunctions]. *)
Module ToolsRegistry.

Import Tools.

(** The properties every object literal inherits from [Object.prototype]. *)
Definition Object_prototype_names : list jsstring :=
  [ u16 "constructor"; u16 "__defineGetter__"; u16 "__defineSetter__";
    u16 "hasOwnProperty"; u16 "__lookupGetter__"; u16 "__lookupSetter__";
    u16 "isPrototypeOf"; u16 "propertyIsEnumerable"; u16 "toString";
    u16 "valueOf"; u16 "__proto__"; u16 "toLocaleString" ].

Section Dispatch.

Variable syntax_error_message : jsstring -> jsstring.
Variables getWeather getCoordinates getNews getNewsSources
  : json -> completion jsvalue.

(** What calling an inherited property as [toolFunction(args)] completes
    with: the result of the built-in, or the TypeError it or the call
    throws. *)
Variable call_inherited : jsstring -> json -> completion jsvalue.

(** [toolFunctions[name]]; [None] is [undefined]. Every inherited property
    is truthy. *)
Definition toolFunctions (name : jsstring)
  : option (json -> completion jsvalue) :=
  if str_eqb name (u16 "get_weather") then Some getWeather
  else if str_eqb name (u16 "get_coordinates") then Some getCoordinates
  else if str_eqb name (u16 "get_news") then Some getNews
  else if str_eqb name (u16 "get_news_sources") then Some getNewsSources
  else if bool_decide (name ∈ Object_prototype_names)
       then Some (call_inherited name)
  else None.

Definition handleToolCall (call : FunctionCall) : completion jsvalue :=
  match toolFunctions (call_name call) with
  | None => Return (unknown_function (call_name call))
  | Some toolFunction =>
      try_catch
        (bind (JSON.parse syntax_error_message
                 (arguments_or_default (call_arguments call)))
           toolFunction)
        on_failure
  end.

End Dispatch.

End ToolsRegistry.

(** ** Unmute.tsx: the message handlers and the memory upload *)

Module Unmute.

Import Tools.

(** [console.warn] and [console.error] *)
Inductive log :=
| warn (text : jsstring)
| log_error (text : jsstring).

(** The inbound envelopes, by their [type]. *)
Inductive envelope :=
| response_audio_delta (delta : jsstring)
| unmute_additional_outputs (debug_dict : json)
| error_envelope (error_type message : jsstring)
| input_audio_transcription_delta (delta : jsstring)
| response_text_delta (delta : jsstring)
| response_function_call_arguments_delta
| response_done (output : list FunctionCall)
| other (type : jsstring).

Definition ignoredTypes : list jsstring :=
  [ u16 "session.updated"; u16 "response.created"; u16 "response.text.delta";
    u16 "response.text.done"; u16 "response.audio.done";
    u16 "conversation.item.input_audio_transcription.delta";
    u16 "input_audio_buffer.speech_stopped";
    u16 "input_audio_buffer.speech_started"; u16 "unmute.interrupted_by_vad";
    u16 "unmute.response.text.delta.ready";
    u16 "unmute.response.audio.delta.ready" ].

(** [call.type === 'function_call'] *)
Definition is_function_call (call : FunctionCall) : Prop :=
  call_type call = u16 "function_call".

#[global] Instance is_function_call_dec (call : FunctionCall)
  : Decision (is_function_call call) :=
  decide (call_type call = u16 "function_call").

(** The assistant turn recorded for one call. *)
Definition assistant_turn (call : FunctionCall) : ChatMessage :=
  {| role := assistant;
     content := None;
     tool_calls :=
       Some [ {| tc_id := call_id call;
                 tc_function := {| fn_name := call_name call;
                                   fn_arguments := call_arguments call |} |} ];
     tool_call_id := None |}.

(** The tool turn recorded when the call has returned [toolResult];
    [JSON.stringify(undefined)] is [undefined]. *)
Definition tool_turn (call : FunctionCall) (toolResult : jsvalue)
  : ChatMessage :=
  {| role := tool;
     content := stringify <$> toolResult;
     tool_calls := None;
     tool_call_id := Some (call_id call) |}.

(** The two messages sent after a tool has returned. *)
Definition function_call_output (call : FunctionCall) (toolResult : jsvalue)
  : json :=
  JObj [ (u16 "type", JStr (u16 "conversation.item.create"));
         (u16 "item",
          JObj ([ (u16 "type", JStr (u16 "function_call_output"));
                  (u16 "call_id", JStr (call_id call)) ]
                ++ match toolResult with
                   | Some v => [ (u16 "output", JStr (stringify v)) ]
                   | None => []
                   end)) ].

Definition response_create : json :=
  JObj [ (u16 "type", JStr (u16 "response.create")) ].

(** The response to the POST of one memory. *)
Record response := {
  response_ok : bool;
  response_text : completion jsstring;
}.

Inductive upload_report :=
| upload_declined
| no_local_memories
| upload_complete (successCount errorCount : nat).

Record upload_progress := {
  successCount : nat;
  errorCount : nat;
  (** the files posted: name and content *)
  posted : list (jsstring * jsstring);
}.

Section Component.

Variable ErrorItem : Type.
Variable makeErrorItem : jsstring -> ErrorItem.

(** The state of the component that the handlers touch. [pending] holds
    the calls whose [handleToolCall] promise has not settled yet. *)
Record state := {
  rawChatHistory : list ChatMessage;
  errors : list ErrorItem;
  debugDict : option json;
  console : list log;
  pending : list FunctionCall;
  sent : list jsstring;
}.

Definition setRawChatHistory (f : list ChatMessage -> list ChatMessage)
    (st : state) : state :=
  {| rawChatHistory := f (rawChatHistory st); errors := errors st;
     debugDict := debugDict st; console := console st;
     pending := pending st; sent := sent st |}.

Definition setErrors (f : list ErrorItem -> list ErrorItem) (st : state)
  : state :=
  {| rawChatHistory := rawChatHistory st; errors := f (errors st);
     debugDict := debugDict st; console := console st;
     pending := pending st; sent := sent st |}.

Definition setDebugDict (d : json) (st : state) : state :=
  {| rawChatHistory := rawChatHistory st; errors := errors st;
     debugDict := Some d; console := console st;
     pending := pending st; sent := sent st |}.

Definition console_log (entry : log) (st : state) : state :=
  {| rawChatHistory := rawChatHistory st; errors := errors st;
     debugDict := debugDict st; console := console st ++ [entry];
     pending := pending st; sent := sent st |}.

Definition set_pending (p : list FunctionCall) (st : state) : state :=
  {| rawChatHistory := rawChatHistory st; errors := errors st;
     debugDict := debugDict st; console := console st;
     pending := p; sent := sent st |}.

Definition sendMessage (message : jsstring) (st : state) : state :=
  {| rawChatHistory := rawChatHistory st; errors := errors st;
     debugDict := debugDict st; console := console st;
     pending := pending st; sent := sent st ++ [message] |}.

(** The branch for [data.type === "error"]. *)
Definition on_error (error_type message : jsstring) (st : state) : state :=
  if str_eqb error_type (u16 "warning") then
    console_log (warn (u16 "Warning from server: " ++ message)) st
  else
    setErrors (fun prev => prev ++ [makeErrorItem message])
      (console_log (log_error (u16 "Error from server: " ++ message)) st).

(** One iteration of the loop over [data.response.output]: the assistant
    turn is appended and [handleToolCall] is started; its [then] callback
    runs later, in a job of its own. *)
Definition on_output_item (st : state) (call : FunctionCall) : state :=
  if negb (str_eqb (call_type call) (u16 "function_call")) then st
  else
    set_pending (pending st ++ [call])
      (setRawChatHistory (fun prev => prev ++ [assistant_turn call]) st).

(** The effect that handles [lastMessage]. *)
Definition on_message (data : envelope) (st : state) : state :=
  match data with
  | response_audio_delta _ => st
  | unmute_additional_outputs debug_dict => setDebugDict debug_dict st
  | error_envelope error_type message => on_error error_type message st
  | input_audio_transcription_delta delta =>
      setRawChatHistory
        (fun prev =>
           prev ++ [ {| role := user; content := Some (u16 " " ++ delta);
                        tool_calls := None; tool_call_id := None |} ]) st
  | response_text_delta delta =>
      setRawChatHistory
        (fun prev =>
           prev ++ [ {| role := assistant; content := Some (u16 " " ++ delta);
                        tool_calls := None; tool_call_id := None |} ]) st
  | response_function_call_arguments_delta => st
  | response_done output => foldl on_output_item st output
  | other type =>
      if bool_decide (type ∈ ignoredTypes) then st
      else console_log (warn (u16 "Received unknown message:")) st
  end.

(** The [then] callback of [handleToolCall(call, ...)]. *)
Definition on_tool_result (call : FunctionCall) (toolResult : jsvalue)
    (st : state) : state :=
  sendMessage (stringify response_create)
    (sendMessage (stringify (function_call_output call toolResult))
       (setRawChatHistory (fun prev => prev ++ [tool_turn call toolResult])
          st)).

(** The jobs the event loop runs, each to completion before the next: the
    handling of an inbound message, and the callback of a pending call
    whose promise has been fulfilled with [toolResult] (any pending call,
    with any result). *)
Inductive event :=
| message (data : envelope)
| settled (n : nat) (toolResult : jsvalue).

Inductive step : state -> event -> state -> Prop :=
| step_message st data :
    step st (message data) (on_message data st)
| step_settled st n call toolResult :
    pending st !! n = Some call ->
    step st (settled n toolResult)
      (on_tool_result call toolResult (set_pending (delete n (pending st)) st)).

Inductive run : state -> list event -> state -> Prop :=
| run_done st : run st [] st
| run_step st e st' es st'' :
    step st e st' -> run st' es st'' -> run st (e :: es) st''.

(** *** [handleUploadMemories] *)

(** [fetch(url, { method: "POST", body })] for the file [filename] with
    the given content: the response, or the failure of the request. *)
Variable post_memory : jsstring -> jsstring -> jsstring -> completion response.

Definition memories_url (backendServerUrl voiceName : jsstring) : jsstring :=
  backendServerUrl ++ u16 "/v1/memories/" ++ voiceName.

Definition count_success (p : upload_progress) : upload_progress :=
  {| successCount := S (successCount p); errorCount := errorCount p;
     posted := posted p |}.

Definition count_error (p : upload_progress) : upload_progress :=
  {| successCount := successCount p; errorCount := S (errorCount p);
     posted := posted p |}.

Definition record_post (filename body : jsstring) (p : upload_progress)
  : upload_progress :=
  {| successCount := successCount p; errorCount := errorCount p;
     posted := posted p ++ [(filename, body)] |}.

(** One iteration of the loop over [memoryKeys]. *)
Definition upload_one (backendServerUrl voiceName : jsstring)
    (localStorage : Storage) (p : upload_progress) (timestamp : jsstring)
  : upload_progress :=
  let memoryHistory := getItem (memoryKey voiceName timestamp) localStorage in
  if truthy memoryHistory then
    let filename := timestamp ++ u16 ".json" in
    let p := record_post filename (to_str memoryHistory) p in
    match post_memory (memories_url backendServerUrl voiceName) filename
            (to_str memoryHistory) with
    | Return response =>
        if response_ok response then count_success p
        else
          match response_text response with
          | Return _ => count_error p
          | Throw _ => count_error p
          end
    | Throw _ => count_error p
    end
  else p.

Definition upload_all (backendServerUrl voiceName : jsstring)
    (localStorage : Storage) (memoryKeys : list jsstring) : upload_progress :=
  foldl (upload_one backendServerUrl voiceName localStorage)
    {| successCount := 0; errorCount := 0; posted := [] |} memoryKeys.

(** [handleUploadMemories()]: what is posted and what is reported.
    [confirmed] is the answer to [confirm(...)]. *)
Definition handleUploadMemories (confirmed : bool)
    (backendServerUrl voiceName : jsstring) (localStorage : Storage)
  : list (jsstring * jsstring) * upload_report :=
  if negb confirmed then ([], upload_declined)
  else
    let memoryKeys := getMemoryList voiceName localStorage in
    match memoryKeys with
    | [] => ([], no_local_memories)
    | _ :: _ =>
        let p :=
          upload_all backendServerUrl voiceName localStorage memoryKeys in
        (posted p, upload_complete (successCount p) (errorCount p))
    end.

End Component.

End Unmute.

(** ** chatHistory.ts before tool calls: the first merge view *)

Module ChatHistoryV1.

Inductive ChatRole := user | assistant | system.

Record ChatMessage := {
  role : ChatRole;
  content : jsstring;
}.

Definition role_eqb (a b : ChatRole) : bool :=
  match a, b with
  | user, user | assistant, assistant | system, system => true
  | _, _ => false
  end.

(** [last.content += `${separator}${message.content}`] *)
Definition append_content (separator : jsstring) (message last : ChatMessage)
  : ChatMessage :=
  {| role := role last;
     content := content last ++ separator ++ content message |}.

Definition compress_step (separator : jsstring)
    (compressed : list ChatMessage) (message : ChatMessage)
  : list ChatMessage :=
  match last compressed with
  | Some prev =>
      if role_eqb (role prev) (role message)
      then update_last (append_content separator message) compressed
      else compressed ++ [message]
  | None => compressed ++ [message]
  end.

Definition compressChatHistory (chatHistory : list ChatMessage)
    (separator : jsstring) : list ChatMessage :=
  foldl (compress_step separator) [] chatHistory.

End ChatHistoryV1.

(** ** The declarations of the tools *)

Module ToolSchema.

Import Tools.

Definition str (s : string) : json := JStr (u16 s).

(** [{ type: "function", function: { name, description, parameters } }] *)
Definition declare (name description : string)
    (properties : list (jsstring * json)) (required : list json) : json :=
  JObj [ (u16 "type", str "function");
         (u16 "function",
          JObj [ (u16 "name", str name);
                 (u16 "description", str description);
                 (u16 "parameters",
                  JObj [ (u16 "type", str "object");
                         (u16 "properties", JObj properties);
                         (u16 "required", JArr required) ]) ]) ].

Definition typed (type : string) : json := JObj [ (u16 "type", str type) ].

Definition described (type description : string) : json :=
  JObj [ (u16 "type", str type); (u16 "description", str description) ].

(** [export const tools = [...]] *)
Definition tools : list json :=
  [ declare "get_weather"
      "Get current temperature for provided coordinates in celsius."
      [ (u16 "latitude", typed "number"); (u16 "longitude", typed "number") ]
      [ str "latitude"; str "longitude" ];
    declare "get_coordinates"
      "Get latitude and longitude for a given city name."
      [ (u16 "city", typed "string") ]
      [ str "city" ];
    declare "get_news"
      "Get the latest news headlines. You can filter by country, category, or sources."
      [ (u16 "country", described "string" "e.g. 'us', 'de'");
        (u16 "category", described "string" "e.g. 'business', 'technology'");
        (u16 "sources",
         described "string"
           "A comma-seperated string of identifiers for the news sources or blogs you want headlines from (e.g. 'the-verge', 'bbc-news').") ]
      [];
    declare "get_news_sources"
      "Get the list of available news sources. You can filter by category."
      [ (u16 "category",
         described "string"
           "The category to filter sources by (e.g. 'business', 'technology').") ]
      [] ].

(** [o[name]] on a value read from JSON, for a name that no prototype
    defines: [None] is [undefined]. *)
Fixpoint lookup_member (name : jsstring) (members : list (jsstring * json))
  : option json :=
  match members with
  | [] => None
  | (k, v) :: r => if decide (k = name) then Some v else lookup_member name r
  end.

Definition member (name : jsstring) (v : json) : option json :=
  match v with
  | JObj members => lookup_member name members
  | _ => None
  end.

(** [tool.function.name] of a declaration, when it is a string. *)
Definition declared_name (declaration : json) : option jsstring :=
  match member (u16 "function") declaration with
  | Some f =>
      match member (u16 "name") f with
      | Some (JStr name) => Some name
      | _ => None
      end
  | None => None
  end.

Definition declared_names : list jsstring := omap declared_name tools.

End ToolSchema.

(** ** Unmute.tsx: what is shown and what is replayed *)

Module Session.

Import Tools Unmute.

(** [`Tool call: ${call.function.name}(${JSON.stringify(
    call.function.arguments)})`] *)
Definition show_call (call : ToolCall) : jsstring :=
  u16 "Tool call: " ++ fn_name (tc_function call) ++ u16 "("
  ++ JSON.quote (fn_arguments (tc_function call)) ++ u16 ")".

(** [`${message.content}`] for the content of a tool turn. The component
    builds a tool turn in one place, the callback of [handleToolCall],
    with the content [JSON.stringify(toolResult)]: a string, or
    [undefined] when the tool returned [undefined]; and a turn that has
    been through [localStorage] comes back without the property that
    [JSON.stringify] dropped. On a tool turn, a content that is no string
    is therefore [undefined], never [null]. *)
Definition tool_output (c : option jsstring) : jsstring :=
  match c with
  | Some s => s
  | None => u16 "undefined"
  end.

(** The function mapped over the compressed history for the display. *)
Definition display (message : ChatMessage) : ChatMessage :=
  match role message with
  | tool =>
      text_turn user (u16 "Tool output: " ++ tool_output (content message))
  | assistant =>
      match tool_calls message with
      | Some calls =>
          text_turn assistant (join [10%N] (map show_call calls))
      | None => message
      end
  | _ => message
  end.

(** [chatHistory], the compressed history of the component. *)
Definition chatHistory (rawChatHistory : list ChatMessage)
  : list ChatMessage := compressChatHistory rawChatHistory [].

Definition displayChatHistory (rawChatHistory : list ChatMessage)
  : list ChatMessage := map display (chatHistory rawChatHistory).

(** The item of a turn in the replay; [None] when the turn is skipped. *)
Definition replay_item (message : ChatMessage) : option json :=
  match role message with
  | tool =>
      if negb (truthy (tool_call_id message)) || negb (truthy (content message))
      then None
      else
        Some (JObj [ (u16 "type", JStr (u16 "function_call_output"));
                     (u16 "call_id", JStr (to_str (tool_call_id message)));
                     (u16 "output", JStr (to_str (content message))) ])
  | r =>
      match r, tool_calls message with
      | assistant, Some calls =>
          Some (JObj [ (u16 "type", JStr (u16 "message"));
                       (u16 "role", JStr (u16 "assistant"));
                       (u16 "content",
                        match content message with
                        | Some s => JStr s
                        | None => JNull
                        end);
                       (u16 "tool_calls", JArr (map js_of_tool_call calls)) ])
      | _, _ =>
          if truthy (content message) then
            Some (JObj [ (u16 "type", JStr (u16 "message"));
                         (u16 "role", JStr (role_name r));
                         (u16 "content",
                          JArr [ JObj [ (u16 "type", JStr (u16 "input_text"));
                                        (u16 "text",
                                         JStr (to_str (content message))) ] ]) ])
          else None
      end
  end.

Definition replay_items (compressed : list ChatMessage) : list json :=
  omap replay_item compressed.

(** [{ type: "conversation.item.create", item }] *)
Definition item_create (item : json) : json :=
  JObj [ (u16 "type", JStr (u16 "conversation.item.create"));
         (u16 "item", item) ].

Section Open.

(** The configuration, and the key of the consent in [localStorage]. *)
Variable instructions : json.
Variable voice : jsstring.
Variable COOKIE_CONSENT_STORAGE_KEY : jsstring.

Definition session_update (localStorage : Storage) : json :=
  let recordingConsent :=
    bool_decide (getItem COOKIE_CONSENT_STORAGE_KEY localStorage
                 = Some (u16 "true")) in
  JObj [ (u16 "type", JStr (u16 "session.update"));
         (u16 "session",
          JObj [ (u16 "instructions", instructions);
                 (u16 "voice", JStr voice);
                 (u16 "allow_recording", JBool recordingConsent);
                 (u16 "tools", JArr ToolSchema.tools);
                 (u16 "tool_choice", JStr (u16 "auto")) ]) ].

(** The effect that runs when the connection is open: the messages sent,
    before they are serialized. *)
Definition on_open (localStorage : Storage)
    (rawChatHistory : list ChatMessage) : list json :=
  session_update localStorage
  :: match rawChatHistory with
     | [] => []
     | _ :: _ => map item_create (replay_items (chatHistory rawChatHistory))
     end.

End Open.

End Session.

(** ** Unmute.tsx: the download of the memories *)

Module Download.

Import Unmute.

(** [filename.endsWith(suffix)] *)
Definition endsWith (suffix s : jsstring) : bool :=
  bool_decide (suffix `suffix_of` s).

(** [filename.slice(0, -5)] *)
Definition slice_0_minus5 (s : jsstring) : jsstring :=
  take (length s - 5) s.

(** The response to the request of the list: [ok], and the names that
    [listResponse.json()] gives, or its failure. *)
Record list_response := {
  list_ok : bool;
  list_json : completion (list jsstring);
}.

(** The response to the request of one file: [ok], and the text that
    [JSON.stringify(await memoryResponse.json())] gives, or the failure
    of reading the body. *)
Record memory_response := {
  memory_ok : bool;
  memory_text : completion jsstring;
}.

Inductive download_report :=
| download_declined
| list_not_ok
| downloaded (savedMemories : list jsstring)
| download_failed.

Section Fetch.

Variable get_list : jsstring -> completion list_response.
Variable get_memory : jsstring -> completion memory_response.

(** One iteration of the loop over [memoryFilenames]. *)
Definition download_one (backendServerUrl voiceName : jsstring)
    (localStorage : Storage) (filename : jsstring) : Storage :=
  if negb (endsWith (u16 ".json") filename) then localStorage
  else
    match get_memory (memories_url backendServerUrl voiceName
                      ++ u16 "/" ++ filename) with
    | Return memoryResponse =>
        if memory_ok memoryResponse then
          match memory_text memoryResponse with
          | Return text =>
              setItem (memoryKey voiceName (slice_0_minus5 filename)) text
                localStorage
          | Throw _ => localStorage
          end
        else localStorage
    | Throw _ => localStorage
    end.

(** [handleDownloadMemories()]: the store it leaves and what it reports. *)
Definition handleDownloadMemories (confirmed : bool)
    (backendServerUrl voiceName : jsstring) (localStorage : Storage)
  : Storage * download_report :=
  if negb confirmed then (localStorage, download_declined)
  else
    match get_list (memories_url backendServerUrl voiceName) with
    | Return listResponse =>
        if negb (list_ok listResponse) then (localStorage, list_not_ok)
        else
          match list_json listResponse with
          | Return memoryFilenames =>
              let localStorage' :=
                foldl (download_one backendServerUrl voiceName) localStorage
                  memoryFilenames in
              (localStorage', downloaded (getMemoryList voiceName localStorage'))
          | Throw _ => (localStorage, download_failed)
          end
    | Throw _ => (localStorage, download_failed)
    end.

End Fetch.

End Download.

(** ** Counting the jobs of a run *)

Module Jobs.

Import Tools Unmute.

(** The calls that handling an event starts. *)
Definition requested (e : event) : list FunctionCall :=
  match e with
  | message (response_done output) => filter is_function_call output
  | _ => []
  end.

Definition is_settled (e : event) : bool :=
  match e with
  | settled _ _ => true
  | message _ => false
  end.

(** The message that handling an event adds to the errors shown. *)
Definition reported (e : event) : option jsstring :=
  match e with
  | message (error_envelope error_type text) =>
      if str_eqb error_type (u16 "warning") then None else Some text
  | _ => None
  end.

#[global] Instance ChatRole_eq_dec : EqDecision ChatRole.
Proof. solve_decision. Defined.

(** A call that has returned, with what it returned. *)
Abbreviation answer := (FunctionCall * jsvalue)%type.

Definition turn_of (a : answer) : ChatMessage := tool_turn a.1 a.2.

(** The two messages sent when a call has returned. *)
Definition sent_for (a : answer) : list jsstring :=
  [ stringify (function_call_output a.1 a.2); stringify response_create ].

End Jobs.

(** ** Sample data for the examples *)

Module Sample.

Import Tools Unmute.

Definition alice : jsstring := u16 "alice".

Definition hi : ChatMessage := text_turn user (u16 " hi").
Definition there : ChatMessage := text_turn user (u16 " there").

Definition monday : jsstring := u16 "2025-06-02T09:00:00.000Z".
Definition tuesday : jsstring := u16 "2025-06-03T09:00:00.000Z".
Definition wednesday : jsstring := u16 "2025-06-04T09:00:00.000Z".

(** A store with a live history for alice. *)
Definition live : Storage := saveChatHistory [hi; there] alice ∅.

(** The same store after three snapshots. *)
Definition three_snapshots : Storage :=
  saveMemory wednesday alice (saveMemory tuesday alice
    (saveMemory monday alice live)).

(** The message of the SyntaxError, here the same for every input. *)
Definition message_of (text : jsstring) : jsstring :=
  u16 "Unexpected end of JSON input".

(** Tools that find nothing, and tools whose request fails. *)
Definition nothing (args : json) : completion jsvalue :=
  Return (Some (JArr [])).
Definition nothing_at (url : jsstring) (args : json) : completion jsvalue :=
  Return (Some (JArr [])).
Definition unreachable (args : json) : completion jsvalue :=
  Throw (Error (u16 "Failed to fetch")).

Definition backend : jsstring := u16 "http://localhost:8000".

Definition call_a : FunctionCall :=
  {| call_type := u16 "function_call"; call_id := u16 "call_a";
     call_name := u16 "get_coordinates";
     call_arguments := u16 "{'city':'Paris'}" |}.

Definition call_b : FunctionCall :=
  {| call_type := u16 "function_call"; call_id := u16 "call_b";
     call_name := u16 "get_news"; call_arguments := [] |}.

Definition text_item : FunctionCall :=
  {| call_type := u16 "message"; call_id := []; call_name := [];
     call_arguments := [] |}.

Definition unknown_call : FunctionCall :=
  {| call_type := u16 "function_call"; call_id := u16 "call_c";
     call_name := u16 "get_time"; call_arguments := u16 "{}" |}.

Definition initial : Unmute.state unit :=
  {| rawChatHistory := [hi]; errors := []; debugDict := None;
     console := []; pending := []; sent := [] |}.

(** A server that stores every memory but the one of tuesday, whose
    request fails. *)
Definition post_all_but_tuesday (url filename body : jsstring)
  : completion response :=
  if str_eqb filename (tuesday ++ u16 ".json")
  then Throw (Error (u16 "Failed to fetch"))
  else Return {| response_ok := true; response_text := Return [] |}.

Definition post_ok (url filename body : jsstring) : completion response :=
  Return {| response_ok := true; response_text := Return [] |}.

End Sample.

(** ** Sample data for the further examples *)

Module Scenario.

Import Tools Unmute Download Sample.

Definition bob : jsstring := u16 "bob".

Definition reply : ChatMessage := text_turn assistant (u16 " hello").

(** Two turns of the user in the first data model. *)
Definition hi1 : ChatHistoryV1.ChatMessage :=
  {| ChatHistoryV1.role := ChatHistoryV1.user;
     ChatHistoryV1.content := u16 "hi" |}.
Definition there1 : ChatHistoryV1.ChatMessage :=
  {| ChatHistoryV1.role := ChatHistoryV1.user;
     ChatHistoryV1.content := u16 "there" |}.

(** A session in which nothing has been said yet. *)
Definition fresh : Unmute.state unit :=
  {| rawChatHistory := []; errors := []; debugDict := None;
     console := []; pending := []; sent := [] |}.

Definition item_of (message : jsstring) : unit := tt.

(** A response with two calls, whose tools return in the other order:
    the news first, then the failure of the coordinates. *)
Definition after_done : Unmute.state unit :=
  on_message unit item_of (response_done [call_a; text_item; call_b]) initial.

Definition no_news : jsvalue := Some (JArr []).

Definition after_news : Unmute.state unit :=
  on_tool_result unit call_b no_news
    (set_pending unit (delete 1 (pending unit after_done)) after_done).

Definition no_coordinates : jsvalue :=
  error_result (u16 "Unexpected token").

Definition after_coordinates : Unmute.state unit :=
  on_tool_result unit call_a no_coordinates
    (set_pending unit (delete 0 (pending unit after_news)) after_news).

Definition two_answers : list event :=
  [ message (response_done [call_a; text_item; call_b]);
    settled 1 no_news; settled 0 no_coordinates ].

(** A warning and an error from the server, around a delta. *)
Definition warned : list event :=
  [ message (error_envelope (u16 "warning") (u16 "slow down"));
    message (response_text_delta (u16 "hello"));
    message (error_envelope (u16 "fatal") (u16 "no capacity")) ].

Definition after_warned : Unmute.state unit :=
  on_message unit item_of
    (error_envelope (u16 "fatal") (u16 "no capacity"))
    (on_message unit item_of (response_text_delta (u16 "hello"))
       (on_message unit item_of
          (error_envelope (u16 "warning") (u16 "slow down")) initial)).

(** A store whose live key holds an array that is no chat history. *)
Definition odd_array : json := JArr [ JStr (u16 "x"); JNull; JArr [] ].

Definition odd : Storage :=
  setItem (getStorageKey alice) (stringify odd_array) ∅.


(** A server that holds the files uploaded from [three_snapshots]. *)
Definition uploaded : list (jsstring * jsstring) :=
  (handleUploadMemories post_ok true backend alice three_snapshots).1.

Definition serve_list (url : jsstring) : completion list_response :=
  Return {| list_ok := true; list_json := Return uploaded.*1 |}.

Definition serve_memory (url : jsstring) : completion memory_response :=
  match
    list_find
      (fun file => url = memories_url backend alice ++ u16 "/" ++ file.1)
      uploaded
  with
  | Some (_, file) =>
      Return {| memory_ok := true; memory_text := Return file.2 |}
  | None => Throw (Error (u16 "Failed to fetch"))
  end.

End Scenario.

(** * Properties *)

(** ** The merge view *)

Section Compression.

Implicit Types (m message : ChatMessage) (l compressed : list ChatMessage).
Implicit Types (separator : jsstring) (heap : list ChatMessage).

Lemma update_last_snoc {A} (f : A -> A) (l : list A) (x : A) :
  update_last f (l ++ [x]) = l ++ [f x].
Proof.
  induction l as [|y l IH]; [done|].
  simpl. rewrite IH. by destruct l.
Qed.

Lemma role_eqb_eq (a b : ChatRole) : role_eqb a b = true <-> a = b.
Proof. destruct a, b; simpl; split; congruence. Qed.

Lemma role_eqb_refl (a : ChatRole) : role_eqb a a = true.
Proof. by destruct a. Qed.

Lemma trim_content_falsy m : truthy (content m) = false -> trim_content m = m.
Proof.
  destruct m as [r [[|c s]|] tc ti]; simpl; try done.
Qed.

Lemma truthy_trim_content_falsy m :
  truthy (content m) = false -> truthy (content (trim_content m)) = false.
Proof. intros H. by rewrite trim_content_falsy. Qed.

(** The loop only ever looks at the last compressed turn. *)
Lemma compress_step_snoc separator compressed prev message :
  compress_step separator (compressed ++ [prev]) message
  = compressed ++ compress_step separator [prev] message.
Proof.
  unfold compress_step. rewrite last_snoc. simpl.
  destruct (_ && _ && _).
  - by rewrite update_last_snoc.
  - by rewrite <- app_assoc.
Qed.

Lemma compress_step_nonempty separator compressed message :
  exists l prev, compress_step separator compressed message = l ++ [prev].
Proof.
  unfold compress_step.
  destruct (last compressed) as [p|] eqn:Hl; [|by eauto].
  destruct (_ && _ && _); [|by eauto].
  apply last_Some in Hl as [l' ->].
  rewrite update_last_snoc. eauto.
Qed.

Lemma compress_fold_snoc separator history compressed prev :
  foldl (compress_step separator) (compressed ++ [prev]) history
  = compressed ++ foldl (compress_step separator) [prev] history.
Proof.
  revert compressed prev.
  induction history as [|message history IH]; intros compressed prev; [done|].
  simpl. rewrite compress_step_snoc.
  destruct (compress_step_nonempty separator [prev] message) as (l & p & ->).
  rewrite app_assoc, !IH. by rewrite app_assoc.
Qed.

(** A turn without content is a barrier: what follows is compressed as if
    it came first. *)
Lemma compress_fold_barrier separator history compressed prev :
  truthy (content prev) = false ->
  foldl (compress_step separator) (compressed ++ [prev]) history
  = compressed ++ prev :: foldl (compress_step separator) [] history.
Proof.
  intros Hfalsy. rewrite compress_fold_snoc. f_equal.
  destruct history as [|message history]; [done|].
  cbn [foldl].
  replace (compress_step separator [prev] message)
    with ([prev] ++ [trim_content message])
    by (unfold compress_step; simpl; by rewrite Hfalsy, andb_false_r).
  replace (compress_step separator [] message)
    with [trim_content message] by done.
  by rewrite compress_fold_snoc.
Qed.

Lemma compress_step_falsy separator compressed message :
  truthy (content message) = false ->
  compress_step separator compressed message = compressed ++ [message].
Proof.
  intros Hfalsy. unfold compress_step.
  rewrite Hfalsy, trim_content_falsy by done.
  destruct (last compressed); [|done].
  by rewrite andb_false_r.
Qed.

(** A turn whose content is [null] or empty is copied as it is, and the
    turns on both sides of it are compressed on their own. *)
Lemma compress_around_falsy separator before message after :
  truthy (content message) = false ->
  compressChatHistory (before ++ message :: after) separator
  = compressChatHistory before separator
    ++ message :: compressChatHistory after separator.
Proof.
  intros Hfalsy. unfold compressChatHistory.
  rewrite foldl_app. simpl.
  rewrite compress_step_falsy by done.
  by apply compress_fold_barrier.
Qed.

Lemma set_content_set_content c c' m :
  set_content c (set_content c' m) = set_content c m.
Proof. done. Qed.

Lemma set_content_same m : set_content (content m) m = m.
Proof. by destruct m. Qed.

Lemma join_merge_head separator (a c : jsstring) (l : list jsstring) :
  join separator ((a ++ separator ++ c) :: l) = join separator (a :: c :: l).
Proof.
  destruct l as [|x l]; simpl; [done|].
  by rewrite <- !app_assoc.
Qed.

(** Turns of the role of the last compressed turn, all with content, are
    appended to it one after the other. *)
Lemma compress_fold_merge separator rest prev a :
  content prev = Some a -> a <> [] ->
  Forall (fun x => role x = role prev /\ truthy (content x) = true) rest ->
  foldl (compress_step separator) [prev] rest
  = [set_content (Some (join separator (a :: omap content rest))) prev].
Proof.
  revert prev a.
  induction rest as [|x rest IH]; intros prev a Hprev Ha Hall.
  - simpl. by rewrite <- Hprev, set_content_same.
  - apply Forall_cons in Hall as [[Hrole Hx] Hall].
    destruct (content x) as [cx|] eqn:Hcx; [|done].
    cbn [foldl].
    replace (compress_step separator [prev] x)
      with [set_content (Some (a ++ separator ++ cx)) prev].
    2:{ unfold compress_step, append_content. cbn [last].
        rewrite Hrole, role_eqb_refl, Hcx, Hx, Hprev.
        destruct a; [done|]. simpl. by rewrite Hprev. }
    erewrite IH; [| done | by destruct a | done].
    rewrite set_content_set_content. cbn [omap list_omap]. rewrite Hcx.
    by rewrite join_merge_head.
Qed.

Lemma deref_insert_notin heap ref message refs :
  ref ∉ refs ->
  deref (<[ref := message]> heap) refs = deref heap refs.
Proof.
  induction refs as [|r refs IH]; intros Hnotin; [done|].
  apply not_elem_of_cons in Hnotin as [Hne Hnotin].
  unfold deref in *. cbn [omap list_omap].
  rewrite list_lookup_insert_ne by done. by rewrite IH.
Qed.

(** X1: The loop over the heap returns what [compressChatHistory] computes on
    the objects referred to, when no object occurs twice in the array. *)
Lemma compress_loop_value separator refs heap compressed :
  NoDup refs ->
  Forall (fun ref => is_Some (heap !! ref)) refs ->
  (compress_loop separator heap refs compressed).2
  = foldl (compress_step separator) compressed (deref heap refs).
Proof.
  revert heap compressed.
  induction refs as [|ref refs IH]; intros heap compressed Hnd Hval; [done|].
  apply NoDup_cons in Hnd as [Hnotin Hnd].
  apply Forall_cons in Hval as [[message Hm] Hval].
  cbn [compress_loop deref omap list_omap]. rewrite Hm. cbn [foldl].
  assert (Hstep : compress_step separator compressed message
    = if match last compressed with
         | Some prev =>
             role_eqb (role prev) (role message)
             && truthy (content message) && truthy (content prev)
         | None => false
         end
      then update_last (append_content separator message) compressed
      else compressed ++ [trim_content message]).
  { unfold compress_step. by destruct (last compressed). }
  rewrite Hstep. clear Hstep.
  destruct (match last compressed with Some _ => _ | None => _ end).
  - by rewrite IH.
  - rewrite IH; [f_equal | done |].
    + by apply deref_insert_notin.
    + eapply Forall_impl; [exact Hval|]. intros r [m' Hr]. simpl.
      destruct (decide (ref = r)) as [->|Hne].
      * rewrite list_lookup_insert_eq; [by eauto|]. by eapply lookup_lt_Some.
      * rewrite list_lookup_insert_ne; by eauto.
Qed.

(** C2: a turn whose content is [null] is never merged with a neighbour,
    whatever the roles: it appears as a turn of its own in the compressed
    history, between the compressed turns before it and the compressed
    turns after it. *)
Theorem null_content_never_merged separator before message after :
  content message = None ->
  compressChatHistory (before ++ message :: after) separator
  = compressChatHistory before separator
    ++ message :: compressChatHistory after separator.
Proof.
  intros Hnull. apply compress_around_falsy. by rewrite Hnull.
Qed.

(** C10: a turn whose content is the empty string is never merged, even
    between turns of its role: it is pushed as a turn of its own, and the
    turn after it starts a new compressed turn. *)
Theorem empty_content_never_merged separator before message after :
  content message = Some [] ->
  compressChatHistory (before ++ message :: after) separator
  = compressChatHistory before separator
    ++ message :: compressChatHistory after separator.
Proof.
  intros Hempty. apply compress_around_falsy. by rewrite Hempty.
Qed.

(** C1, as amended: a non-empty run of turns of one role with non-null
    content, the turns after the first with non-empty content and, when
    there are any, the first content not white space only, is compressed
    into exactly one turn: the first turn, with the contents joined by the
    separator in their order, the first content without its leading white
    space. *)
Theorem same_role_run_merges separator first c rest :
  content first = Some c ->
  (rest <> [] -> trimStart c <> []) ->
  Forall (fun x => role x = role first /\ truthy (content x) = true) rest ->
  compressChatHistory (first :: rest) separator
  = [set_content
       (Some (join separator (trimStart c :: omap content rest))) first].
Proof.
  intros Hc Htrim Hall. unfold compressChatHistory. cbn [foldl].
  replace (compress_step separator [] first)
    with [set_content (Some (trimStart c)) first]
    by (unfold compress_step, trim_content; simpl; by rewrite Hc).
  destruct rest as [|x rest]; [done|].
  erewrite compress_fold_merge; [| done | by apply Htrim | done].
  by rewrite set_content_set_content.
Qed.

End Compression.

(** Literals are replaced by their code units before a computation. *)
Ltac eval_literals :=
  repeat match goal with
    | |- context [ch ?s] =>
        let v := eval vm_compute in (ch s) in change (ch s) with v
    | |- context [u16 ?s] =>
        let v := eval vm_compute in (u16 s) in change (u16 s) with v
    | H : context [ch ?s] |- _ =>
        let v := eval vm_compute in (ch s) in change (ch s) with v in H
    | H : context [u16 ?s] |- _ =>
        let v := eval vm_compute in (u16 s) in change (u16 s) with v in H
    end;
  change QUOTE with 34%N in *; change BACKSLASH with 92%N in *.

(** ** [JSON.parse] reads back what [JSON.stringify] wrote *)

Section JsonRoundTrip.

Lemma json_ind (P : json -> Prop) :
  P JNull ->
  (forall b, P (JBool b)) ->
  (forall literal, P (JNum literal)) ->
  (forall s, P (JStr s)) ->
  (forall elements, Forall P elements -> P (JArr elements)) ->
  (forall members, Forall (fun m => P (snd m)) members -> P (JObj members)) ->
  forall v, P v.
Proof.
  intros Hnull Hbool Hnum Hstr Harr Hobj.
  fix IH 1. intros [| b | literal | s | elements | members].
  - exact Hnull.
  - apply Hbool.
  - apply Hnum.
  - apply Hstr.
  - apply Harr. induction elements as [|e elements IHl]; constructor.
    + apply IH.
    + exact IHl.
  - apply Hobj. induction members as [|[k e] members IHl]; constructor.
    + apply IH.
    + exact IHl.
Qed.

Lemma hex_val_hex_digit (n : N) :
  (n < 16)%N -> hex_val (hex_digit n) = Some n.
Proof.
  intros Hn. unfold hex_val, hex_digit, between.
  destruct (N.ltb_spec n 10).
  - replace ((48 <=? 48 + n)%N) with true by (symmetry; apply N.leb_le; lia).
    replace ((48 + n <=? 57)%N) with true by (symmetry; apply N.leb_le; lia).
    simpl. f_equal. lia.
  - replace ((87 + n <=? 57)%N) with false
      by (symmetry; apply N.leb_gt; lia).
    rewrite andb_false_r.
    replace ((97 <=? 87 + n)%N) with true by (symmetry; apply N.leb_le; lia).
    replace ((87 + n <=? 102)%N) with true by (symmetry; apply N.leb_le; lia).
    simpl. f_equal. lia.
Qed.

Lemma hex4_value (c : N) :
  (c < 65536)%N ->
  ((((c / 4096) mod 16 * 16 + (c / 256) mod 16) * 16 + (c / 16) mod 16) * 16
   + c mod 16 = c)%N.
Proof.
  intros Hc.
  pose proof (N.Div0.div_mod c 16) as H0.
  pose proof (N.Div0.div_mod (c / 16) 16) as H1.
  pose proof (N.Div0.div_mod (c / 256) 16) as H2.
  pose proof (N.Div0.div_mod (c / 4096) 16) as H3.
  replace (c / 16 / 16)%N with (c / 256)%N in H1
    by (by rewrite N.Div0.div_div).
  replace (c / 256 / 16)%N with (c / 4096)%N in H2
    by (by rewrite N.Div0.div_div).
  assert (c / 4096 / 16 = 0)%N as H4.
  { rewrite N.Div0.div_div. apply N.div_small. lia. }
  rewrite H4 in H3. lia.
Qed.

(** *** String literals *)

Lemma parse_chars_literal (c : N) (t : jsstring) :
  c <> QUOTE -> c <> BACKSLASH -> (32 <= c)%N ->
  parse_chars (c :: t) = prod_map (cons c) id <$> parse_chars t.
Proof.
  intros Hq Hb Hc. cbn [parse_chars].
  destruct (N.eqb_spec c QUOTE); [done|].
  destruct (N.eqb_spec c BACKSLASH); [done|].
  destruct (N.ltb_spec c 32); [lia|].
  by destruct (parse_chars t) as [[u rest]|].
Qed.

Lemma parse_chars_unicode_escape (c : N) (t : jsstring) :
  (c < 65536)%N ->
  parse_chars (unicode_escape c ++ t) = prod_map (cons c) id <$> parse_chars t.
Proof.
  intros Hc. unfold unicode_escape, hex4.
  cbn [app parse_chars].
  change (BACKSLASH =? QUOTE)%N with false.
  change (BACKSLASH =? BACKSLASH)%N with true.
  change (ch "u" =? ch "u")%N with true. cbn iota.
  rewrite !hex_val_hex_digit by (apply N.mod_lt; lia).
  rewrite hex4_value by done.
  by destruct (parse_chars t) as [[u rest]|].
Qed.

Lemma parse_chars_quote_unit (c : N) (t : jsstring) :
  parse_chars (quote_unit c ++ t) = prod_map (cons c) id <$> parse_chars t.
Proof.
  unfold quote_unit.
  destruct (N.eqb_spec c 8) as [->|?];
    [by destruct (parse_chars t) as [[u rest]|] eqn:E; cbn; rewrite E|].
  destruct (N.eqb_spec c 9) as [->|?];
    [by destruct (parse_chars t) as [[u rest]|] eqn:E; cbn; rewrite E|].
  destruct (N.eqb_spec c 10) as [->|?];
    [by destruct (parse_chars t) as [[u rest]|] eqn:E; cbn; rewrite E|].
  destruct (N.eqb_spec c 12) as [->|?];
    [by destruct (parse_chars t) as [[u rest]|] eqn:E; cbn; rewrite E|].
  destruct (N.eqb_spec c 13) as [->|?];
    [by destruct (parse_chars t) as [[u rest]|] eqn:E; cbn; rewrite E|].
  destruct (N.eqb_spec c QUOTE) as [->|?];
    [by destruct (parse_chars t) as [[u rest]|] eqn:E; cbn; rewrite E|].
  destruct (N.eqb_spec c BACKSLASH) as [->|?];
    [by destruct (parse_chars t) as [[u rest]|] eqn:E; cbn; rewrite E|].
  destruct (N.ltb_spec c 32).
  - apply parse_chars_unicode_escape. lia.
  - by apply parse_chars_literal.
Qed.

Lemma surrogate_literal (c : N) :
  is_leading_surrogate c = true \/ is_trailing_surrogate c = true ->
  c <> QUOTE /\ c <> BACKSLASH /\ (32 <= c)%N /\ (c < 65536)%N.
Proof.
  unfold is_leading_surrogate, is_trailing_surrogate, between, QUOTE, BACKSLASH.
  intros [H|H]; apply andb_true_iff in H as [H1 H2];
    apply N.leb_le in H1, H2; lia.
Qed.

Lemma parse_chars_quote_units_step (c : N) (s : jsstring) :
  (forall rest,
     parse_chars (quote_units s ++ QUOTE :: rest) = Some (s, rest)) ->
  (forall d r rest, s = d :: r ->
     parse_chars (quote_units r ++ QUOTE :: rest) = Some (r, rest)) ->
  forall rest,
    parse_chars (quote_units (c :: s) ++ QUOTE :: rest) = Some (c :: s, rest).
Proof.
  intros Hs Htail rest. cbn [quote_units].
  destruct (is_leading_surrogate c) eqn:Hlead.
  - destruct (surrogate_literal c) as (Hq & Hb & Hlo & Hhi); [by left|].
    destruct s as [|d r].
    + rewrite parse_chars_unicode_escape by done.
      cbn [parse_chars]. by change (QUOTE =? QUOTE)%N with true.
    + destruct (is_trailing_surrogate d) eqn:Htrail.
      * destruct (surrogate_literal d) as (Hq' & Hb' & Hlo' & _); [by right|].
        cbn [app]. rewrite !parse_chars_literal by done.
        by rewrite (Htail d r rest).
      * rewrite <- app_assoc, parse_chars_unicode_escape by done.
        by rewrite Hs.
  - destruct (is_trailing_surrogate c) eqn:Htrail.
    + destruct (surrogate_literal c) as (_ & _ & _ & Hhi); [by right|].
      rewrite <- app_assoc, parse_chars_unicode_escape by done.
      by rewrite Hs.
    + rewrite <- app_assoc, parse_chars_quote_unit. by rewrite Hs.
Qed.

(** The characters [JSON.stringify] writes between the quotes are read back
    as the string. *)
Lemma parse_chars_quote_units (s rest : jsstring) :
  parse_chars (quote_units s ++ QUOTE :: rest) = Some (s, rest).
Proof.
  revert rest.
  assert (H : (forall rest,
                 parse_chars (quote_units s ++ QUOTE :: rest) = Some (s, rest))
              /\ forall c rest,
                 parse_chars (quote_units (c :: s) ++ QUOTE :: rest)
                 = Some (c :: s, rest)); [|by destruct H].
  induction s as [|d r [IH1 IH2]].
  - assert (H0 : forall rest,
      parse_chars (quote_units [] ++ QUOTE :: rest) = Some ([], rest)).
    { intros rest. cbn. by change (QUOTE =? QUOTE)%N with true. }
    split; [done|]. intros c. by apply parse_chars_quote_units_step.
  - split; [by apply IH2|].
    intros c. apply parse_chars_quote_units_step; [by apply IH2|].
    intros d' r' rest [= -> ->]. apply IH1.
Qed.

(** *** Values *)

Lemma skip_ws_not_ws (c : N) (t : jsstring) :
  is_json_ws c = false -> skip_ws (c :: t) = c :: t.
Proof. intros H. cbn. by rewrite H. Qed.

(** A serialized value starts with a character that is neither white
    space nor a closing bracket. *)
Lemma stringify_head (v : json) :
  plain v = true ->
  exists c t, stringify v = c :: t
    /\ is_json_ws c = false /\ (c =? ch "]")%N = false.
Proof.
  destruct v as [| [|] | literal | s | elements | members]; intros Hv;
    try done; cbn; eauto.
Qed.

Lemma parse_value_unfold (fuel : nat) (c : N) (r : jsstring) :
  is_json_ws c = false ->
  parse_value (S fuel) (c :: r)
  = if (c =? ch "[")%N then
      match skip_ws r with
      | c' :: r' =>
          if (c' =? ch "]")%N then Some (JArr [], r')
          else '(vs, r1) ← parse_elements fuel r; Some (JArr vs, r1)
      | [] => None
      end
    else if (c =? ch "{")%N then
      match skip_ws r with
      | c' :: r' =>
          if (c' =? ch "}")%N then Some (JObj [], r')
          else '(ms, r1) ← parse_members fuel r;
               Some (JObj (make_object ms), r1)
      | [] => None
      end
    else if (c =? QUOTE)%N then
      '(str, r1) ← parse_chars r; Some (JStr str, r1)
    else if (c =? ch "t")%N then
      r1 ← expect (u16 "rue") r; Some (JBool true, r1)
    else if (c =? ch "f")%N then
      r1 ← expect (u16 "alse") r; Some (JBool false, r1)
    else if (c =? ch "n")%N then
      r1 ← expect (u16 "ull") r; Some (JNull, r1)
    else
      '(literal, r1) ← parse_number (c :: r); Some (JNum literal, r1).
Proof.
  intros Hc. cbn [parse_value]. by rewrite skip_ws_not_ws.
Qed.

Lemma parse_elements_unfold (fuel : nat) (s : jsstring) :
  parse_elements (S fuel) s
  = '(v, r) ← parse_value fuel s;
    match skip_ws r with
    | c :: r1 =>
        if (c =? ch ",")%N then
          '(vs, r2) ← parse_elements fuel r1; Some (v :: vs, r2)
        else if (c =? ch "]")%N then Some ([v], r1)
        else None
    | [] => None
    end.
Proof. done. Qed.

Lemma parse_members_unfold (fuel : nat) (r : jsstring) :
  parse_members (S fuel) (QUOTE :: r)
  = '(k, r1) ← parse_chars r;
    match skip_ws r1 with
    | c1 :: r2 =>
        if (c1 =? ch ":")%N then
          '(v, r3) ← parse_value fuel r2;
          match skip_ws r3 with
          | c3 :: r4 =>
              if (c3 =? ch ",")%N then
                '(ms, r5) ← parse_members fuel r4;
                Some ((k, v) :: ms, r5)
              else if (c3 =? ch "}")%N then Some ([(k, v)], r4)
              else None
          | [] => None
          end
        else None
    | [] => None
    end.
Proof. done. Qed.

Lemma parse_elements_stringify (elements : list json) :
  Forall (fun v => plain v = true -> forall fuel rest,
            size v <= fuel ->
            parse_value fuel (stringify v ++ rest) = Some (v, rest))
         elements ->
  forallb plain elements = true ->
  elements <> [] ->
  forall fuel rest,
    list_sum (map (fun e => S (size e)) elements) <= fuel ->
    parse_elements fuel
      (join [ch ","] (map stringify elements) ++ ch "]" :: rest)
    = Some (elements, rest).
Proof.
  induction 1 as [|v elements Hv _ IH]; intros Hplain Hne fuel rest Hfuel;
    [done|].
  cbn [forallb] in Hplain. apply andb_true_iff in Hplain as [Hpv Hpl].
  simpl in Hfuel.
  destruct fuel as [|fuel]; [lia|].
  rewrite parse_elements_unfold.
  destruct elements as [|v' elements].
  - cbn [map join]. rewrite Hv by (done || lia). by eval_literals.
  - change (join [ch ","] (map stringify (v :: v' :: elements)))
      with (stringify v ++ [ch ","]
            ++ join [ch ","] (map stringify (v' :: elements))).
    rewrite <- !app_assoc. rewrite Hv by (done || lia).
    eval_literals. cbn -[join map].
    rewrite IH by (done || lia). done.
Qed.

Lemma obj_set_fresh (k : jsstring) (v : json) (o : list (jsstring * json)) :
  k ∉ o.*1 -> obj_set k v o = o ++ [(k, v)].
Proof.
  induction o as [|[k' v'] o IH]; intros Hk; [done|].
  cbn in *. apply not_elem_of_cons in Hk as [Hne Hk].
  rewrite decide_False by done. by rewrite IH.
Qed.

Lemma make_object_NoDup (members : list (jsstring * json)) :
  NoDup members.*1 -> make_object members = members.
Proof.
  unfold make_object.
  enough (H : forall o, NoDup (o ++ members).*1 ->
            foldl (fun o m => obj_set m.1 m.2 o) o members = o ++ members)
    by (intros Hnd; by apply (H [])).
  induction members as [|[k v] members IH]; intros o Hnd.
  - by rewrite app_nil_r.
  - cbn [foldl fst snd]. rewrite obj_set_fresh.
    + rewrite IH; rewrite <- app_assoc; done.
    + rewrite fmap_app in Hnd. apply NoDup_app in Hnd as (_ & Hdisj & _).
      intros Hin. apply (Hdisj k Hin). cbn. by left.
Qed.

Lemma parse_members_stringify (members : list (jsstring * json)) :
  Forall (fun m => plain m.2 = true -> forall fuel rest,
            size m.2 <= fuel ->
            parse_value fuel (stringify m.2 ++ rest) = Some (m.2, rest))
         members ->
  forallb (fun m => plain m.2) members = true ->
  members <> [] ->
  forall fuel rest,
    list_sum (map (fun m => S (size m.2)) members) <= fuel ->
    parse_members fuel
      (join [ch ","] (map (stringify_member stringify) members)
       ++ ch "}" :: rest)
    = Some (members, rest).
Proof.
  induction 1 as [|[k v] members Hv _ IH]; intros Hplain Hne fuel rest Hfuel;
    [done|].
  cbn [forallb snd] in Hplain, Hv.
  apply andb_true_iff in Hplain as [Hpv Hpl].
  simpl in Hfuel.
  destruct fuel as [|fuel]; [lia|].
  destruct (stringify_head v Hpv) as (c & t & Hhead & Hws & _).
  destruct members as [|m' members].
  - cbn [map join]. unfold stringify_member, quote. cbn [fst snd].
    cbn [app]. rewrite parse_members_unfold.
    rewrite <- !app_assoc. cbn [app].
    rewrite parse_chars_quote_units.
    eval_literals. cbn -[parse_value stringify].
    rewrite Hv by (done || lia). by cbn.
  - change (join [ch ","]
              (map (stringify_member stringify) ((k, v) :: m' :: members)))
      with (stringify_member stringify (k, v) ++ [ch ","]
            ++ join [ch ","]
                 (map (stringify_member stringify) (m' :: members))).
    unfold stringify_member at 1, quote. cbn [fst snd].
    cbn [app]. rewrite parse_members_unfold.
    rewrite <- !app_assoc. cbn [app].
    rewrite parse_chars_quote_units.
    eval_literals. cbn -[parse_value stringify join map].
    rewrite <- ?app_assoc. rewrite Hv by (done || lia).
    cbn -[join map]. rewrite IH by (done || lia). done.
Qed.

Lemma join_head (separator x : jsstring) (l : list jsstring) (c : N)
    (t : jsstring) :
  x = c :: t -> exists t', join separator (x :: l) = c :: t'.
Proof. intros ->. destruct l; cbn; eauto. Qed.

(** With enough fuel, the parser reads a serialized plain value back and
    stops right after it. *)
Lemma parse_value_stringify (v : json) :
  plain v = true ->
  forall fuel rest,
    size v <= fuel ->
    parse_value fuel (stringify v ++ rest) = Some (v, rest).
Proof.
  induction v as [| b | literal | s | elements IH | members IH] using json_ind;
    intros Hplain fuel rest Hfuel;
    (destruct fuel as [|fuel]; [simpl in Hfuel; lia|]).
  - by eval_literals.
  - destruct b; by eval_literals.
  - done.
  - cbn [stringify]. unfold quote. cbn [app].
    rewrite parse_value_unfold by done. eval_literals. cbn.
    rewrite <- app_assoc. cbn [app].
    change 34%N with QUOTE. by rewrite parse_chars_quote_units.
  - cbn [stringify plain size] in *. cbn [app].
    rewrite parse_value_unfold by done. eval_literals. cbn -[join map].
    rewrite <- app_assoc. cbn [app].
    destruct elements as [|v elements]; [done|].
    apply Forall_cons in IH as [IHv IHl].
    assert (Hpv : plain v = true).
    { cbn [forallb] in Hplain. by apply andb_true_iff in Hplain as [? _]. }
    destruct (stringify_head v Hpv) as (c & t & Hhead & Hws & Hclose).
    destruct (join_head [44%N] (stringify v) (map stringify elements) c t Hhead)
      as [t' Hjoin].
    cbn [map]. rewrite Hjoin. cbn [app]. rewrite skip_ws_not_ws by done.
    eval_literals. rewrite Hclose.
    change (c :: t' ++ 93%N :: rest) with ((c :: t') ++ 93%N :: rest).
    rewrite <- Hjoin.
    change (stringify v :: map stringify elements)
      with (map stringify (v :: elements)).
    pose proof (parse_elements_stringify (v :: elements)) as Hel.
    eval_literals. rewrite Hel; [done | by constructor | done | done |].
    apply le_S_n, Hfuel.
  - cbn [stringify plain size] in *. cbn [app].
    apply andb_true_iff in Hplain as [Hnodup Hplain].
    apply bool_decide_eq_true in Hnodup.
    rewrite parse_value_unfold by done. eval_literals. cbn -[join map].
    rewrite <- app_assoc. cbn [app].
    destruct members as [|[k v] members]; [done|].
    cbn [map].
    destruct (join_head [44%N] (stringify_member stringify (k, v))
                (map (stringify_member stringify) members) 34%N
                ((quote_units k ++ [QUOTE]) ++ ch ":" :: stringify v) eq_refl)
      as [t' Hjoin].
    rewrite Hjoin. cbn [app]. rewrite skip_ws_not_ws by done.
    change (34 =? 125)%N with false. cbn iota.
    change (34%N :: t' ++ 125%N :: rest) with ((34%N :: t') ++ 125%N :: rest).
    rewrite <- Hjoin.
    pose proof (parse_members_stringify ((k, v) :: members)) as Hmem.
    cbn [map] in Hmem.
    eval_literals. rewrite Hmem; [| done | done | done |].
    + cbn -[make_object]. by rewrite make_object_NoDup.
    + apply le_S_n, Hfuel.
Qed.

(** *** Whole texts *)

Lemma list_sum_map_le {A} (f g : A -> nat) (l : list A) :
  Forall (fun x => f x <= g x) l ->
  list_sum (map f l) <= list_sum (map g l).
Proof. induction 1; simpl; lia. Qed.

Lemma Forall_forallb_impl {A} (f : A -> bool) (P : A -> Prop) (l : list A) :
  Forall (fun x => f x = true -> P x) l -> forallb f l = true -> Forall P l.
Proof.
  induction 1 as [|x l Hx _ IH]; intros Hf; [done|].
  cbn [forallb] in Hf. apply andb_true_iff in Hf as [Hfx Hfl].
  constructor; auto.
Qed.

Lemma length_join_ge (separator : N) (l : list jsstring) :
  list_sum (map (fun x => S (length x)) l) <= S (length (join [separator] l)).
Proof.
  induction l as [|x [|y l] IH]; [simpl; lia | simpl; lia |].
  change (join [separator] (x :: y :: l))
    with (x ++ [separator] ++ join [separator] (y :: l)).
  rewrite !length_app. simpl in *. lia.
Qed.

(** A serialized plain value is at least as long as the fuel it takes. *)
Lemma size_le_length (v : json) :
  plain v = true -> size v <= length (stringify v).
Proof.
  induction v as [| b | literal | s | elements IH | members IH] using json_ind;
    intros Hplain.
  - cbn. lia.
  - destruct b; cbn; lia.
  - done.
  - cbn [stringify size]. unfold quote. cbn [length]. lia.
  - cbn [stringify size plain] in *. cbn [length]. rewrite length_app.
    pose proof (length_join_ge (ch ",") (map stringify elements)) as Hj.
    rewrite map_map in Hj.
    enough (list_sum (map (fun e => S (size e)) elements)
            <= list_sum (map (fun x => S (length (stringify x))) elements))
      by (cbn [length]; lia).
    apply list_sum_map_le.
    eapply Forall_impl; [exact (Forall_forallb_impl _ _ _ IH Hplain)|].
    intros e He. simpl in *. lia.
  - cbn [stringify size plain] in *. cbn [length]. rewrite length_app.
    apply andb_true_iff in Hplain as [_ Hplain].
    pose proof (length_join_ge (ch ",")
                  (map (stringify_member stringify) members)) as Hj.
    rewrite map_map in Hj.
    enough (list_sum (map (fun m => S (size m.2)) members)
            <= list_sum
                 (map (fun x => S (length (stringify_member stringify x)))
                    members))
      by (cbn [length]; lia).
    apply list_sum_map_le.
    eapply Forall_impl;
      [exact (Forall_forallb_impl (fun m => plain m.2) _ _ IH Hplain)|].
    intros [k e] He. simpl in *.
    unfold stringify_member. rewrite length_app. simpl. lia.
Qed.

(** [JSON.parse(JSON.stringify(v))] is [v], for a plain value. *)
Lemma parse_text_stringify (v : json) :
  plain v = true -> parse_text (stringify v) = Some v.
Proof.
  intros Hplain. unfold parse_text.
  pose proof (size_le_length v Hplain) as Hsize.
  pose proof (parse_value_stringify v Hplain
                (2 * length (stringify v) + 1) [] ltac:(lia)) as Hparse.
  rewrite app_nil_r in Hparse. by rewrite Hparse.
Qed.




(** *** The fuel of [parse_text] is enough

    More fuel never changes a result, and a value that is read with some
    fuel is read with the fuel [parse_text] gives: [None] is a text that
    the grammar rejects. *)

Lemma skip_ws_length (s : jsstring) : length (skip_ws s) <= length s.
Proof.
  induction s as [|c s IH]; [done|].
  cbn. destruct (is_json_ws c); cbn; lia.
Qed.

Lemma parse_chars_shorter (s t rest : jsstring) :
  parse_chars s = Some (t, rest) -> length rest < length s.
Proof.
  remember (length s) as n eqn:Hn. revert s Hn t rest.
  induction n as [n IH] using lt_wf_ind. intros s -> t rest.
  assert (IH' : forall s' t' rest',
            length s' < length s ->
            parse_chars s' = Some (t', rest') -> length rest' < length s')
    by (intros s' t' rest' Hlt; by apply (IH (length s') Hlt s')).
  clear IH. rename IH' into IH.
  destruct s as [|c r]; [done|]. cbn [parse_chars].
  destruct (c =? QUOTE)%N; [intros [= <- <-]; cbn; lia|].
  destruct (c =? BACKSLASH)%N.
  - destruct r as [|e r1]; [done|].
    destruct (e =? ch "u")%N.
    + destruct r1 as [|a [|b [|c' [|d r2]]]]; try done.
      destruct (hex_val a), (hex_val b), (hex_val c'), (hex_val d); try done.
      destruct (parse_chars r2) as [[u rest']|] eqn:E; [|done].
      intros [= <- <-]. apply IH in E; cbn in *; lia.
    + destruct (unescape e); [|done].
      destruct (parse_chars r1) as [[u rest']|] eqn:E; [|done].
      intros [= <- <-]. apply IH in E; cbn in *; lia.
  - destruct (c <? 32)%N; [done|].
    destruct (parse_chars r) as [[u rest']|] eqn:E; [|done].
    intros [= <- <-]. apply IH in E; cbn in *; lia.
Qed.

Lemma take_digits_length (s d rest : jsstring) :
  take_digits s = (d, rest) -> length rest <= length s.
Proof.
  revert d rest. induction s as [|c s IH]; intros d rest.
  - intros [= <- <-]. done.
  - cbn. destruct (is_digit c).
    + destruct (take_digits s) as [d' rest'] eqn:E.
      intros [= <- <-]. specialize (IH _ _ eq_refl). cbn. lia.
    + intros [= <- <-]. done.
Qed.

Lemma parse_number_shorter (s literal rest : jsstring) :
  parse_number s = Some (literal, rest) -> length rest < length s.
Proof.
  unfold parse_number.
  set (signed := match s with
                 | c :: r => if (c =? ch "-")%N then ([c], r) else ([], s)
                 | [] => ([], [])
                 end).
  assert (Hsigned : length signed.2 <= length s).
  { subst signed. destruct s as [|c r]; [done|].
    destruct (c =? ch "-")%N; cbn; lia. }
  destruct signed as [sign r0]. cbn [snd] in Hsigned.
  intros H. apply bind_Some in H as ([i r1] & Hint & H).
  apply bind_Some in H as ([f r2] & Hfrac & H).
  apply bind_Some in H as ([e r3] & Hexp & H).
  injection H as <- <-.
  assert (length r1 < length r0).
  { unfold parse_int in Hint. destruct r0 as [|c r]; [done|].
    destruct (c =? ch "0")%N; [injection Hint as <- <-; cbn; lia|].
    destruct (between 49 57 c); [|done].
    destruct (take_digits r) as [d rest'] eqn:E. injection Hint as <- <-.
    apply take_digits_length in E. cbn. lia. }
  assert (length r2 <= length r1).
  { unfold parse_frac in Hfrac.
    destruct r1 as [|c r]; [by injection Hfrac as <- <-|].
    destruct (c =? ch ".")%N; [|by injection Hfrac as <- <-].
    destruct (take_digits r) as [[|d0 d] rest'] eqn:E; [done|].
    injection Hfrac as <- <-. apply take_digits_length in E. cbn. lia. }
  assert (length r3 <= length r2).
  { unfold parse_exp in Hexp.
    destruct r2 as [|c r]; [by injection Hexp as <- <-|].
    destruct ((c =? ch "e")%N || (c =? ch "E")%N);
      [|by injection Hexp as <- <-].
    destruct (parse_sign r) as [sg r'] eqn:Esign.
    assert (length r' <= length r).
    { unfold parse_sign in Esign.
      destruct r as [|x r'']; [by injection Esign as <- <-|].
      destruct ((x =? ch "+")%N || (x =? ch "-")%N);
        injection Esign as <- <-; cbn; lia. }
    destruct (take_digits r') as [[|d0 d] rest'] eqn:E; [done|].
    injection Hexp as <- <-. apply take_digits_length in E. cbn. lia. }
  lia.
Qed.

Lemma expect_length (word s rest : jsstring) :
  expect word s = Some rest -> length rest <= length s.
Proof.
  unfold expect. destruct (startsWith word s); [|done].
  intros [= <-]. rewrite length_drop. lia.
Qed.

Lemma parse_fuel_mono (fuel : nat) :
  (forall s x fuel', fuel <= fuel' ->
     parse_value fuel s = Some x -> parse_value fuel' s = Some x)
  /\ (forall s x fuel', fuel <= fuel' ->
        parse_elements fuel s = Some x -> parse_elements fuel' s = Some x)
  /\ (forall s x fuel', fuel <= fuel' ->
        parse_members fuel s = Some x -> parse_members fuel' s = Some x).
Proof.
  induction fuel as [|fuel (IHv & IHe & IHm)]; [done|].
  split; [|split]; intros s x fuel' Hle H;
    (destruct fuel' as [|fuel']; [lia|]); apply le_S_n in Hle.
  - cbn [parse_value] in *. destruct (skip_ws s) as [|c r]; [done|].
    destruct (c =? ch "[")%N.
    { destruct (skip_ws r) as [|c' r']; [done|].
      destruct (c' =? ch "]")%N; [done|].
      destruct (parse_elements fuel r) as [x'|] eqn:E;
        [|by cbn [mbind option_bind] in H].
      by rewrite (IHe _ _ _ Hle E). }
    destruct (c =? ch "{")%N; [|done].
    destruct (skip_ws r) as [|c' r']; [done|].
    destruct (c' =? ch "}")%N; [done|].
    destruct (parse_members fuel r) as [x'|] eqn:E;
      [|by cbn [mbind option_bind] in H].
    by rewrite (IHm _ _ _ Hle E).
  - rewrite parse_elements_unfold in *.
    destruct (parse_value fuel s) as [[v r]|] eqn:E;
      [|by cbn [mbind option_bind] in H].
    rewrite (IHv _ _ _ Hle E). cbn [mbind option_bind] in *.
    destruct (skip_ws r) as [|c r1]; [done|].
    destruct (c =? ch ",")%N; [|done].
    destruct (parse_elements fuel r1) as [x'|] eqn:E';
      [|by cbn [mbind option_bind] in H].
    by rewrite (IHe _ _ _ Hle E').
  - cbn [parse_members] in *. destruct (skip_ws s) as [|c r]; [done|].
    destruct (c =? QUOTE)%N; [|done].
    destruct (parse_chars r) as [[k r1]|]; [|done].
    cbn [mbind option_bind] in *.
    destruct (skip_ws r1) as [|c1 r2]; [done|].
    destruct (c1 =? ch ":")%N; [|done].
    destruct (parse_value fuel r2) as [[v r3]|] eqn:E;
      [|by cbn [mbind option_bind] in H].
    rewrite (IHv _ _ _ Hle E). cbn [mbind option_bind] in *.
    destruct (skip_ws r3) as [|c3 r4]; [done|].
    destruct (c3 =? ch ",")%N; [|done].
    destruct (parse_members fuel r4) as [x'|] eqn:E';
      [|by cbn [mbind option_bind] in H].
    by rewrite (IHm _ _ _ Hle E').
Qed.

Lemma skip_ws_cons_length (s t : jsstring) (c : N) :
  skip_ws s = c :: t -> length t < length s.
Proof.
  intros H. pose proof (skip_ws_length s) as Hlen.
  rewrite H in Hlen. cbn in Hlen. lia.
Qed.

Lemma parse_fuel_enough (fuel : nat) :
  (forall s v r, parse_value fuel s = Some (v, r) ->
     length r < length s
     /\ parse_value (S (2 * length s)) s = Some (v, r))
  /\ (forall s vs r, parse_elements fuel s = Some (vs, r) ->
        length r < length s
        /\ parse_elements (S (S (2 * length s))) s = Some (vs, r))
  /\ (forall s ms r, parse_members fuel s = Some (ms, r) ->
        length r < length s
        /\ parse_members (S (2 * length s)) s = Some (ms, r)).
Proof.
  induction fuel as [|fuel (IHv & IHe & IHm)]; [done|].
  split; [|split].
  - intros s v r H. cbn [parse_value] in *.
    destruct (skip_ws s) as [|c t] eqn:Hs; [done|].
    apply skip_ws_cons_length in Hs.
    destruct (c =? ch "[")%N.
    { destruct (skip_ws t) as [|c' r'] eqn:Ht; [done|].
      apply skip_ws_cons_length in Ht.
      destruct (c' =? ch "]")%N; [injection H as <- <-; split; [lia|done]|].
      destruct (parse_elements fuel t) as [[vs r1]|] eqn:E;
        [|by cbn [mbind option_bind] in H].
      apply IHe in E as [Hlen E].
      destruct (parse_fuel_mono (S (S (2 * length t)))) as (_ & Hmono & _).
      rewrite (Hmono _ _ (2 * length s) ltac:(lia) E).
      cbn [mbind option_bind] in *. injection H as <- <-.
      split; [lia|done]. }
    destruct (c =? ch "{")%N.
    { destruct (skip_ws t) as [|c' r'] eqn:Ht; [done|].
      apply skip_ws_cons_length in Ht.
      destruct (c' =? ch "}")%N; [injection H as <- <-; split; [lia|done]|].
      destruct (parse_members fuel t) as [[ms r1]|] eqn:E;
        [|by cbn [mbind option_bind] in H].
      apply IHm in E as [Hlen E].
      destruct (parse_fuel_mono (S (2 * length t))) as (_ & _ & Hmono).
      rewrite (Hmono _ _ (2 * length s) ltac:(lia) E).
      cbn [mbind option_bind] in *. injection H as <- <-.
      split; [lia|done]. }
    split; [|done].
    destruct (c =? QUOTE)%N.
    { apply bind_Some in H as ([str r1] & Hchars & [= <- <-]).
      apply parse_chars_shorter in Hchars. lia. }
    destruct (c =? ch "t")%N.
    { apply bind_Some in H as (r1 & Hexpect & [= <- <-]).
      apply expect_length in Hexpect. lia. }
    destruct (c =? ch "f")%N.
    { apply bind_Some in H as (r1 & Hexpect & [= <- <-]).
      apply expect_length in Hexpect. lia. }
    destruct (c =? ch "n")%N.
    { apply bind_Some in H as (r1 & Hexpect & [= <- <-]).
      apply expect_length in Hexpect. lia. }
    apply bind_Some in H as ([literal r1] & Hnumber & [= <- <-]).
    apply parse_number_shorter in Hnumber. cbn in Hnumber. lia.
  - intros s vs r H. rewrite parse_elements_unfold in *.
    destruct (parse_value fuel s) as [[v r0]|] eqn:E;
      [|by cbn [mbind option_bind] in H].
    apply IHv in E as [Hlen E]. rewrite E.
    cbn [mbind option_bind] in *.
    destruct (skip_ws r0) as [|c r1] eqn:Hr0; [done|].
    apply skip_ws_cons_length in Hr0.
    destruct (c =? ch ",")%N.
    + destruct (parse_elements fuel r1) as [[vs' r2]|] eqn:E';
        [|by cbn [mbind option_bind] in H].
      apply IHe in E' as [Hlen' E'].
      destruct (parse_fuel_mono (S (S (2 * length r1)))) as (_ & Hmono & _).
      rewrite (Hmono _ _ (S (2 * length s)) ltac:(lia) E').
      cbn [mbind option_bind] in *. injection H as <- <-.
      split; [lia|done].
    + destruct (c =? ch "]")%N; [|done].
      injection H as <- <-. split; [lia|done].
  - intros s ms r H. cbn [parse_members] in *.
    destruct (skip_ws s) as [|c t] eqn:Hs; [done|].
    apply skip_ws_cons_length in Hs.
    destruct (c =? QUOTE)%N; [|done].
    destruct (parse_chars t) as [[k r1]|] eqn:Hchars; [|done].
    apply parse_chars_shorter in Hchars.
    cbn [mbind option_bind] in *.
    destruct (skip_ws r1) as [|c1 r2] eqn:Hr1; [done|].
    apply skip_ws_cons_length in Hr1.
    destruct (c1 =? ch ":")%N; [|done].
    destruct (parse_value fuel r2) as [[v r3]|] eqn:E;
      [|by cbn [mbind option_bind] in H].
    apply IHv in E as [Hlen E].
    destruct (parse_fuel_mono (S (2 * length r2))) as (Hmono & _ & _).
    rewrite (Hmono _ _ (2 * length s) ltac:(lia) E).
    cbn [mbind option_bind] in *.
    destruct (skip_ws r3) as [|c3 r4] eqn:Hr3; [done|].
    apply skip_ws_cons_length in Hr3.
    destruct (c3 =? ch ",")%N.
    + destruct (parse_members fuel r4) as [[ms' r5]|] eqn:E';
        [|by cbn [mbind option_bind] in H].
      apply IHm in E' as [Hlen' E'].
      destruct (parse_fuel_mono (S (2 * length r4))) as (_ & _ & Hmono').
      rewrite (Hmono' _ _ (2 * length s) ltac:(lia) E').
      cbn [mbind option_bind] in *. injection H as <- <-.
      split; [lia|done].
    + destruct (c3 =? ch "}")%N; [|done].
      injection H as <- <-. split; [lia|done].
Qed.

(** A text that [parse_text] rejects is read with no amount of fuel. *)
Lemma parse_text_complete (text : jsstring) (fuel : nat) (v : json)
    (r : jsstring) :
  parse_value fuel text = Some (v, r) ->
  skip_ws r = [] ->
  parse_text text = Some v.
Proof.
  intros Hparse Hrest. unfold parse_text.
  destruct (parse_fuel_enough fuel) as (Henough & _ & _).
  apply Henough in Hparse as [_ Hparse].
  replace (2 * length text + 1) with (S (2 * length text)) by lia.
  rewrite Hparse. cbn [mbind option_bind]. by rewrite Hrest.
Qed.

End JsonRoundTrip.

(** ** Persistence and snapshots *)

Section Persistence.

Variable syntax_error_message : jsstring -> jsstring.

Implicit Types (voiceName timestamp key : jsstring) (localStorage : Storage).

(** *** The order of [sort] *)

Lemma str_leb_refl (a : jsstring) : str_leb a a = true.
Proof.
  induction a as [|x a IH]; [done|].
  cbn. by rewrite N.eqb_refl, IH, orb_true_r.
Qed.

#[local] Instance str_le_total : Total str_le.
Proof.
  unfold Total, str_le. intros a. induction a as [|x a IH]; intros [|y b];
    cbn; auto.
  destruct (N.ltb_spec x y); [by left|].
  destruct (N.ltb_spec y x); [by right|].
  assert (x = y) as -> by lia. rewrite N.eqb_refl. cbn.
  apply IH.
Qed.

#[local] Instance str_le_trans : Transitive str_le.
Proof.
  unfold Transitive, str_le. intros a.
  induction a as [|x a IH]; intros [|y b] [|z c]; cbn; try done.
  intros Hab Hbc.
  apply orb_true_iff in Hab as [Hxy|Hab];
    apply orb_true_iff in Hbc as [Hyz|Hbc].
  - apply N.ltb_lt in Hxy, Hyz. apply orb_true_iff. left.
    apply N.ltb_lt. lia.
  - apply andb_true_iff in Hbc as [Hyz Hbc]. apply N.eqb_eq in Hyz as ->.
    by rewrite Hxy.
  - apply andb_true_iff in Hab as [Hxy Hab]. apply N.eqb_eq in Hxy as ->.
    by rewrite Hyz.
  - apply andb_true_iff in Hab as [Hxy Hab]. apply N.eqb_eq in Hxy as ->.
    apply andb_true_iff in Hbc as [Hyz Hbc]. apply N.eqb_eq in Hyz as ->.
    rewrite N.eqb_refl, (IH b c) by done. by rewrite orb_true_r.
Qed.

#[local] Instance str_le_antisymm : AntiSymm (=) str_le.
Proof.
  unfold AntiSymm, str_le. intros a.
  induction a as [|x a IH]; intros [|y b]; cbn; try done.
  intros Hab Hba.
  apply orb_true_iff in Hab as [Hxy|Hab];
    apply orb_true_iff in Hba as [Hyx|Hba].
  - apply N.ltb_lt in Hxy, Hyx. lia.
  - apply andb_true_iff in Hba as [Hyx _]. apply N.eqb_eq in Hyx.
    apply N.ltb_lt in Hxy. lia.
  - apply andb_true_iff in Hab as [Hxy _]. apply N.eqb_eq in Hxy.
    apply N.ltb_lt in Hyx. lia.
  - apply andb_true_iff in Hab as [Hxy Hab]. apply N.eqb_eq in Hxy as ->.
    apply andb_true_iff in Hba as [_ Hba]. f_equal. by apply IH.
Qed.

(** The last element of a sorted array is its greatest. *)
Lemma sort_last_greatest (l : list jsstring) (x y : jsstring) :
  last (sort l) = Some x -> y ∈ l -> str_le y x.
Proof.
  unfold sort. intros Hlast Hy.
  apply last_Some in Hlast as [l' Hl'].
  pose proof (StronglySorted_merge_sort str_le l) as Hsorted.
  rewrite Hl' in Hsorted.
  assert (Hin : y ∈ l' ++ [x]).
  { rewrite <- Hl'. by rewrite merge_sort_Permutation. }
  apply elem_of_app in Hin as [Hin|Hin].
  - apply (StronglySorted_app_1_elem_of str_le l' [x]); [done | done |].
    by apply list_elem_of_singleton.
  - apply list_elem_of_singleton in Hin as ->. apply str_leb_refl.
Qed.

(** *** Keys *)

Lemma startsWith_app (prefix t : jsstring) :
  startsWith prefix (prefix ++ t) = true.
Proof.
  induction prefix as [|p prefix IH]; [done|].
  cbn. by rewrite N.eqb_refl, IH.
Qed.

Lemma startsWith_inv (prefix s : jsstring) :
  startsWith prefix s = true -> s = prefix ++ drop (length prefix) s.
Proof.
  revert s. induction prefix as [|p prefix IH]; intros [|c s]; cbn; try done.
  intros H. apply andb_true_iff in H as [Hp H].
  apply N.eqb_eq in Hp as ->. f_equal. by apply IH.
Qed.

Lemma replace_prefix (prefix t : jsstring) :
  replace prefix [] (prefix ++ t) = t.
Proof.
  destruct (prefix ++ t) as [|c r] eqn:E.
  - apply app_eq_nil in E as [-> ->]. done.
  - cbn [replace]. rewrite <- E, startsWith_app.
    by rewrite drop_app_length.
Qed.

Lemma elem_of_keys key localStorage :
  key ∈ keys localStorage <-> is_Some (localStorage !! key).
Proof.
  unfold keys. rewrite list_elem_of_fmap. split.
  - intros ([k v] & -> & Hin). apply elem_of_map_to_list in Hin. by eauto.
  - intros [v Hv]. exists (key, v). split; [done|].
    by apply elem_of_map_to_list.
Qed.

Lemma memoryKey_inj voiceName t t' :
  memoryKey voiceName t = memoryKey voiceName t' -> t = t'.
Proof. unfold memoryKey. apply app_inv_head. Qed.

(** The live key of a voice is none of its snapshot slots. *)
Lemma memoryKey_not_live voiceName t :
  memoryKey voiceName t <> getStorageKey voiceName.
Proof.
  unfold memoryKey, memoryPrefix, getStorageKey. intros H.
  apply (f_equal length) in H. rewrite !length_app in H.
  change (length (u16 "_memory_")) with 8 in H. lia.
Qed.

(** [getMemoryList] lists exactly the timestamps of the slots present. *)
Lemma elem_of_getMemoryList voiceName localStorage t :
  t ∈ getMemoryList voiceName localStorage
  <-> is_Some (localStorage !! memoryKey voiceName t).
Proof.
  unfold getMemoryList, sort.
  rewrite elem_of_reverse, merge_sort_Permutation, list_elem_of_omap.
  split.
  - intros (key & Hkey & Ht).
    destruct (truthy (Some key) && startsWith (memoryPrefix voiceName) key)
      eqn:Hcond; [|done].
    apply andb_true_iff in Hcond as [_ Hstarts].
    apply startsWith_inv in Hstarts.
    injection Ht as <-. rewrite Hstarts at 1. rewrite replace_prefix.
    apply elem_of_keys in Hkey. unfold memoryKey. by rewrite <- Hstarts.
  - intros Hsome. exists (memoryKey voiceName t). split.
    + by apply elem_of_keys.
    + unfold memoryKey. rewrite startsWith_app, replace_prefix. done.
Qed.

Lemma NoDup_omap_inj {A B} (f : A -> option B) (l : list A) :
  NoDup l ->
  (forall x y z, x ∈ l -> y ∈ l -> f x = Some z -> f y = Some z -> x = y) ->
  NoDup (omap f l).
Proof.
  induction 1 as [|x l Hx Hl IH]; intros Hinj; [constructor|].
  cbn [omap list_omap]. destruct (f x) as [z|] eqn:Hfx.
  - constructor.
    + rewrite list_elem_of_omap. intros (y & Hy & Hfy).
      apply Hx. rewrite (Hinj x y z); [done | by left | by right | done | done].
    + apply IH. intros a b c Ha Hb. apply Hinj; by right.
  - apply IH. intros a b c Ha Hb. apply Hinj; by right.
Qed.

(** The list depends on the slots present only. *)
Lemma getMemoryList_ext voiceName localStorage localStorage' :
  (forall t, is_Some (localStorage !! memoryKey voiceName t)
             <-> is_Some (localStorage' !! memoryKey voiceName t)) ->
  getMemoryList voiceName localStorage = getMemoryList voiceName localStorage'.
Proof.
  intros Hslots.
  assert (Hnodup : forall st : Storage,
    NoDup (omap (fun key =>
                   if truthy (Some key)
                      && startsWith (memoryPrefix voiceName) key
                   then Some (replace (memoryPrefix voiceName) [] key)
                   else None) (keys st))).
  { intros st. apply NoDup_omap_inj; [apply NoDup_fst_map_to_list|].
    assert (Hkey : forall x z,
      (if truthy (Some x) && startsWith (memoryPrefix voiceName) x
       then Some (replace (memoryPrefix voiceName) [] x) else None) = Some z ->
      x = memoryKey voiceName z).
    { intros x z Hx.
      destruct (truthy (Some x) && startsWith (memoryPrefix voiceName) x)
        eqn:Hcond; [|done].
      apply andb_true_iff in Hcond as [_ Hstarts].
      apply startsWith_inv in Hstarts. injection Hx as <-.
      rewrite Hstarts at 2. rewrite replace_prefix.
      unfold memoryKey. by rewrite <- Hstarts. }
    intros x y z _ _ Hx Hy. by rewrite (Hkey x z), (Hkey y z). }
  pose proof (fun t => elem_of_getMemoryList voiceName localStorage t) as H1.
  pose proof (fun t => elem_of_getMemoryList voiceName localStorage' t) as H2.
  unfold getMemoryList in *. f_equal.
  apply (Sorted_unique str_le); [apply Sorted_merge_sort; apply _
                               | apply Sorted_merge_sort; apply _ |].
  unfold sort. rewrite !merge_sort_Permutation.
  apply NoDup_Permutation; [apply Hnodup | apply Hnodup |].
  intros t. specialize (H1 t). specialize (H2 t).
  unfold sort in *.
  rewrite elem_of_reverse, merge_sort_Permutation in H1, H2.
  rewrite H1, H2. apply Hslots.
Qed.

Lemma truthy_Some_ne (s : jsstring) : truthy (Some s) = true <-> s <> [].
Proof. destruct s; cbn; split; done. Qed.

(** [loadChatHistory] reads the live key only. *)
Lemma loadChatHistory_ext voiceName localStorage localStorage' :
  getItem (getStorageKey voiceName) localStorage
  = getItem (getStorageKey voiceName) localStorage' ->
  loadChatHistory syntax_error_message voiceName localStorage
  = loadChatHistory syntax_error_message voiceName localStorage'.
Proof. unfold loadChatHistory. by intros ->. Qed.

(** [loadMemory] writes the live key only. *)
Lemma loadMemory_other voiceName timestamp localStorage key :
  key <> getStorageKey voiceName ->
  getItem key (loadMemory voiceName timestamp localStorage)
  = getItem key localStorage.
Proof.
  intros Hne. unfold loadMemory, getItem, setItem.
  destruct (truthy _); [|done]. by rewrite lookup_insert_ne.
Qed.

(** After [loadMemory], the live key holds what the slot holds. *)
Lemma loadMemory_live voiceName timestamp localStorage saved :
  getItem (memoryKey voiceName timestamp) localStorage = Some saved ->
  saved <> [] ->
  getItem (getStorageKey voiceName)
    (loadMemory voiceName timestamp localStorage) = Some saved.
Proof.
  intros Hslot Hne. unfold loadMemory. rewrite Hslot.
  rewrite (proj2 (truthy_Some_ne saved) Hne).
  unfold getItem, setItem. by rewrite lookup_insert_eq.
Qed.

Lemma saveMemory_slot voiceName timestamp localStorage current :
  getItem (getStorageKey voiceName) localStorage = Some current ->
  current <> [] ->
  saveMemory timestamp voiceName localStorage
  = <[memoryKey voiceName timestamp := current]> localStorage.
Proof.
  intros Hlive Hne. unfold saveMemory. rewrite Hlive.
  by rewrite (proj2 (truthy_Some_ne current) Hne).
Qed.





(** C7: [loadChatHistory] returns the empty array, and does not throw, when
    the key is absent, when its value is not a JSON text, and when it is
    the JSON text of something that is not an array. *)
Theorem load_absent_or_corrupt voiceName localStorage :
  getItem (getStorageKey voiceName) localStorage = None
  \/ (exists saved,
        getItem (getStorageKey voiceName) localStorage = Some saved
        /\ parse_text saved = None)
  \/ (exists saved v,
        getItem (getStorageKey voiceName) localStorage = Some saved
        /\ parse_text saved = Some v /\ isArray v = false) ->
  loadChatHistory syntax_error_message voiceName localStorage = Return [].
Proof.
  unfold loadChatHistory, JSON.parse.
  intros [-> | [(saved & -> & Hparse) | (saved & v & -> & Hparse & Harr)]].
  - done.
  - destruct saved; [done|]. cbn [truthy negb to_str]. by rewrite Hparse.
  - destruct saved; [done|]. cbn [truthy negb to_str]. rewrite Hparse.
    by destruct v.
Qed.

(** C6, as amended: when the live key of the voice holds a non-empty
    value, [saveMemory] followed by [getMemoryList] lists the new
    timestamp, and lists it first when no slot of the voice has a
    timestamp after it in the order of [sort]; [loadMemory] of that
    timestamp, as long as the slot holds what the snapshot stored,
    followed by [loadChatHistory] returns what [loadChatHistory] returned
    when the snapshot was taken; [loadMemory] of any slot with a non-empty
    content puts that content under the live key; and [loadMemory] changes
    no key but the live key of the voice, so that the slots of the voice
    and their list stay as they are. *)
Theorem snapshot_list_restore voiceName timestamp localStorage current :
  getItem (getStorageKey voiceName) localStorage = Some current ->
  current <> [] ->
  let snapshot := saveMemory timestamp voiceName localStorage in
  timestamp ∈ getMemoryList voiceName snapshot
  /\ ((forall t, t ∈ getMemoryList voiceName localStorage ->
                 str_le t timestamp) ->
      head (getMemoryList voiceName snapshot) = Some timestamp)
  /\ (forall later,
        getItem (memoryKey voiceName timestamp) later
        = getItem (memoryKey voiceName timestamp) snapshot ->
        loadChatHistory syntax_error_message voiceName
          (loadMemory voiceName timestamp later)
        = loadChatHistory syntax_error_message voiceName localStorage)
  /\ (forall later t saved,
        getItem (memoryKey voiceName t) later = Some saved ->
        saved <> [] ->
        getItem (getStorageKey voiceName) (loadMemory voiceName t later)
        = Some saved)
  /\ (forall later t key,
        key <> getStorageKey voiceName ->
        getItem key (loadMemory voiceName t later) = getItem key later)
  /\ (forall later t,
        getMemoryList voiceName (loadMemory voiceName t later)
        = getMemoryList voiceName later).
Proof.
  intros Hlive Hne snapshot. subst snapshot.
  rewrite (saveMemory_slot _ _ _ _ Hlive Hne).
  assert (Hin : timestamp ∈ getMemoryList voiceName
            (<[memoryKey voiceName timestamp := current]> localStorage)).
  { apply elem_of_getMemoryList. rewrite lookup_insert_eq. by eauto. }
  split; [done|]. split; [|split; [|split; [|split]]].
  - intros Hnewest.
    unfold getMemoryList in Hin |- *. rewrite head_reverse.
    destruct (last (sort _)) as [x|] eqn:Hlast.
    + f_equal. apply (anti_symm str_le).
      * assert (Hx : x ∈ getMemoryList voiceName
                  (<[memoryKey voiceName timestamp := current]> localStorage)).
        { unfold getMemoryList. apply elem_of_reverse.
          by eapply last_Some_elem_of. }
        apply elem_of_getMemoryList in Hx.
        destruct (decide (x = timestamp)) as [->|Hxt]; [apply str_leb_refl|].
        rewrite lookup_insert_ne in Hx
          by (intros Heq; by apply memoryKey_inj in Heq).
        apply Hnewest. by apply elem_of_getMemoryList.
      * eapply sort_last_greatest; [exact Hlast|].
        rewrite elem_of_reverse in Hin. unfold sort in Hin.
        by rewrite merge_sort_Permutation in Hin.
    + apply last_None in Hlast. rewrite Hlast in Hin.
      by apply elem_of_nil in Hin.
  - intros later Hslot. apply loadChatHistory_ext.
    unfold getItem in Hslot. rewrite lookup_insert_eq in Hslot.
    rewrite (loadMemory_live _ _ _ current) by done. by rewrite Hlive.
  - intros later t saved Hslot Hsaved. by apply loadMemory_live.
  - intros later t key Hkey. by apply loadMemory_other.
  - intros later t. apply getMemoryList_ext. intros t'.
    pose proof (loadMemory_other voiceName t later (memoryKey voiceName t')
                  (memoryKey_not_live _ _)) as Hsame.
    unfold getItem in Hsame. by rewrite Hsame.
Qed.

End Persistence.

(** ** The tool dispatcher *)

Section Dispatcher.

Import Tools.

Variable syntax_error_message : jsstring -> jsstring.
Variables getWeather getCoordinates : json -> completion jsvalue.
Variables getNews getNewsSources : jsstring -> json -> completion jsvalue.
Variables getWeather' getCoordinates' getNews' getNewsSources'
  : json -> completion jsvalue.
Variable call_inherited : jsstring -> json -> completion jsvalue.

Local Abbreviation dispatch :=
  (Tools.handleToolCall syntax_error_message getWeather getCoordinates
     getNews getNewsSources).
Local Abbreviation dispatch_registry :=
  (ToolsRegistry.handleToolCall syntax_error_message getWeather'
     getCoordinates' getNews' getNewsSources' call_inherited).

Lemma on_failure_returned (e : exn) : returned (on_failure e).
Proof. destruct e; by eexists. Qed.

Lemma try_catch_on_failure_returned (body : completion jsvalue) :
  returned (try_catch body on_failure).
Proof.
  destruct body as [v|e]; [by eexists|]. apply on_failure_returned.
Qed.

(** Whatever the tools do, the promise of [handleToolCall] is fulfilled. *)
Lemma handleToolCall_returned call backendServerUrl :
  returned (dispatch call backendServerUrl).
Proof. apply try_catch_on_failure_returned. Qed.

Lemma handleToolCall_registry_returned call :
  returned (dispatch_registry call).
Proof.
  unfold ToolsRegistry.handleToolCall.
  destruct (ToolsRegistry.toolFunctions _ _ _ _ _ _);
    [apply try_catch_on_failure_returned | by eexists].
Qed.

Lemma str_eqb_false_of_not_elem (name x : jsstring) (l : list jsstring) :
  name ∉ l -> x ∈ l -> str_eqb name x = false.
Proof.
  intros Hnot Hin. unfold str_eqb. apply bool_decide_eq_false.
  intros ->. done.
Qed.

Lemma handleToolCall_unknown call backendServerUrl args :
  call_name call ∉ tool_names ->
  parse_text (arguments_or_default (call_arguments call)) = Some args ->
  dispatch call backendServerUrl = Return (unknown_function (call_name call)).
Proof.
  intros Hname Hparse. unfold Tools.handleToolCall, JSON.parse.
  rewrite Hparse. cbn [bind try_catch].
  rewrite !(str_eqb_false_of_not_elem _ _ tool_names Hname);
    [done | | | |]; unfold tool_names; set_solver.
Qed.

Lemma handleToolCall_syntax_error call backendServerUrl :
  parse_text (arguments_or_default (call_arguments call)) = None ->
  dispatch call backendServerUrl
  = Return (error_result
              (syntax_error_message
                 (arguments_or_default (call_arguments call)))).
Proof.
  intros Hparse. unfold Tools.handleToolCall, JSON.parse.
  by rewrite Hparse.
Qed.

Lemma arguments_or_default_nonempty (arguments : jsstring) :
  arguments <> [] -> arguments_or_default arguments = arguments.
Proof. by destruct arguments. Qed.

(** C3, as amended: whatever the tools do, [handleToolCall] returns a
    value and throws nothing, in the dispatcher with the [switch] and in
    the one with the table. In the dispatcher with the [switch], a name
    that is none of the four tools yields an error result, and arguments
    that are not empty and not a JSON text yield the error result with the
    message of the parse failure; empty arguments are read as ["{}"]. In
    the dispatcher with the table, a name that is neither a tool nor a
    property inherited from [Object.prototype] yields the error result for
    an unknown function, before the arguments are read, and arguments of
    a tool that are not empty and not a JSON text yield the error result
    with the message of the parse failure. *)
Theorem handleToolCall_contract call backendServerUrl :
  returned (dispatch call backendServerUrl)
  /\ returned (dispatch_registry call)
  /\ (call_name call ∉ tool_names ->
      exists message,
        dispatch call backendServerUrl = Return (error_result message))
  /\ (call_arguments call <> [] ->
      parse_text (call_arguments call) = None ->
      dispatch call backendServerUrl
      = Return (error_result (syntax_error_message (call_arguments call))))
  /\ (call_name call ∉ tool_names ->
      call_arguments call = [] \/ is_Some (parse_text (call_arguments call)) ->
      dispatch call backendServerUrl
      = Return (unknown_function (call_name call)))
  /\ (call_name call ∉ tool_names ->
      call_name call ∉ ToolsRegistry.Object_prototype_names ->
      dispatch_registry call = Return (unknown_function (call_name call)))
  /\ (call_name call ∈ tool_names ->
      call_arguments call <> [] ->
      parse_text (call_arguments call) = None ->
      dispatch_registry call
      = Return (error_result (syntax_error_message (call_arguments call)))).
Proof.
  split; [apply handleToolCall_returned|].
  split; [apply handleToolCall_registry_returned|].
  split; [|split; [|split; [|split]]].
  - intros Hname.
    destruct (parse_text (arguments_or_default (call_arguments call)))
      as [args|] eqn:Hparse.
    + eexists. by eapply handleToolCall_unknown.
    + eexists. by apply handleToolCall_syntax_error.
  - intros Hne Hparse.
    pose proof (handleToolCall_syntax_error call backendServerUrl) as H.
    rewrite arguments_or_default_nonempty in H by done. by apply H.
  - intros Hname [Hempty|[args Hargs]].
    + apply (handleToolCall_unknown _ _ (JObj [])); [done|].
      by rewrite Hempty.
    + apply (handleToolCall_unknown _ _ args); [done|].
      destruct (call_arguments call); [done|].
      by rewrite arguments_or_default_nonempty.
  - intros Hname Hproto. unfold ToolsRegistry.handleToolCall.
    unfold ToolsRegistry.toolFunctions.
    rewrite !(str_eqb_false_of_not_elem _ _ tool_names Hname);
      [| unfold tool_names; set_solver ..].
    by rewrite bool_decide_eq_false_2.
  - intros Hname Hne Hparse. unfold ToolsRegistry.handleToolCall.
    assert (Hfound : is_Some (ToolsRegistry.toolFunctions getWeather'
              getCoordinates' getNews' getNewsSources' call_inherited
              (call_name call))).
    { unfold ToolsRegistry.toolFunctions, str_eqb, tool_names in *.
      repeat (apply elem_of_cons in Hname as [->|Hname]; [by eexists|]).
      by apply elem_of_nil in Hname. }
    destruct Hfound as [toolFunction ->].
    unfold JSON.parse. rewrite arguments_or_default_nonempty by done.
    by rewrite Hparse.
Qed.

End Dispatcher.

(** ** The message handlers *)

Section Handlers.

Import Tools Unmute.

Variable ErrorItem : Type.
Variable makeErrorItem : jsstring -> ErrorItem.

Local Abbreviation state := (Unmute.state ErrorItem).
Local Abbreviation on_message := (Unmute.on_message ErrorItem makeErrorItem).
Local Abbreviation step := (Unmute.step ErrorItem makeErrorItem).
Local Abbreviation run := (Unmute.run ErrorItem makeErrorItem).

Implicit Types (st : state) (call : FunctionCall) (output : list FunctionCall).

(** C8: an error envelope changes the list of errors shown to the user
    exactly when its severity is error, that is when its type is not
    ["warning"]; the message is then appended to the list. A warning is
    written to the console and leaves the list, and the rest of the state,
    as they are. *)
Theorem error_envelope_visible error_type message st :
  let st' := on_message (error_envelope error_type message) st in
  (errors _ st' <> errors _ st <-> error_type <> u16 "warning")
  /\ (error_type <> u16 "warning" ->
      errors _ st' = errors _ st ++ [makeErrorItem message])
  /\ (error_type = u16 "warning" ->
      errors _ st' = errors _ st
      /\ console _ st'
         = console _ st ++ [warn (u16 "Warning from server: " ++ message)]
      /\ rawChatHistory _ st' = rawChatHistory _ st
      /\ sent _ st' = sent _ st
      /\ pending _ st' = pending _ st).
Proof.
  cbn [Unmute.on_message]. unfold on_error, str_eqb.
  destruct (decide (error_type = u16 "warning")) as [->|Hne].
  - rewrite bool_decide_eq_true_2 by done. cbn. split; [|done].
    split; [intros H; by destruct H | done].
  - rewrite bool_decide_eq_false_2 by done. cbn. split; [|done].
    split; [done|]. intros _ H.
    apply (f_equal length) in H. rewrite length_app in H. cbn in H. lia.
Qed.

(** *** Tool calls of [response.done] *)

Lemma on_output_items output st :
  rawChatHistory _ (foldl (on_output_item ErrorItem) st output)
  = rawChatHistory _ st ++ map assistant_turn (filter is_function_call output)
  /\ pending _ (foldl (on_output_item ErrorItem) st output)
     = pending _ st ++ filter is_function_call output
  /\ errors _ (foldl (on_output_item ErrorItem) st output) = errors _ st
  /\ sent _ (foldl (on_output_item ErrorItem) st output) = sent _ st.
Proof.
  revert st. induction output as [|call output IH]; intros st.
  - cbn. by rewrite !app_nil_r.
  - cbn [foldl]. destruct (IH (on_output_item ErrorItem st call))
      as (Hh & Hp & He & Hs).
    rewrite Hh, Hp, He, Hs. unfold on_output_item, str_eqb.
    destruct (decide (is_function_call call)) as [Hcall|Hcall].
    + rewrite filter_cons_True by done.
      rewrite bool_decide_eq_true_2 by done. cbn.
      by rewrite <- !app_assoc.
    + rewrite filter_cons_False by done.
      by rewrite bool_decide_eq_false_2 by done.
Qed.

(** The history only grows. *)
Lemma step_history_grows st e st' :
  step st e st' ->
  exists more, rawChatHistory _ st' = rawChatHistory _ st ++ more.
Proof.
  intros [st0 data | st0 n call toolResult Hpending].
  - destruct data; cbn; try (by eexists); try (by exists []; rewrite app_nil_r).
    + unfold on_error. destruct (str_eqb _ _); cbn;
        by exists []; rewrite app_nil_r.
    + destruct (on_output_items output st0) as (-> & _). by eexists.
    + destruct (bool_decide _); cbn; by exists []; rewrite app_nil_r.
  - cbn. by eexists.
Qed.

Lemma run_history_grows st events st' :
  run st events st' ->
  exists more, rawChatHistory _ st' = rawChatHistory _ st ++ more.
Proof.
  induction 1 as [st | st e st1 es st2 Hstep _ [more2 IH]].
  - exists []. by rewrite app_nil_r.
  - destruct (step_history_grows _ _ _ Hstep) as [more1 H1].
    exists (more1 ++ more2). by rewrite IH, H1, app_assoc.
Qed.

(** C4: handling [response.done] appends one assistant turn for each
    [function_call] entry of the output, in the order of the entries, each
    with content [null] and the one call with its id, name and arguments;
    the calls are pending when the handler returns, and whatever happens
    next, in whatever order the tools return, the history goes on from
    these turns: every tool turn of one of the calls comes after all of
    them. *)
Theorem response_done_turns_first output st events st' :
  let calls := filter is_function_call output in
  let st1 := on_message (response_done output) st in
  run st1 events st' ->
  rawChatHistory _ st1 = rawChatHistory _ st ++ map assistant_turn calls
  /\ length (map assistant_turn calls) = length calls
  /\ Forall2 (fun call turn =>
                role turn = assistant /\ content turn = None
                /\ tool_calls turn
                   = Some [ {| tc_id := call_id call;
                               tc_function :=
                                 {| fn_name := call_name call;
                                    fn_arguments := call_arguments call |} |} ])
             calls (map assistant_turn calls)
  /\ pending _ st1 = pending _ st ++ calls
  /\ exists later,
       rawChatHistory _ st'
       = rawChatHistory _ st ++ map assistant_turn calls ++ later.
Proof.
  intros calls st1 Hrun. subst calls st1. cbn [Unmute.on_message] in *.
  destruct (on_output_items output st) as (Hh & Hp & _).
  split; [done|]. split; [by rewrite length_map|].
  split; [|split; [done|]].
  - clear. generalize (filter is_function_call output).
    intros l. induction l; cbn [map]; by constructor.
  - destruct (run_history_grows _ _ _ Hrun) as [later Hlater].
    exists later. by rewrite Hlater, Hh, app_assoc.
Qed.

End Handlers.

(** ** The upload of the memories *)

Section Upload.

Import Unmute.

Variable post_memory : jsstring -> jsstring -> jsstring -> completion response.
Variables backendServerUrl voiceName : jsstring.
Variable localStorage : Storage.

(** The content of the slot of a timestamp. *)
Local Abbreviation slot timestamp :=
  (to_str (getItem (memoryKey voiceName timestamp) localStorage)).

(** The file posted for a timestamp. *)
Local Abbreviation file timestamp :=
  (timestamp ++ u16 ".json", slot timestamp).

(** Whether the upload of a timestamp succeeds: the request completes
    with a response that is [ok]. *)
Local Abbreviation succeeds timestamp :=
  (match post_memory (memories_url backendServerUrl voiceName)
           (timestamp ++ u16 ".json") (slot timestamp) with
   | Return response => response_ok response
   | Throw _ => false
   end).

Lemma upload_one_counts (p : upload_progress) (timestamp : jsstring) :
  truthy (getItem (memoryKey voiceName timestamp) localStorage) = true ->
  upload_one post_memory backendServerUrl voiceName localStorage p timestamp
  = {| successCount := successCount p + (if succeeds timestamp then 1 else 0);
       errorCount := errorCount p + (if succeeds timestamp then 0 else 1);
       posted := posted p ++ [file timestamp] |}.
Proof.
  intros Htruthy. unfold upload_one. rewrite Htruthy.
  destruct (post_memory _ _ _) as [r|e].
  - destruct (response_ok r).
    + unfold count_success, record_post. cbn. f_equal; lia.
    + destruct (response_text r); unfold count_error, record_post; cbn;
        f_equal; lia.
  - unfold count_error, record_post. cbn. f_equal; lia.
Qed.

(** The loop goes through all the timestamps, whatever the outcome of
    each upload. *)
Lemma upload_fold_counts (memoryKeys : list jsstring) (p : upload_progress) :
  Forall (fun t => truthy (getItem (memoryKey voiceName t) localStorage) = true)
    memoryKeys ->
  foldl (upload_one post_memory backendServerUrl voiceName localStorage)
    p memoryKeys
  = {| successCount :=
         successCount p
         + length (filter (fun t => succeeds t = true) memoryKeys);
       errorCount :=
         errorCount p
         + length (filter (fun t => succeeds t = false) memoryKeys);
       posted := posted p ++ map (fun t => file t) memoryKeys |}.
Proof.
  revert p. induction memoryKeys as [|t l IH]; intros p Hall.
  - destruct p. cbn. rewrite app_nil_r. f_equal; lia.
  - apply Forall_cons in Hall as [Ht Hall]. cbn [foldl].
    rewrite IH by done. rewrite upload_one_counts by done.
    cbn [successCount errorCount posted map].
    destruct (succeeds t) eqn:Hs.
    + rewrite (filter_cons_True (fun t => succeeds t = true)) by done.
      rewrite (filter_cons_False (fun t => succeeds t = false))
        by (by rewrite Hs).
      rewrite <- app_assoc. cbn [length app]. f_equal; lia.
    + rewrite (filter_cons_False (fun t => succeeds t = true))
        by (by rewrite Hs).
      rewrite (filter_cons_True (fun t => succeeds t = false)) by done.
      rewrite <- app_assoc. cbn [length app]. f_equal; lia.
Qed.

(** C9, as amended: once the user has confirmed, with [n >= 1] snapshots
    listed, none of them with an empty content, [s] of which are stored by
    the server and [e] of which are not, the operation posts the file of
    every one of the [n] timestamps, in the order of the list and whatever
    the outcome of each request, and reports [s] and [e], which add up to
    [n]. *)
Theorem upload_reports_counts :
  let memoryKeys := getMemoryList voiceName localStorage in
  let s := length (filter (fun t => succeeds t = true) memoryKeys) in
  let e := length (filter (fun t => succeeds t = false) memoryKeys) in
  memoryKeys <> [] ->
  (forall t, getItem (memoryKey voiceName t) localStorage <> Some []) ->
  handleUploadMemories post_memory true backendServerUrl voiceName localStorage
  = (map (fun t => file t) memoryKeys, upload_complete s e)
  /\ s + e = length memoryKeys.
Proof.
  intros memoryKeys s e Hne Hcontent. subst s e.
  assert (Hall : Forall
    (fun t => truthy (getItem (memoryKey voiceName t) localStorage) = true)
    memoryKeys).
  { apply Forall_forall. intros t Ht.
    apply elem_of_getMemoryList in Ht as [saved Hsaved].
    specialize (Hcontent t). unfold getItem in *. rewrite Hsaved in *.
    destruct saved; [done|done]. }
  split.
  - unfold handleUploadMemories. cbn [negb]. fold memoryKeys.
    destruct memoryKeys as [|t l] eqn:Hkeys; [done|].
    unfold upload_all. rewrite upload_fold_counts by done. done.
  - clear Hne Hall. induction memoryKeys as [|t l IH]; [done|].
    destruct (succeeds t) eqn:Hs.
    + rewrite (filter_cons_True (fun t => succeeds t = true)) by done.
      rewrite (filter_cons_False (fun t => succeeds t = false))
        by (by rewrite Hs).
      cbn [length]. lia.
    + rewrite (filter_cons_False (fun t => succeeds t = true))
        by (by rewrite Hs).
      rewrite (filter_cons_True (fun t => succeeds t = false)) by done.
      cbn [length]. lia.
Qed.

End Upload.

(** ** Examples *)

Section Examples.

Import Sample Tools Unmute.

(** The scenario of the merge view: two turns of the user, no separator. *)
Example compress_scenario :
  compressChatHistory
    [text_turn user (u16 "hi"); text_turn user (u16 "there")] []
  = [text_turn user (u16 "hithere")].
Proof. reflexivity. Qed.

(** An object that occurs twice in the array is trimmed before it is read
    the second time: the loop over the heap and the function on values
    differ there. *)
Example compress_aliased :
  (compress_loop [] [hi] [0; 0] []).2 = [text_turn user (u16 "hihi")]
  /\ compressChatHistory (deref [hi] [0; 0]) []
     = [text_turn user (u16 "hi hi")].
Proof. split; reflexivity. Qed.

Lemma same_role_run_merges_witness :
  compressChatHistory [hi; there] []
  = [set_content
       (Some (join [] (trimStart (u16 " hi") :: omap content [there]))) hi].
Proof.
  apply (same_role_run_merges [] hi (u16 " hi") [there]).
  - reflexivity.
  - intros _. vm_compute. discriminate.
  - repeat constructor.
Defined.

(** C1 fails as stated: the contents [" hi"] and [" there"] joined are
    [" hi there"], and the merged turn holds ["hi there"]; a turn with
    empty content is not merged with the next one; and an empty history
    gives no turn. *)
Lemma same_role_run_counterexample :
  ~ (exists merged,
       compressChatHistory [hi; there] [] = [merged]
       /\ content merged = Some (join [] [u16 " hi"; u16 " there"]))
  /\ ~ (exists merged,
          compressChatHistory
            [text_turn user []; text_turn user (u16 "there")] [] = [merged])
  /\ ~ (exists merged, compressChatHistory [] [] = [merged]).
Proof.
  split; [|split].
  - intros (merged & Hmerged & Hcontent).
    vm_compute in Hmerged. injection Hmerged as <-.
    vm_compute in Hcontent. discriminate.
  - intros (merged & Hmerged). vm_compute in Hmerged. discriminate.
  - intros (merged & Hmerged). vm_compute in Hmerged. discriminate.
Qed.

Lemma null_content_never_merged_witness :
  compressChatHistory
    ([text_turn assistant (u16 "one")]
     ++ assistant_turn call_b :: [text_turn assistant (u16 "two")]) []
  = compressChatHistory [text_turn assistant (u16 "one")] []
    ++ assistant_turn call_b
       :: compressChatHistory [text_turn assistant (u16 "two")] [].
Proof.
  apply (null_content_never_merged []
           [text_turn assistant (u16 "one")] (assistant_turn call_b)
           [text_turn assistant (u16 "two")]).
  reflexivity.
Defined.

Lemma empty_content_never_merged_witness :
  compressChatHistory
    ([text_turn user (u16 "one")]
     ++ text_turn user [] :: [text_turn user (u16 "two")]) (u16 "-")
  = compressChatHistory [text_turn user (u16 "one")] (u16 "-")
    ++ text_turn user []
       :: compressChatHistory [text_turn user (u16 "two")] (u16 "-").
Proof.
  apply (empty_content_never_merged (u16 "-")
           [text_turn user (u16 "one")] (text_turn user [])
           [text_turn user (u16 "two")]).
  reflexivity.
Defined.

(** Malformed arguments of a known tool: the error result carries the
    message of the parse failure. *)
Lemma handleToolCall_contract_witness :
  Tools.handleToolCall message_of unreachable unreachable nothing_at nothing_at
    call_a backend
  = Return (error_result (message_of (call_arguments call_a))).
Proof.
  refine (proj1 (proj2 (proj2 (proj2
            (handleToolCall_contract message_of unreachable unreachable
               nothing_at nothing_at nothing nothing nothing nothing
               (fun _ _ => Throw NonError) call_a backend)))) _ _).
  - vm_compute. discriminate.
  - vm_compute. reflexivity.
Defined.

(** C3 fails as stated: the empty string is not a JSON text, and a call
    of [get_news] with empty arguments returns what the tool returns for
    [{}], here the empty list of articles, not an error result. *)
Lemma malformed_arguments_counterexample :
  parse_text (call_arguments call_b) = None
  /\ Tools.handleToolCall message_of nothing nothing nothing_at nothing_at
       call_b backend
     = Return (Some (JArr []))
  /\ ~ is_error_result (Some (JArr [])).
Proof.
  split; [by vm_compute|]. split; [by vm_compute|].
  intros [message Hmessage]. discriminate.
Qed.

(** Two calls, and the second returns first. *)
Lemma response_done_turns_first_witness :
  exists later,
    rawChatHistory unit
      (on_tool_result unit call_a (Some (JArr []))
         (set_pending unit []
            (on_tool_result unit call_b None
               (set_pending unit [call_a]
                  (Unmute.on_message unit (fun _ => tt)
                     (response_done [call_a; text_item; call_b]) initial)))))
    = rawChatHistory unit initial
      ++ map assistant_turn [call_a; call_b] ++ later.
Proof.
  apply (response_done_turns_first unit (fun _ => tt)
           [call_a; text_item; call_b] initial
           [settled 1 None; settled 0 (Some (JArr []))]).
  eapply run_step.
  { apply (step_settled unit (fun _ => tt) _ 1 call_b None). reflexivity. }
  eapply run_step.
  { apply (step_settled unit (fun _ => tt) _ 0 call_a (Some (JArr []))).
    reflexivity. }
  apply run_done.
Defined.

Lemma error_envelope_visible_witness :
  errors unit
    (Unmute.on_message unit (fun _ => tt)
       (error_envelope (u16 "fatal") (u16 "model overloaded")) initial)
  = errors unit initial ++ [tt].
Proof.
  apply (error_envelope_visible unit (fun _ => tt) (u16 "fatal")
           (u16 "model overloaded") initial).
  vm_compute. discriminate.
Defined.

Lemma load_absent_or_corrupt_witness :
  loadChatHistory message_of alice ∅ = Return []
  /\ loadChatHistory message_of alice
       (setItem (getStorageKey alice) (u16 "[{") ∅) = Return []
  /\ loadChatHistory message_of alice
       (setItem (getStorageKey alice) (u16 "{}") ∅) = Return [].
Proof.
  split; [|split].
  - apply (load_absent_or_corrupt message_of alice ∅).
    left. reflexivity.
  - apply (load_absent_or_corrupt message_of alice
             (setItem (getStorageKey alice) (u16 "[{") ∅)).
    right. left. exists (u16 "[{"). split; vm_compute; reflexivity.
  - apply (load_absent_or_corrupt message_of alice
             (setItem (getStorageKey alice) (u16 "{}") ∅)).
    right. right. exists (u16 "{}"), (JObj []).
    repeat split; vm_compute; reflexivity.
Defined.

(** A second snapshot, taken after the first. *)
Lemma snapshot_list_restore_witness :
  head (getMemoryList alice
          (saveMemory tuesday alice (saveMemory monday alice live)))
  = Some tuesday.
Proof.
  refine (proj1 (proj2 (snapshot_list_restore message_of alice tuesday
           (saveMemory monday alice live)
           (stringify (JArr (js_of_history [hi; there]))) _ _)) _).
  - vm_compute. reflexivity.
  - vm_compute. discriminate.
  - intros t Ht.
    replace (getMemoryList alice (saveMemory monday alice live))
      with [monday] in Ht by (vm_compute; reflexivity).
    apply list_elem_of_singleton in Ht. rewrite Ht.
    vm_compute. reflexivity.
Defined.

(** C6 fails as stated: without a live history, [saveMemory] creates no
    slot and the list stays empty; and a slot with a later name, such as
    one downloaded from the server, stays ahead of the new timestamp. *)
Lemma snapshot_counterexample :
  getMemoryList alice (saveMemory monday alice ∅) = []
  /\ head (getMemoryList alice
             (saveMemory monday alice
                (setItem (memoryKey alice (u16 "backup")) (u16 "[]") live)))
     = Some (u16 "backup").
Proof. split; vm_compute; reflexivity. Qed.

(** Three snapshots, and the upload of the second fails. *)
Lemma upload_reports_counts_witness :
  handleUploadMemories post_all_but_tuesday true backend alice three_snapshots
  = (map (fun t => (t ++ u16 ".json",
                    to_str (getItem (memoryKey alice t) three_snapshots)))
       [wednesday; tuesday; monday],
     upload_complete 2 1).
Proof.
  apply (upload_reports_counts post_all_but_tuesday backend alice
           three_snapshots).
  - vm_compute. discriminate.
  - intros t Ht. unfold getItem in Ht.
    assert (Hin : [] ∈ (map_to_list three_snapshots).*2).
    { apply list_elem_of_fmap. exists (memoryKey alice t, []).
      split; [done|]. by apply elem_of_map_to_list. }
    vm_compute in Hin. repeat (apply elem_of_cons in Hin as [Hin|Hin];
                               [discriminate|]).
    by apply elem_of_nil in Hin.
Defined.

(** C9 fails as stated: with no snapshot the operation reports that there
    is nothing to upload, not a summary; and a slot whose content is empty
    is listed but not posted, and counted as neither. *)
Lemma upload_counterexample :
  handleUploadMemories post_ok true backend alice live
  = ([], no_local_memories)
  /\ getMemoryList alice (setItem (memoryKey alice monday) [] live) = [monday]
  /\ handleUploadMemories post_ok true backend alice
       (setItem (memoryKey alice monday) [] live)
     = ([], upload_complete 0 0).
Proof. repeat split; vm_compute; reflexivity. Qed.

End Examples.

(** * Further properties *)

(** ** The merge view: what the compressed history looks like *)

Section CompressedShape.

Lemma snoc_eq_pair {A} (xs ys zs : list A) (x y z : A) :
  xs ++ [x] = ys ++ y :: z :: zs ->
  (zs = [] /\ z = x /\ xs = ys ++ [y])
  \/ exists zs', zs = zs' ++ [x] /\ xs = ys ++ y :: z :: zs'.
Proof.
  destruct zs as [|w zs _] using rev_ind.
  - intros H. left.
    change (ys ++ [y; z]) with (ys ++ [y] ++ [z]) in H.
    rewrite app_assoc in H. apply app_inj_tail in H as [-> ->]. done.
  - intros H. right. exists zs.
    change (ys ++ y :: z :: zs ++ [w]) with (ys ++ (y :: z :: zs) ++ [w]) in H.
    rewrite app_assoc in H. apply app_inj_tail in H as [-> ->]. done.
Qed.

Implicit Types (m a b message : ChatMessage) (l compressed : list ChatMessage).
Implicit Types (separator : jsstring).

Lemma trimStart_length (s : jsstring) : length (trimStart s) <= length s.
Proof.
  induction s as [|c s IH]; [done|].
  cbn. destruct (is_white_space c); cbn; lia.
Qed.

Lemma trimStart_idem (s : jsstring) : trimStart (trimStart s) = trimStart s.
Proof.
  induction s as [|c s IH]; [done|].
  cbn. destruct (is_white_space c) eqn:E; [done|]. cbn. by rewrite E.
Qed.

Lemma trimStart_fixed_app (s t : jsstring) :
  trimStart s = s -> s <> [] -> trimStart (s ++ t) = s ++ t.
Proof.
  destruct s as [|c r]; [done|]. cbn.
  destruct (is_white_space c) eqn:E; [|done].
  intros H _. pose proof (trimStart_length r) as Hlen.
  rewrite H in Hlen. cbn in Hlen. lia.
Qed.

Lemma trim_content_idem m : trim_content (trim_content m) = trim_content m.
Proof.
  destruct m as [r [c|] tc ti]; [|done].
  unfold trim_content. cbn. by rewrite trimStart_idem.
Qed.

Lemma truthy_trim_content_le m :
  truthy (content m) = false -> truthy (content (trim_content m)) = false.
Proof. intros H. by rewrite trim_content_falsy. Qed.

Lemma role_trim_content m : role (trim_content m) = role m.
Proof. by destruct m as [r [c|] tc ti]. Qed.

(** The shape that the loop keeps: every turn is trimmed, and no turn
    could be merged into the one before it. *)
Local Abbreviation shaped l :=
  (Forall (fun m => trim_content m = m) l%list
   /\ forall l1 a b l2,
        l%list = l1 ++ a :: b :: l2 ->
        role_eqb (role a) (role b) && truthy (content b) && truthy (content a)
        = false).

Lemma shaped_snoc_inv l m : shaped (l ++ [m]) -> shaped l.
Proof.
  intros [Htrim Hadj]. split.
  - by apply Forall_app in Htrim as [? _].
  - intros l1 a b l2 ->. apply (Hadj l1 a b (l2 ++ [m])).
    by rewrite <- !app_assoc.
Qed.

Lemma compress_step_shaped separator compressed message :
  shaped compressed -> shaped (compress_step separator compressed message).
Proof.
  intros [Htrim Hadj]. unfold compress_step.
  destruct (last compressed) as [prev|] eqn:Hlast.
  - apply last_Some in Hlast as [l' ->].
    apply Forall_app in Htrim as [Htrim' Hprev].
    rewrite Forall_singleton in Hprev.
    destruct (role_eqb (role prev) (role message) && truthy (content message)
              && truthy (content prev)) eqn:Hcond.
    + apply andb_true_iff in Hcond as [Hcond Hp].
      apply andb_true_iff in Hcond as [Hrole Hm].
      rewrite update_last_snoc. split.
      * apply Forall_app. split; [done|]. apply Forall_singleton.
        destruct prev as [r [c|] tc ti]; [|done].
        unfold trim_content, append_content in *. cbn in *.
        injection Hprev as Hprev. unfold set_content. cbn. do 2 f_equal.
        apply trimStart_fixed_app; [done|]. by destruct c.
      * intros l1 a b l2 Heq.
        apply snoc_eq_pair in Heq as [(-> & -> & ->) | (l2' & -> & ->)].
        -- specialize (Hadj l1 a prev [] ltac:(by rewrite <- app_assoc)).
           cbn [append_content set_content role content truthy] in *.
           rewrite Hp, andb_true_r in Hadj.
           destruct (to_str (content prev)) eqn:E.
           { destruct (content prev) as [[|]|]; done. }
           cbn. by rewrite andb_true_r.
        -- apply (Hadj l1 a b (l2' ++ [prev])). by rewrite <- !app_assoc.
    + split.
      * apply Forall_app. split.
        { apply Forall_app. split; [done|]. by apply Forall_singleton. }
        apply Forall_singleton, trim_content_idem.
      * intros l1 a b l2 Heq.
        apply snoc_eq_pair in Heq as [(-> & -> & Heq) | (l2' & -> & Heq)].
        -- apply app_inj_tail in Heq as [-> ->].
           rewrite role_trim_content.
           destruct (role_eqb (role a) (role message)); [|done].
           destruct (truthy (content a)); [|by rewrite andb_false_r].
           cbn in Hcond. rewrite andb_true_r in Hcond.
           by rewrite truthy_trim_content_le.
        -- by apply (Hadj l1 a b l2').
  - apply last_None in Hlast as ->. split.
    + apply Forall_singleton, trim_content_idem.
    + intros [|? [|? ?]] a b l2 Heq; done.
Qed.

Lemma compress_fold_shaped separator history compressed :
  shaped compressed ->
  shaped (foldl (compress_step separator) compressed history).
Proof.
  revert compressed. induction history as [|m h IH]; intros acc Hacc; [done|].
  cbn [foldl]. by apply IH, compress_step_shaped.
Qed.

Lemma compress_shaped history separator :
  shaped (compressChatHistory history separator).
Proof.
  apply compress_fold_shaped. split; [done|].
  intros [|? ?] a b l2 Heq; done.
Qed.

(** A history of that shape is compressed into itself. *)
Lemma compress_of_shaped separator l :
  shaped l -> compressChatHistory l separator = l.
Proof.
  unfold compressChatHistory.
  induction l as [|m l IH] using rev_ind; intros Hshaped; [done|].
  rewrite foldl_app. cbn [foldl].
  rewrite IH by (by eapply shaped_snoc_inv).
  destruct Hshaped as [Htrim Hadj].
  apply Forall_app in Htrim as [_ Hm]. rewrite Forall_singleton in Hm.
  unfold compress_step.
  destruct (last l) as [prev|] eqn:Hlast; [|by rewrite Hm].
  apply last_Some in Hlast as [l' ->].
  rewrite (Hadj l' prev m []) by (by rewrite <- app_assoc).
  by rewrite Hm.
Qed.

(** X2: Compressing twice is compressing once, whatever the separators. *)
Theorem compress_idempotent history separator separator' :
  compressChatHistory (compressChatHistory history separator) separator'
  = compressChatHistory history separator.
Proof. apply compress_of_shaped, compress_shaped. Qed.

(** X3: Two neighbours of the compressed history never have the same role and
    both a non-empty content. *)
Theorem compress_neighbours history separator l1 a b l2 :
  compressChatHistory history separator = l1 ++ a :: b :: l2 ->
  role a <> role b
  \/ truthy (content a) = false
  \/ truthy (content b) = false.
Proof.
  intros Heq. destruct (compress_shaped history separator) as [_ Hadj].
  specialize (Hadj l1 a b l2 Heq).
  destruct (truthy (content a)); [|by auto].
  destruct (truthy (content b)); [|by auto].
  left. intros Hrole. by rewrite Hrole, role_eqb_refl in Hadj.
Qed.

(** X4: No content of the compressed history starts with white space. *)
Theorem compress_trimmed history separator m c :
  m ∈ compressChatHistory history separator ->
  content m = Some c ->
  trimStart c = c.
Proof.
  intros Hin Hc. destruct (compress_shaped history separator) as [Htrim _].
  rewrite Forall_forall in Htrim. specialize (Htrim m Hin).
  unfold trim_content in Htrim. rewrite Hc in Htrim.
  apply (f_equal content) in Htrim. cbn in Htrim. rewrite Hc in Htrim.
  by injection Htrim.
Qed.

End CompressedShape.

(** ** The merge view: roles, the heap and streamed text *)

Section CompressedRoles.

Implicit Types (m message : ChatMessage) (l compressed : list ChatMessage).
Implicit Types (separator : jsstring) (heap : list ChatMessage).

Lemma map_role_update_last separator message compressed :
  map role (update_last (append_content separator message) compressed)
  = map role compressed.
Proof.
  induction compressed as [|x [|y l] IH]; [done|done|].
  change (update_last (append_content separator message) (x :: y :: l))
    with (x :: update_last (append_content separator message) (y :: l)).
  cbn [map]. by rewrite IH.
Qed.

Lemma compress_fold_roles separator history compressed :
  exists roles,
    map role (foldl (compress_step separator) compressed history)
    = map role compressed ++ roles
    /\ roles `sublist_of` map role history.
Proof.
  revert compressed.
  induction history as [|m h IH]; intros acc.
  - exists []. by rewrite app_nil_r.
  - cbn [foldl]. destruct (IH (compress_step separator acc m)) as (r & -> & Hr).
    unfold compress_step.
    destruct (last acc) as [prev|];
      [destruct (_ && _ && _)|].
    + exists r. rewrite map_role_update_last. split; [done|].
      by apply sublist_cons.
    + exists (role m :: r). rewrite map_app, <- app_assoc. cbn.
      rewrite role_trim_content. split; [done|]. by apply sublist_skip.
    + exists (role m :: r). rewrite map_app, <- app_assoc. cbn.
      rewrite role_trim_content. split; [done|]. by apply sublist_skip.
Qed.

(** X5: The roles of the compressed history are roles of the history, in
    their order; it is not longer than the history, starts with the role
    the history starts with, and is empty only for the empty history. *)
Theorem compress_roles history separator :
  map role (compressChatHistory history separator)
    `sublist_of` map role history
  /\ length (compressChatHistory history separator) <= length history
  /\ head (map role (compressChatHistory history separator))
     = head (map role history)
  /\ (compressChatHistory history separator = [] <-> history = []).
Proof.
  unfold compressChatHistory.
  destruct (compress_fold_roles separator history []) as (r & Hr & Hsub).
  cbn in Hr.
  assert (Hlen : length (foldl (compress_step separator) [] history)
                 <= length history).
  { rewrite <- (length_map role), Hr, <- (length_map role history).
    by apply sublist_length. }
  assert (Hhead : head (map role (foldl (compress_step separator) [] history))
                  = head (map role history)).
  { destruct history as [|m h]; [done|]. cbn [foldl].
    destruct (compress_fold_roles separator h (compress_step separator [] m))
      as (r' & -> & _).
    cbn. by rewrite role_trim_content. }
  split; [by rewrite Hr|]. split; [done|]. split; [done|].
  split.
  - intros Hnil. rewrite Hnil in Hhead. by destruct history.
  - by intros ->.
Qed.

(** X6: What the loop does to the objects of its argument: it trims the
    content of objects the array refers to, and nothing else. *)
Theorem compress_loop_heap separator refs heap compressed :
  let heap' := (compress_loop separator heap refs compressed).1 in
  length heap' = length heap
  /\ forall i,
       heap' !! i = heap !! i
       \/ (i ∈ refs /\ heap' !! i = trim_content <$> heap !! i).
Proof.
  revert heap compressed.
  induction refs as [|ref refs IH]; intros heap compressed; [by auto|].
  cbn [compress_loop]. destruct (heap !! ref) as [message|] eqn:Hm; [|by auto].
  destruct (match last compressed with Some _ => _ | None => _ end).
  - destruct (IH heap
                (update_last (append_content separator message) compressed))
      as [Hlen Hi].
    split; [done|]. intros i. destruct (Hi i) as [?|[? ?]]; [by left|].
    right. split; [by right | done].
  - destruct (IH (<[ref := trim_content message]> heap)
                (compressed ++ [trim_content message])) as [Hlen Hi].
    split; [by rewrite Hlen, length_insert|].
    intros i. destruct (decide (i = ref)) as [->|Hne].
    + right. split; [by left|]. rewrite Hm. cbn.
      destruct (Hi ref) as [H|[_ H]]; rewrite H;
        rewrite list_lookup_insert_eq by (by eapply lookup_lt_Some);
        [done|]. cbn. by rewrite trim_content_idem.
    + destruct (Hi i) as [H|[Hin H]];
        rewrite list_lookup_insert_ne in H by done; [by left|].
      right. split; [by right | done].
Qed.

End CompressedRoles.

Section Streaming.

Import Tools Unmute.

Variable ErrorItem : Type.
Variable makeErrorItem : jsstring -> ErrorItem.

Local Abbreviation on_message := (Unmute.on_message ErrorItem makeErrorItem).

Lemma join_nil_concat (x : jsstring) (l : list jsstring) :
  join [] (x :: l) = x ++ concat l.
Proof.
  revert x. induction l as [|y l IH]; intros x; [by rewrite app_nil_r|].
  change (join [] (x :: y :: l)) with (x ++ [] ++ join [] (y :: l)).
  by rewrite IH.
Qed.

Lemma compress_spaced_deltas (r : ChatRole) (delta : jsstring)
    (deltas : list jsstring) :
  (deltas <> [] -> trimStart delta <> []) ->
  compressChatHistory
    (map (fun d => text_turn r (u16 " " ++ d)) (delta :: deltas)) []
  = [text_turn r
       (trimStart delta ++ concat (map (fun d => u16 " " ++ d) deltas))].
Proof.
  intros Hfirst. unfold compressChatHistory. cbn [map foldl].
  replace (compress_step [] [] (text_turn r (u16 " " ++ delta)))
    with [text_turn r (trimStart delta)] by done.
  destruct deltas as [|d deltas]; [by rewrite app_nil_r|].
  erewrite compress_fold_merge; [| done | by apply Hfirst |].
  - unfold set_content, text_turn. cbn [role tool_calls tool_call_id].
    do 3 f_equal. rewrite join_nil_concat. f_equal.
    generalize (d :: deltas). intros l. induction l as [|x l IH]; [done|].
    cbn [map omap list_omap content text_turn concat]. by rewrite IH.
  - apply Forall_forall. intros x Hx.
    apply list_elem_of_fmap in Hx as (d' & -> & _). done.
Qed.

(** X7: In a fresh session, the deltas of the transcription are shown as one
    turn of the user: the first without its leading white space, each of
    the others after a space. The same holds for the deltas of the text of
    the assistant. *)
Theorem streamed_deltas_one_turn (st : Unmute.state ErrorItem)
    (delta : jsstring) (deltas : list jsstring) :
  rawChatHistory _ st = [] ->
  (deltas <> [] -> trimStart delta <> []) ->
  Session.chatHistory
    (rawChatHistory _
       (foldl (fun st d => on_message (input_audio_transcription_delta d) st)
          st (delta :: deltas)))
  = [text_turn user
       (trimStart delta ++ concat (map (fun d => u16 " " ++ d) deltas))]
  /\ Session.chatHistory
       (rawChatHistory _
          (foldl (fun st d => on_message (response_text_delta d) st)
             st (delta :: deltas)))
     = [text_turn assistant
          (trimStart delta ++ concat (map (fun d => u16 " " ++ d) deltas))].
Proof.
  intros Hfresh Hfirst.
  assert (Hu : forall l st0,
    rawChatHistory _
      (foldl (fun st d => on_message (input_audio_transcription_delta d) st)
         st0 l)
    = rawChatHistory _ st0 ++ map (fun d => text_turn user (u16 " " ++ d)) l).
  { induction l as [|d l IH]; intros st0; [by rewrite app_nil_r|].
    cbn [foldl]. rewrite IH. cbn. by rewrite <- app_assoc. }
  assert (Ha : forall l st0,
    rawChatHistory _
      (foldl (fun st d => on_message (response_text_delta d) st) st0 l)
    = rawChatHistory _ st0
      ++ map (fun d => text_turn assistant (u16 " " ++ d)) l).
  { induction l as [|d l IH]; intros st0; [by rewrite app_nil_r|].
    cbn [foldl]. rewrite IH. cbn. by rewrite <- app_assoc. }
  unfold Session.chatHistory. rewrite Hu, Ha, Hfresh. cbn [app].
  split; by apply compress_spaced_deltas.
Qed.

End Streaming.

(** ** The first merge view *)

Section FirstMergeView.

Local Abbreviation Turn := ChatHistoryV1.ChatMessage.
Local Abbreviation step1 := ChatHistoryV1.compress_step.
Local Abbreviation compress1 := ChatHistoryV1.compressChatHistory.
Local Abbreviation role1 := ChatHistoryV1.role.
Local Abbreviation content1 := ChatHistoryV1.content.

Lemma role1_eqb_eq (r r' : ChatHistoryV1.ChatRole) :
  ChatHistoryV1.role_eqb r r' = true <-> r = r'.
Proof. destruct r, r'; cbn; split; congruence. Qed.

Lemma step1_snoc separator (compressed : list Turn) (prev message : Turn) :
  step1 separator (compressed ++ [prev]) message
  = compressed ++ step1 separator [prev] message.
Proof.
  unfold ChatHistoryV1.compress_step. rewrite last_snoc. cbn.
  destruct (ChatHistoryV1.role_eqb _ _).
  - by rewrite update_last_snoc.
  - by rewrite <- app_assoc.
Qed.

(** The roles of neighbours differ. *)
Local Abbreviation alternating l :=
  (forall l1 (a b : Turn) l2,
     l%list = l1 ++ a :: b :: l2 -> role1 a <> role1 b).

Lemma step1_alternating separator (compressed : list Turn) (message : Turn) :
  alternating compressed ->
  alternating (step1 separator compressed message).
Proof.
  intros Hadj. unfold ChatHistoryV1.compress_step.
  destruct (last compressed) as [prev|] eqn:Hlast.
  - apply last_Some in Hlast as [l' ->].
    destruct (ChatHistoryV1.role_eqb (role1 prev) (role1 message)) eqn:Hrole.
    + rewrite update_last_snoc. intros l1 a b l2 Heq.
      apply snoc_eq_pair in Heq as [(-> & -> & ->) | (l2' & -> & ->)].
      * apply (Hadj l1 a prev []). by rewrite <- app_assoc.
      * apply (Hadj l1 a b (l2' ++ [prev])). by rewrite <- !app_assoc.
    + intros l1 a b l2 Heq.
      apply snoc_eq_pair in Heq as [(-> & -> & Heq) | (l2' & -> & Heq)].
      * apply app_inj_tail in Heq as [-> ->]. intros Heq.
        apply role1_eqb_eq in Heq. congruence.
      * by apply (Hadj l1 a b l2').
  - apply last_None in Hlast as ->.
    intros [|? [|? ?]] a b l2 Heq; done.
Qed.

Lemma compress1_alternating history separator :
  alternating (compress1 history separator).
Proof.
  unfold ChatHistoryV1.compressChatHistory.
  assert (H : forall acc : list Turn,
            alternating acc ->
            alternating (foldl (step1 separator) acc history)).
  { induction history as [|m h IH]; intros acc Hacc; [done|].
    cbn [foldl]. by apply IH, step1_alternating. }
  apply H. intros [|? ?] a b l2 Heq; done.
Qed.

(** X8: In the first version of [compressChatHistory], no two neighbours of
    the result have the same role, and compressing the result again, with
    any separator, changes nothing. *)
Theorem compress1_neighbours_differ history separator separator' :
  (forall l1 a b l2,
     ChatHistoryV1.compressChatHistory history separator
     = l1 ++ a :: b :: l2 ->
     ChatHistoryV1.role a <> ChatHistoryV1.role b)
  /\ ChatHistoryV1.compressChatHistory
       (ChatHistoryV1.compressChatHistory history separator) separator'
     = ChatHistoryV1.compressChatHistory history separator.
Proof.
  split; [apply compress1_alternating|].
  pose proof (compress1_alternating history separator) as Halt.
  revert Halt. generalize (compress1 history separator). intros l.
  unfold ChatHistoryV1.compressChatHistory.
  induction l as [|m l IH] using rev_ind; intros Halt; [done|].
  rewrite foldl_app. cbn [foldl]. rewrite IH.
  - unfold ChatHistoryV1.compress_step.
    destruct (last l) as [prev|] eqn:Hlast; [|done].
    apply last_Some in Hlast as [l' ->].
    destruct (ChatHistoryV1.role_eqb (role1 prev) (role1 m)) eqn:Hrole; [|done].
    apply role1_eqb_eq in Hrole.
    by destruct (Halt l' prev m [] ltac:(by rewrite <- app_assoc)).
  - intros l1 a b l2 ->. apply (Halt l1 a b (l2 ++ [m])).
    by rewrite <- !app_assoc.
Qed.

Lemma compress1_fold_merge separator (rest : list Turn) (prev : Turn) :
  Forall (fun x => role1 x = role1 prev) rest ->
  foldl (step1 separator) [prev] rest
  = [ {| ChatHistoryV1.role := role1 prev;
         ChatHistoryV1.content :=
           join separator (content1 prev :: map content1 rest) |} ].
Proof.
  revert prev. induction rest as [|x rest IH]; intros prev Hall.
  - by destruct prev.
  - apply Forall_cons in Hall as [Hx Hall]. cbn [foldl].
    replace (step1 separator [prev] x)
      with [ChatHistoryV1.append_content separator x prev].
    2:{ unfold ChatHistoryV1.compress_step. cbn [last].
        rewrite Hx. by rewrite (proj2 (role1_eqb_eq _ _) eq_refl). }
    rewrite IH by done. cbn [ChatHistoryV1.append_content role1 content1 map].
    by rewrite join_merge_head.
Qed.

(** X9: In the first version, a non-empty run of turns of one role is merged
    into exactly one turn of that role whose content is the contents
    joined by the separator, in their order. *)
Theorem compress1_same_role_run separator
    (first : ChatHistoryV1.ChatMessage)
    (rest : list ChatHistoryV1.ChatMessage) :
  Forall (fun x => ChatHistoryV1.role x = ChatHistoryV1.role first) rest ->
  ChatHistoryV1.compressChatHistory (first :: rest) separator
  = [ {| ChatHistoryV1.role := ChatHistoryV1.role first;
         ChatHistoryV1.content :=
           join separator (map ChatHistoryV1.content (first :: rest)) |} ].
Proof.
  intros Hall. unfold ChatHistoryV1.compressChatHistory. cbn [foldl].
  replace (step1 separator [] first) with [first] by done.
  by apply compress1_fold_merge.
Qed.

(** X10: In the first version, with the empty separator, the text of the
    history is kept: the contents of the result, put end to end, are the
    contents of the history put end to end. *)
Theorem compress1_keeps_text (history : list ChatHistoryV1.ChatMessage) :
  concat (map ChatHistoryV1.content
            (ChatHistoryV1.compressChatHistory history []))
  = concat (map ChatHistoryV1.content history).
Proof.
  unfold ChatHistoryV1.compressChatHistory.
  assert (H : forall acc : list Turn,
            concat (map content1 (foldl (step1 []) acc history))
            = concat (map content1 acc) ++ concat (map content1 history)).
  { induction history as [|m h IH]; intros acc; [by rewrite app_nil_r|].
    cbn [foldl map concat]. rewrite IH. rewrite app_assoc. f_equal.
    unfold ChatHistoryV1.compress_step.
    destruct (last acc) as [prev|] eqn:Hlast.
    - apply last_Some in Hlast as [l' ->].
      destruct (ChatHistoryV1.role_eqb _ _).
      + rewrite update_last_snoc, !map_app, !concat_app. cbn.
        by rewrite !app_nil_r, <- app_assoc.
      + rewrite !map_app, !concat_app. cbn. by rewrite !app_nil_r.
    - apply last_None in Hlast as ->. cbn. by rewrite app_nil_r. }
  by rewrite H.
Qed.

End FirstMergeView.

(** ** The store: snapshots, clearing and other voices *)

Section Snapshots.

Variable syntax_error_message : jsstring -> jsstring.

Implicit Types (voiceName timestamp key : jsstring) (localStorage : Storage).

Local Abbreviation load := (loadChatHistory syntax_error_message).

#[local] Existing Instance str_le_total.
#[local] Existing Instance str_le_trans.
#[local] Existing Instance str_le_antisymm.

Lemma getStorageKey_inj voiceName voiceName' :
  getStorageKey voiceName = getStorageKey voiceName' -> voiceName = voiceName'.
Proof. unfold getStorageKey. apply app_inv_head. Qed.

(** A slot of a voice is the live key of the voice whose name is the name
    of the voice, [_memory_] and the timestamp. *)
Lemma memoryKey_getStorageKey voiceName timestamp :
  memoryKey voiceName timestamp
  = getStorageKey (voiceName ++ u16 "_memory_" ++ timestamp).
Proof.
  unfold memoryKey, memoryPrefix, getStorageKey. by rewrite <- !app_assoc.
Qed.

Lemma memoryTimestamps_NoDup voiceName localStorage :
  NoDup (getMemoryList voiceName localStorage).
Proof.
  unfold getMemoryList, sort.
  rewrite reverse_Permutation, merge_sort_Permutation.
  apply NoDup_omap_inj; [apply NoDup_fst_map_to_list|].
  assert (Hkey : forall x z,
    (if truthy (Some x) && startsWith (memoryPrefix voiceName) x
     then Some (replace (memoryPrefix voiceName) [] x) else None) = Some z ->
    x = memoryKey voiceName z).
  { intros x z Hx.
    destruct (truthy (Some x) && startsWith (memoryPrefix voiceName) x)
      eqn:Hcond; [|done].
    apply andb_true_iff in Hcond as [_ Hstarts].
    apply startsWith_inv in Hstarts. injection Hx as <-.
    rewrite Hstarts at 2. rewrite replace_prefix.
    unfold memoryKey. by rewrite <- Hstarts. }
  intros x y z _ _ Hx Hy. by rewrite (Hkey x z), (Hkey y z).
Qed.

#[local] Instance flip_str_le_trans : Transitive (flip str_le).
Proof. intros a b c Hab Hbc. unfold flip in *. by transitivity b. Qed.

(** X11: [getMemoryList] returns the timestamps of the slots of the voice that
    are present, each once, from the greatest to the least in the order
    of the code units: every timestamp is at least every one listed after
    it. *)
Theorem memory_list_descending voiceName localStorage :
  StronglySorted (flip str_le) (getMemoryList voiceName localStorage)
  /\ NoDup (getMemoryList voiceName localStorage)
  /\ (forall t, t ∈ getMemoryList voiceName localStorage
                <-> is_Some (getItem (memoryKey voiceName t) localStorage)).
Proof.
  split; [|split; [apply memoryTimestamps_NoDup|]].
  - apply Sorted_StronglySorted; [apply _|].
    unfold getMemoryList, sort. apply Sorted_reverse, Sorted_merge_sort.
    apply _.
  - intros t. apply elem_of_getMemoryList.
Qed.

Lemma load_absent voiceName localStorage :
  getItem (getStorageKey voiceName) localStorage = None ->
  load voiceName localStorage = Return [].
Proof. unfold loadChatHistory. by intros ->. Qed.

(** X12: After [clearChatHistory], [loadChatHistory] returns the empty array,
    every other key holds what it held, the list of the snapshots is the
    same, [saveMemory] takes no snapshot, and [loadMemory] of a snapshot
    with a content brings this content back under the live key. *)
Theorem clear_then_load voiceName localStorage :
  let cleared := clearChatHistory voiceName localStorage in
  load voiceName cleared = Return []
  /\ (forall key, key <> getStorageKey voiceName ->
                  getItem key cleared = getItem key localStorage)
  /\ getMemoryList voiceName cleared = getMemoryList voiceName localStorage
  /\ (forall t, saveMemory t voiceName cleared = cleared)
  /\ (forall t saved,
        getItem (memoryKey voiceName t) localStorage = Some saved ->
        saved <> [] ->
        getItem (getStorageKey voiceName) (loadMemory voiceName t cleared)
        = Some saved).
Proof.
  cbn zeta. unfold clearChatHistory, removeItem.
  assert (Hother : forall key, key <> getStorageKey voiceName ->
            getItem key (delete (getStorageKey voiceName) localStorage)
            = getItem key localStorage).
  { intros key Hkey. unfold getItem. by rewrite lookup_delete_ne. }
  split; [|split; [done|split; [|split]]].
  - apply load_absent. unfold getItem. by rewrite lookup_delete_eq.
  - apply getMemoryList_ext. intros t.
    specialize (Hother _ (memoryKey_not_live voiceName t)).
    unfold getItem in Hother. by rewrite Hother.
  - intros t. unfold saveMemory, getItem. by rewrite lookup_delete_eq.
  - intros t saved Hslot Hne. apply loadMemory_live; [|done].
    rewrite Hother by apply memoryKey_not_live. done.
Qed.

(** X13: What is stored under the live key of a voice, and so what
    [loadChatHistory] returns for it, is not changed by saving, clearing
    or restoring the history of a voice with another name, nor by a
    snapshot of such a voice unless the name of the first voice is the
    name of the second, [_memory_] and the timestamp. *)
Theorem other_voice_live_untouched voiceName voiceName' localStorage :
  voiceName <> voiceName' ->
  (forall chatHistory,
     load voiceName (saveChatHistory chatHistory voiceName' localStorage)
     = load voiceName localStorage)
  /\ load voiceName (clearChatHistory voiceName' localStorage)
     = load voiceName localStorage
  /\ (forall t,
        load voiceName (loadMemory voiceName' t localStorage)
        = load voiceName localStorage)
  /\ (forall t,
        voiceName <> voiceName' ++ u16 "_memory_" ++ t ->
        load voiceName (saveMemory t voiceName' localStorage)
        = load voiceName localStorage).
Proof.
  intros Hne.
  assert (Hkey : getStorageKey voiceName' <> getStorageKey voiceName).
  { intros H. by apply getStorageKey_inj in H. }
  repeat split.
  - intros chatHistory. apply loadChatHistory_ext.
    unfold saveChatHistory, getItem, setItem. by rewrite lookup_insert_ne.
  - apply loadChatHistory_ext.
    unfold clearChatHistory, removeItem, getItem. by rewrite lookup_delete_ne.
  - intros t. apply loadChatHistory_ext.
    unfold loadMemory, getItem, setItem. destruct (truthy _); [|done].
    by rewrite lookup_insert_ne.
  - intros t Ht. apply loadChatHistory_ext.
    unfold saveMemory, getItem, setItem. destruct (truthy _); [|done].
    rewrite lookup_insert_ne; [done|].
    rewrite memoryKey_getStorageKey. intros H.
    by apply getStorageKey_inj in H.
Qed.

(** X14: The keys of two voices can coincide. A snapshot of a voice at a
    timestamp with a history under the live key is what [loadChatHistory]
    returns for the voice named by the voice, [_memory_] and the
    timestamp; saving a history for the voice of that name adds the
    timestamp to the snapshots of the first voice, and a snapshot of the
    voice of that name at a second timestamp is listed for the first
    voice under the first timestamp, [_memory_] and the second. *)
Theorem voice_names_collide voiceName timestamp localStorage current :
  getItem (getStorageKey voiceName) localStorage = Some current ->
  current <> [] ->
  let other := voiceName ++ u16 "_memory_" ++ timestamp in
  load other (saveMemory timestamp voiceName localStorage)
  = load voiceName localStorage
  /\ (forall chatHistory,
        timestamp ∈ getMemoryList voiceName
                      (saveChatHistory chatHistory other localStorage))
  /\ (forall t' later saved,
        getItem (getStorageKey other) later = Some saved ->
        saved <> [] ->
        timestamp ++ u16 "_memory_" ++ t'
        ∈ getMemoryList voiceName (saveMemory t' other later)).
Proof.
  intros Hlive Hne other. subst other. split; [|split].
  - rewrite (saveMemory_slot _ _ _ _ Hlive Hne).
    unfold loadChatHistory.
    rewrite <- memoryKey_getStorageKey. unfold getItem in *.
    by rewrite lookup_insert_eq, Hlive.
  - intros chatHistory. apply elem_of_getMemoryList.
    unfold saveChatHistory, setItem.
    rewrite <- memoryKey_getStorageKey, lookup_insert_eq. by eexists.
  - intros t' later saved Hsaved Hsaved_ne. apply elem_of_getMemoryList.
    rewrite (saveMemory_slot _ _ _ _ Hsaved Hsaved_ne).
    replace (memoryKey (voiceName ++ u16 "_memory_" ++ timestamp) t')
      with (memoryKey voiceName (timestamp ++ u16 "_memory_" ++ t')).
    + rewrite lookup_insert_eq. by eexists.
    + unfold memoryKey, memoryPrefix. by rewrite <- !app_assoc.
Qed.

End Snapshots.

Section Restore.

Variable syntax_error_message : jsstring -> jsstring.

Implicit Types (voiceName timestamp key : jsstring) (localStorage : Storage).

Local Abbreviation load := (loadChatHistory syntax_error_message).

Lemma stringify_nonempty (v : json) : plain v = true -> stringify v <> [].
Proof.
  intros Hplain. destruct (stringify_head v Hplain) as (c & t & -> & _).
  done.
Qed.

(** What [loadChatHistory] returns when the live key holds the
    serialization of [v]. *)
Lemma load_stringified voiceName localStorage (v : json) :
  plain v = true ->
  getItem (getStorageKey voiceName) localStorage = Some (stringify v) ->
  load voiceName localStorage
  = Return (match v with JArr elements => elements | _ => [] end).
Proof.
  intros Hplain Hlive. unfold loadChatHistory. rewrite Hlive.
  rewrite (proj2 (truthy_Some_ne _) (stringify_nonempty v Hplain)).
  cbn [negb to_str]. unfold JSON.parse.
  rewrite (parse_text_stringify v Hplain). by destruct v.
Qed.

(** X15: [loadChatHistory] checks that the value stored is an array and
    nothing else: when the live key holds the serialization of an array
    of values of any shape, without numbers and without a property named
    twice, these values are returned as they are, and when it holds the
    serialization of such a value that is not an array, the empty array
    is returned. *)
Theorem load_returns_unchecked_elements voiceName localStorage (v : json) :
  plain v = true ->
  getItem (getStorageKey voiceName) localStorage = Some (stringify v) ->
  (forall elements, v = JArr elements ->
                    load voiceName localStorage = Return elements)
  /\ (isArray v = false -> load voiceName localStorage = Return []).
Proof.
  intros Hplain Hlive.
  rewrite (load_stringified _ _ v Hplain Hlive).
  split; [by intros elements -> | by destruct v].
Qed.


(** X17: [saveMemory] leaves what [loadChatHistory] returns as it is; doing it
    twice with one timestamp is doing it once; it removes no timestamp
    from the list and adds at most the one it is given, so the list gets
    at most one longer; and when the timestamp is already listed the list
    stays the same. *)
Theorem saveMemory_list voiceName timestamp localStorage :
  let snapshot := saveMemory timestamp voiceName localStorage in
  load voiceName snapshot = load voiceName localStorage
  /\ saveMemory timestamp voiceName snapshot = snapshot
  /\ (forall t, t ∈ getMemoryList voiceName localStorage ->
                t ∈ getMemoryList voiceName snapshot)
  /\ (forall t, t ∈ getMemoryList voiceName snapshot ->
                t = timestamp \/ t ∈ getMemoryList voiceName localStorage)
  /\ length (getMemoryList voiceName snapshot)
     <= S (length (getMemoryList voiceName localStorage))
  /\ (timestamp ∈ getMemoryList voiceName localStorage ->
      getMemoryList voiceName snapshot
      = getMemoryList voiceName localStorage).
Proof.
  cbn zeta.
  assert (Hlive : getItem (getStorageKey voiceName)
                    (saveMemory timestamp voiceName localStorage)
                  = getItem (getStorageKey voiceName) localStorage).
  { unfold saveMemory, getItem, setItem. destruct (truthy _); [|done].
    rewrite lookup_insert_ne; [done | apply memoryKey_not_live]. }
  assert (Hslots : forall t,
            is_Some (saveMemory timestamp voiceName localStorage
                       !! memoryKey voiceName t)
            <-> (t = timestamp
                 /\ truthy (getItem (getStorageKey voiceName) localStorage)
                    = true)
                \/ is_Some (localStorage !! memoryKey voiceName t)).
  { intros t. unfold saveMemory, setItem.
    destruct (truthy _) eqn:Htruthy.
    - destruct (decide (t = timestamp)) as [->|Hne].
      + rewrite lookup_insert_eq. split; [by left | by eexists].
      + rewrite lookup_insert_ne
          by (intros H; by apply memoryKey_inj in H).
        split; [by right | by intros [[? _]|?]].
    - split; [by right | by intros [[_ ?]|?]]. }
  assert (Hincl : forall t,
            t ∈ getMemoryList voiceName
                  (saveMemory timestamp voiceName localStorage) ->
            t = timestamp \/ t ∈ getMemoryList voiceName localStorage).
  { intros t Ht. apply elem_of_getMemoryList, Hslots in Ht as [[-> _]|Ht];
      [by left | right; by apply elem_of_getMemoryList]. }
  split; [by apply loadChatHistory_ext|].
  split; [|split; [|split; [done|split]]].
  - unfold saveMemory at 1. rewrite Hlive. unfold saveMemory.
    destruct (truthy _); [|done]. unfold setItem. by rewrite insert_insert_eq.
  - intros t Ht. apply elem_of_getMemoryList, Hslots. right.
    by apply elem_of_getMemoryList.
  - change (S (length (getMemoryList voiceName localStorage)))
      with (length (timestamp :: getMemoryList voiceName localStorage)).
    apply submseteq_length, NoDup_submseteq; [apply memoryTimestamps_NoDup|].
    intros t Ht. apply Hincl in Ht as [->|Ht]; [by left | by right].
  - intros Hlisted. apply getMemoryList_ext. intros t. rewrite Hslots.
    split; [|by right]. intros [[-> _]|Ht]; [|done].
    by apply elem_of_getMemoryList.
Qed.

End Restore.

(** ** The declarations of the tools and the two dispatchers *)

Section Declared.

Import Tools.

Variable syntax_error_message : jsstring -> jsstring.
Variables getWeather getCoordinates : json -> completion jsvalue.
Variables getNews getNewsSources : jsstring -> json -> completion jsvalue.
Variable call_inherited : jsstring -> json -> completion jsvalue.
Variable backendServerUrl : jsstring.

Local Abbreviation dispatch :=
  (Tools.handleToolCall syntax_error_message getWeather getCoordinates
     getNews getNewsSources).
Local Abbreviation dispatch_registry :=
  (ToolsRegistry.handleToolCall syntax_error_message getWeather
     getCoordinates (getNews backendServerUrl)
     (getNewsSources backendServerUrl) call_inherited).

Lemma declared_names_tool_names : ToolSchema.declared_names = tool_names.
Proof. by vm_compute. Qed.

(** The tools that the dispatcher can run for a call. *)
Local Abbreviation tools_of :=
  [ getWeather; getCoordinates; getNews backendServerUrl;
    getNewsSources backendServerUrl ].

Lemma dispatch_declared call args :
  parse_text (arguments_or_default (call_arguments call)) = Some args ->
  call_name call ∈ tool_names ->
  exists tool,
    tool ∈ tools_of
    /\ dispatch call backendServerUrl = try_catch (tool args) on_failure
    /\ dispatch_registry call = try_catch (tool args) on_failure.
Proof.
  intros Hparse Hname.
  unfold Tools.handleToolCall, ToolsRegistry.handleToolCall,
    ToolsRegistry.toolFunctions, JSON.parse.
  rewrite Hparse. cbn [bind]. unfold tool_names in Hname.
  repeat (apply elem_of_cons in Hname as [->|Hname];
          [eexists; split; [|split; reflexivity]; set_solver|]).
  by apply elem_of_nil in Hname.
Qed.

(** X18: The declarations sent to the model and the dispatchers agree: every
    declaration has a name, no name is declared twice, a call of a
    declared name whose arguments are a JSON text runs one of the tools
    on the arguments read, and completes as the tool does, its failure
    turned into an error result, in both dispatchers; a call of a name
    that is not declared runs no tool. *)
Theorem declared_tools_are_dispatched call args :
  parse_text (arguments_or_default (call_arguments call)) = Some args ->
  length ToolSchema.declared_names = length ToolSchema.tools
  /\ NoDup ToolSchema.declared_names
  /\ (call_name call ∈ ToolSchema.declared_names ->
      exists tool,
        tool ∈ tools_of
        /\ dispatch call backendServerUrl = try_catch (tool args) on_failure
        /\ dispatch_registry call = try_catch (tool args) on_failure)
  /\ (call_name call ∉ ToolSchema.declared_names ->
      dispatch call backendServerUrl
      = Return (unknown_function (call_name call))).
Proof.
  intros Hparse. rewrite declared_names_tool_names.
  split; [done|]. split; [apply (bool_decide_unpack _); by vm_compute|].
  split.
  - by apply dispatch_declared.
  - intros Hname. by eapply handleToolCall_unknown.
Qed.

(** X19: With the same tools, the dispatcher that looks the name up in the
    table and the dispatcher with the [switch] complete in the same way
    for every call whose name is not inherited from [Object.prototype],
    when the name is one of the tools or the arguments are a JSON text.
    For a name that is neither a tool nor inherited, with arguments that
    are not a JSON text, the first answers that the function is unknown
    and the second answers with the message of the parse failure. *)
Theorem dispatchers_agree call :
  call_name call ∉ ToolsRegistry.Object_prototype_names ->
  (call_name call ∈ tool_names
   \/ is_Some (parse_text (arguments_or_default (call_arguments call))) ->
   dispatch_registry call = dispatch call backendServerUrl)
  /\ (call_name call ∉ tool_names ->
      parse_text (arguments_or_default (call_arguments call)) = None ->
      dispatch_registry call = Return (unknown_function (call_name call))
      /\ dispatch call backendServerUrl
         = Return (error_result
                     (syntax_error_message
                        (arguments_or_default (call_arguments call))))).
Proof.
  intros Hproto.
  assert (Hunknown : call_name call ∉ tool_names ->
            dispatch_registry call
            = Return (unknown_function (call_name call))).
  { intros Hname.
    unfold ToolsRegistry.handleToolCall, ToolsRegistry.toolFunctions.
    rewrite !(str_eqb_false_of_not_elem _ _ tool_names Hname);
      [| unfold tool_names; set_solver ..].
    by rewrite bool_decide_eq_false_2. }
  split.
  - intros Hcase.
    destruct (decide (call_name call ∈ tool_names)) as [Hname|Hname].
    + destruct (parse_text (arguments_or_default (call_arguments call)))
        as [args|] eqn:Hparse.
      * destruct (dispatch_declared call args Hparse Hname)
          as (tool & _ & -> & ->). done.
      * rewrite handleToolCall_syntax_error by done.
        unfold ToolsRegistry.handleToolCall, ToolsRegistry.toolFunctions,
          JSON.parse.
        rewrite Hparse. unfold tool_names in Hname.
        repeat (apply elem_of_cons in Hname as [->|Hname]; [done|]).
        by apply elem_of_nil in Hname.
    + destruct Hcase as [?|[args Hparse]]; [done|].
      rewrite Hunknown by done. symmetry. by eapply handleToolCall_unknown.
  - intros Hname Hparse. split; [by apply Hunknown|].
    by apply handleToolCall_syntax_error.
Qed.

End Declared.

(** ** Runs of the handlers: calls, answers and errors *)

Section Runs.

Import Tools Unmute Jobs.

Variable ErrorItem : Type.
Variable makeErrorItem : jsstring -> ErrorItem.

Local Abbreviation state := (Unmute.state ErrorItem).
Local Abbreviation on_message := (Unmute.on_message ErrorItem makeErrorItem).
Local Abbreviation step := (Unmute.step ErrorItem makeErrorItem).
Local Abbreviation run := (Unmute.run ErrorItem makeErrorItem).

Implicit Types (st : state) (e : event) (events : list event).

(** What the handling of a message does to the history, the messages
    sent, the pending calls and the errors. *)
Lemma on_message_effect data st :
  exists more,
    rawChatHistory _ (on_message data st) = rawChatHistory _ st ++ more
    /\ Forall (fun m => role m <> tool) more
    /\ sent _ (on_message data st) = sent _ st
    /\ pending _ (on_message data st)
       = pending _ st ++ requested (message data)
    /\ errors _ (on_message data st)
       = errors _ st
         ++ map makeErrorItem (option_list (reported (message data))).
Proof.
  destruct data as [delta|debug_dict|error_type text|delta|delta| |output|type];
    cbn [Unmute.on_message requested reported option_list map].
  - exists []. by rewrite !app_nil_r.
  - exists []. cbn. by rewrite !app_nil_r.
  - exists []. unfold on_error. destruct (str_eqb _ _); cbn;
      by rewrite !app_nil_r.
  - exists [text_turn user (u16 " " ++ delta)]. rewrite !app_nil_r.
    split; [done|]. split; [|done]. by apply Forall_singleton.
  - exists [text_turn assistant (u16 " " ++ delta)]. rewrite !app_nil_r.
    split; [done|]. split; [|done]. by apply Forall_singleton.
  - exists []. by rewrite !app_nil_r.
  - destruct (on_output_items ErrorItem output st) as (-> & -> & -> & ->).
    eexists. split; [done|]. rewrite app_nil_r. split; [|done].
    apply Forall_forall. intros m Hm.
    apply list_elem_of_fmap in Hm as (call & -> & _). done.
  - exists []. destruct (bool_decide _); cbn; by rewrite !app_nil_r.
Qed.

(** X20: Along every run of the handlers, each call requested by a
    [response.done] or pending at the start is either still pending at
    the end or has been answered exactly once. The answers are, in their
    order, the tool turns that the run appends to the history, one for
    each job of a call that returned, and for each answer the two
    messages are sent, the output of the call and then
    [response.create]; nothing else is sent. *)
Theorem run_answers_each_call_once st events st' :
  run st events st' ->
  exists (more : list ChatMessage) (answered : list answer),
    rawChatHistory _ st' = rawChatHistory _ st ++ more
    /\ filter (fun m => role m = tool) more = map turn_of answered
    /\ sent _ st' = sent _ st ++ flat_map sent_for answered
    /\ answered.*1 ++ pending _ st'
       ≡ₚ pending _ st ++ flat_map requested events
    /\ length answered = length (filter (fun e => is_settled e) events).
Proof.
  induction 1 as [st | st e st1 es st2 Hstep _ IH].
  - exists [], []. cbn. by rewrite !app_nil_r.
  - destruct IH as (more2 & answered2 & Hh2 & Htool2 & Hs2 & Hp2 & Hn2).
    destruct Hstep as [st0 data | st0 n call toolResult Hpending].
    + destruct (on_message_effect data st0)
        as (more1 & Hh1 & Hnot & Hs1 & Hp1 & _).
      exists (more1 ++ more2), answered2.
      rewrite Hh2, Hh1, Hs2, Hs1, Hp2, Hp1, <- !app_assoc.
      split; [done|]. split; [|split; [done|split; [done|]]].
      * rewrite filter_app, <- Htool2.
        replace (filter (fun m => role m = tool) more1) with (@nil ChatMessage);
          [done|].
        clear -Hnot. induction Hnot as [|m l Hm _ IH]; [done|].
        rewrite filter_cons_False; [exact IH | exact Hm].
      * rewrite filter_cons_False; [done | cbn; tauto].
    + exists (tool_turn call toolResult :: more2),
        ((call, toolResult) :: answered2).
      rewrite Hh2, Hs2. cbn [on_tool_result rawChatHistory sent pending
        set_pending sendMessage setRawChatHistory] in *.
      rewrite <- !app_assoc.
      split; [done|]. split; [|split; [done|split]].
      * rewrite filter_cons_True by done. cbn [map]. by rewrite Htool2.
      * cbn [fmap list_fmap fst app flat_map requested].
        rewrite Hp2.
        apply (delete_Permutation _ _ _) in Hpending.
        change (call :: delete n (pending ErrorItem st0)
                        ++ flat_map requested es)
          with ((call :: delete n (pending ErrorItem st0))
                ++ flat_map requested es).
        by rewrite <- Hpending.
      * rewrite filter_cons_True by done. cbn [length]. by rewrite Hn2.
Qed.

(** X21: Along every run of the handlers, the errors shown are the errors
    shown at the start followed by the messages of the error envelopes
    received whose type is not ["warning"], in the order of their
    arrival: no other message and no result of a tool, failed or not,
    adds an error or removes one. *)
Theorem run_errors_shown st events st' :
  run st events st' ->
  errors _ st' = errors _ st ++ map makeErrorItem (omap reported events).
Proof.
  induction 1 as [st | st e st1 es st2 Hstep _ IH].
  - cbn. by rewrite app_nil_r.
  - rewrite IH. destruct Hstep as [st0 data | st0 n call toolResult Hpending].
    + destruct (on_message_effect data st0) as (_ & _ & _ & _ & _ & ->).
      rewrite <- app_assoc. f_equal. cbn [omap list_omap].
      by destruct (reported (message data)).
    + done.
Qed.

End Runs.

(** ** The merge view computed again on the same array *)

Section Rendering.

Implicit Types (heap : list ChatMessage) (refs : list nat).

(** The loop leaves alone the objects that the array does not refer to. *)
Lemma compress_loop_frame separator refs heap compressed (i : nat) :
  i ∉ refs ->
  (compress_loop separator heap refs compressed).1 !! i = heap !! i.
Proof.
  revert heap compressed.
  induction refs as [|ref refs IH]; intros heap compressed Hi; [done|].
  apply not_elem_of_cons in Hi as [Hne Hi].
  cbn [compress_loop]. destruct (heap !! ref) as [message|]; [|done].
  destruct (match last compressed with Some _ => _ | None => _ end).
  - by apply IH.
  - rewrite IH by done. by rewrite list_lookup_insert_ne.
Qed.

Lemma compress_loop_replay separator refs heap compressed heap2 :
  NoDup refs ->
  (forall ref, ref ∈ refs ->
     heap2 !! ref
     = (compress_loop separator heap refs compressed).1 !! ref) ->
  compress_loop separator heap2 refs compressed
  = (heap2, (compress_loop separator heap refs compressed).2).
Proof.
  revert heap compressed.
  induction refs as [|ref refs IH]; intros heap compressed Hnd Hsame;
    [done|].
  apply NoDup_cons in Hnd as [Hnotin Hnd].
  pose proof (Hsame ref ltac:(by left)) as Href.
  cbn [compress_loop] in *.
  destruct (heap !! ref) as [message|] eqn:Hm;
    [|cbn [fst] in Href; by rewrite Href, Hm].
  destruct (match last compressed with Some _ => _ | None => _ end) eqn:Hd.
  - rewrite compress_loop_frame in Href by done. rewrite Href, Hm, Hd.
    apply IH; [done|]. intros r Hr. apply Hsame. by right.
  - rewrite compress_loop_frame in Href by done.
    rewrite list_lookup_insert_eq in Href by (by eapply lookup_lt_Some).
    rewrite Href.
    replace (match last compressed with
             | Some prev =>
                 role_eqb (role prev) (role (trim_content message))
                 && truthy (content (trim_content message))
                 && truthy (content prev)
             | None => false
             end) with false.
    + rewrite trim_content_idem, list_insert_id by done.
      apply IH; [done|]. intros r Hr. apply Hsame. by right.
    + destruct (last compressed) as [prev|]; [|done].
      rewrite role_trim_content.
      destruct (truthy (content (trim_content message))) eqn:Htrim;
        [|by rewrite andb_false_r].
      destruct (truthy (content message)) eqn:Hmsg; [by rewrite <- Hd|].
      by rewrite truthy_trim_content_le in Htrim.
Qed.

(** X22: [compressChatHistory] writes to the objects of its argument, and the
    component calls it on the same array each time it renders. When no
    object occurs twice in the array, calling it again on the objects as
    the first call left them returns the same array and changes no
    object. *)
Theorem compress_loop_again separator refs heap :
  NoDup refs ->
  let first := compress_loop separator heap refs [] in
  compress_loop separator first.1 refs [] = first.
Proof.
  intros Hnd first. subst first.
  rewrite (compress_loop_replay separator refs heap []) by done.
  by destruct (compress_loop separator heap refs []).
Qed.

End Rendering.

(** ** What is shown and replayed after tools have returned *)

Section Replay.

Import Tools Unmute Session.

Implicit Types (before raw : list ChatMessage) (calls : list FunctionCall).
Implicit Types (answers : list (FunctionCall * json)).

Lemma compress_calls_then separator calls (rest : list ChatMessage) :
  compressChatHistory (map assistant_turn calls ++ rest) separator
  = map assistant_turn calls ++ compressChatHistory rest separator.
Proof.
  induction calls as [|call calls IH]; [done|].
  cbn [map app]. rewrite <- IH.
  exact (compress_around_falsy separator [] (assistant_turn call) _ eq_refl).
Qed.

(** The assistant turns of the calls stand between what comes before and
    what comes after. *)
Lemma compress_around_calls separator before calls (rest : list ChatMessage) :
  calls <> [] ->
  compressChatHistory (before ++ map assistant_turn calls ++ rest) separator
  = compressChatHistory before separator
    ++ map assistant_turn calls ++ compressChatHistory rest separator.
Proof.
  destruct calls as [|call calls]; [done|]. intros _. cbn [map app].
  rewrite (compress_around_falsy separator before (assistant_turn call))
    by done.
  by rewrite compress_calls_then.
Qed.

(** The serialization starts with a character that is not white space. *)
Local Abbreviation black v :=
  (exists c t, stringify v = c :: t /\ is_white_space c = false).

(** The tool turn of a result that is not [undefined]. *)
Local Abbreviation result_turn :=
  (fun a : FunctionCall * json => tool_turn a.1 (Some a.2)).

Lemma compress_result_turns (first : FunctionCall * json) answers :
  Forall (fun a => black a.2) (first :: answers) ->
  compressChatHistory (map result_turn (first :: answers)) []
  = [ {| role := tool;
         content :=
           Some (concat (map (fun a => stringify a.2) (first :: answers)));
         tool_calls := None;
         tool_call_id := Some (call_id first.1) |} ].
Proof.
  intros Hall. apply Forall_cons in Hall as [(c & t & Hfirst & Hc) Hall].
  unfold compressChatHistory. cbn [map foldl].
  replace (compress_step [] [] (result_turn first))
    with [result_turn first].
  2:{ unfold compress_step, trim_content, tool_turn, set_content.
      cbn. rewrite Hfirst. cbn. by rewrite Hc. }
  erewrite compress_fold_merge; [| done | by rewrite Hfirst |].
  - rewrite join_nil_concat.
    replace (omap content (map result_turn answers))
      with (map (fun a : FunctionCall * json => stringify a.2) answers).
    + done.
    + clear. induction answers as [|a answers IH]; [done|].
      cbn [map omap list_omap]. by rewrite <- IH.
  - apply Forall_forall. intros m Hm.
    apply list_elem_of_fmap in Hm as (a & -> & Ha).
    rewrite Forall_forall in Hall. destruct (Hall a Ha) as (c' & t' & Ha' & _).
    split; [done|]. cbn. by rewrite Ha'.
Qed.

(** What the replay sends for the assistant turn of a call. *)
Local Abbreviation replayed_call :=
  (fun call : FunctionCall =>
     JObj [ (u16 "type", JStr (u16 "message"));
            (u16 "role", JStr (u16 "assistant"));
            (u16 "content", JNull);
            (u16 "tool_calls",
             JArr [ js_of_tool_call
                      {| tc_id := call_id call;
                         tc_function :=
                           {| fn_name := call_name call;
                              fn_arguments := call_arguments call |} |} ]) ]).

(** What is shown for the assistant turn of a call. *)
Local Abbreviation shown_call :=
  (fun call : FunctionCall =>
     text_turn assistant
       (show_call {| tc_id := call_id call;
                     tc_function :=
                       {| fn_name := call_name call;
                          fn_arguments := call_arguments call |} |})).

(** The compressed history after the calls of a [response.done] and the
    results of tools, none of them [undefined], recorded in a row. *)
Lemma chatHistory_tool_exchange before calls
    (first : FunctionCall * json) answers :
  calls <> [] ->
  Forall (fun a => black a.2) (first :: answers) ->
  chatHistory
    (before ++ map assistant_turn calls
     ++ map result_turn (first :: answers))
  = chatHistory before ++ map assistant_turn calls
    ++ [ {| role := tool;
            content :=
              Some (concat (map (fun a => stringify a.2) (first :: answers)));
            tool_calls := None;
            tool_call_id := Some (call_id first.1) |} ].
Proof.
  intros Hcalls Hall. unfold chatHistory.
  rewrite compress_around_calls by done.
  by rewrite compress_result_turns.
Qed.

(** X23: When the results of several calls, none of them [undefined], are
    recorded one after the other, after the assistant turns of a
    [response.done], the compressed history holds one tool turn for all
    of them: its content is the serializations of the results put end to
    end (each starts, as every serialization does, with a character that
    is not white space), and its call id is the id of the first call that
    returned. The replay on a new connection then sends the assistant
    message of every call but one [function_call_output], for the first
    call that returned, with the concatenation as its output, and none at
    all when the id of that call is empty. The tool turn of a result that
    is [undefined] has no content: it is merged with no neighbour,
    whatever stands before and after it, and the replay skips it. *)
Theorem tool_results_in_a_row_merge before calls
    (first : FunctionCall * json) answers :
  calls <> [] ->
  Forall (fun a => black a.2) (first :: answers) ->
  let raw :=
    before ++ map assistant_turn calls
    ++ map result_turn (first :: answers) in
  let output := concat (map (fun a => stringify a.2) (first :: answers)) in
  chatHistory raw
  = chatHistory before ++ map assistant_turn calls
    ++ [ {| role := tool; content := Some output; tool_calls := None;
            tool_call_id := Some (call_id first.1) |} ]
  /\ replay_items (chatHistory raw)
     = replay_items (chatHistory before) ++ map replayed_call calls
       ++ match call_id first.1 with
          | [] => []
          | _ :: _ =>
              [ JObj [ (u16 "type", JStr (u16 "function_call_output"));
                       (u16 "call_id", JStr (call_id first.1));
                       (u16 "output", JStr output) ] ]
          end
  /\ (forall call earlier later,
        chatHistory (earlier ++ tool_turn call None :: later)
        = chatHistory earlier ++ tool_turn call None :: chatHistory later
        /\ replay_item (tool_turn call None) = None).
Proof.
  intros Hcalls Hall raw output. subst raw output.
  split; [by apply chatHistory_tool_exchange|]. split.
  - rewrite chatHistory_tool_exchange by done. unfold replay_items.
    rewrite !omap_app. f_equal. f_equal.
    + clear. induction calls as [|call calls IH]; [done|].
      cbn [map omap list_omap]. by rewrite IH.
    + cbn [omap list_omap replay_item role tool_call_id content].
      apply Forall_cons in Hall as [(c & t & Hfirst & _) _].
      cbn [map concat]. rewrite Hfirst.
      by destruct (call_id first.1).
  - intros call earlier later. split.
    + unfold chatHistory. by apply compress_around_falsy.
    + unfold replay_item. cbn [role tool_turn tool_call_id content fmap
        option_fmap option_map truthy negb].
      by rewrite orb_true_r.
Qed.

(** X28: What is shown after tools have returned. For the results of several
    calls, none of them [undefined], recorded one after the other after
    the assistant turns of a [response.done], the display has one line
    for each call, with its name and its arguments as a JSON string, and
    then one turn of the user for all the results: [Tool output: ]
    followed by their serializations put end to end. The tool turn of a
    result that is [undefined] is shown as [Tool output: undefined]. *)
Theorem tool_exchange_display before calls
    (first : FunctionCall * json) answers :
  calls <> [] ->
  Forall (fun a => black a.2) (first :: answers) ->
  let raw :=
    before ++ map assistant_turn calls
    ++ map result_turn (first :: answers) in
  let output := concat (map (fun a => stringify a.2) (first :: answers)) in
  displayChatHistory raw
  = displayChatHistory before ++ map shown_call calls
    ++ [ text_turn user (u16 "Tool output: " ++ output) ]
  /\ (forall call,
        display (tool_turn call None)
        = text_turn user (u16 "Tool output: undefined")).
Proof.
  intros Hcalls Hall raw output. subst raw output. split; [|done].
  unfold displayChatHistory.
  rewrite chatHistory_tool_exchange by done.
  rewrite !map_app. f_equal. f_equal. by rewrite map_map.
Qed.

Lemma omap_length_le {A B} (f : A -> option B) (xs : list A) :
  length (omap f xs) <= length xs.
Proof.
  induction xs as [|x xs IH]; [done|].
  cbn [omap list_omap]. destruct (f x); cbn [length]; lia.
Qed.

(** The elements that [omap] keeps, each with what it is mapped to. *)
Lemma omap_sublist_Forall2 {A B} (f : A -> option B) (P : A -> Prop)
    (xs : list A) :
  Forall P xs ->
  exists kept,
    kept `sublist_of` xs
    /\ Forall2 (fun x y => f x = Some y /\ P x) kept (omap f xs).
Proof.
  induction 1 as [|x xs Hx _ (kept & Hsub & Hall)];
    [exists []; by split; constructor|].
  cbn [omap list_omap]. destruct (f x) as [y|] eqn:Hfx.
  - exists (x :: kept). split; [by apply sublist_skip | by constructor].
  - exists kept. split; [by apply sublist_cons | done].
Qed.

(** X24: When the connection opens, the session is configured first, and then
    the turns of the compressed history are gone through in their order
    and one item at most is sent for each of them: the items sent are the
    items of a subsequence of the compressed history, turn by turn, so
    they are no more than the compressed history has turns, which are no
    more than the raw history has; nothing but the configuration is sent
    for an empty history. Every turn that has its item sent is an
    assistant turn with tool calls, or has a content that is not empty
    and does not start with white space. *)
Theorem on_open_items (instructions : json) (voice consent_key : jsstring)
    (localStorage : Storage) raw :
  exists items,
    on_open instructions voice consent_key localStorage raw
    = session_update instructions voice consent_key localStorage
      :: map item_create items
    /\ items = omap replay_item (chatHistory raw)
    /\ length items <= length (chatHistory raw)
    /\ length (chatHistory raw) <= length raw
    /\ (raw = [] -> items = [])
    /\ exists turns,
         turns `sublist_of` chatHistory raw
         /\ Forall2 (fun m item =>
                       replay_item m = Some item
                       /\ ((role m = assistant /\ is_Some (tool_calls m))
                           \/ exists c, content m = Some c /\ c <> []
                                        /\ trimStart c = c))
              turns items.
Proof.
  exists (replay_items (chatHistory raw)).
  split; [by destruct raw|]. split; [done|].
  split; [apply omap_length_le|]. split; [|split; [by intros ->|]].
  - unfold chatHistory, compressChatHistory.
    destruct (compress_fold_roles [] raw []) as (roles & Hroles & Hsub).
    apply (f_equal length) in Hroles. rewrite length_map in Hroles.
    apply sublist_length in Hsub. rewrite length_map in Hsub.
    cbn in Hroles. lia.
  - destruct (compress_shaped raw []) as [Htrimmed _].
    destruct (omap_sublist_Forall2 replay_item _ _ Htrimmed)
      as (turns & Hsub & Hall).
    exists turns. split; [done|].
    eapply Forall2_impl; [exact Hall|]. clear.
    intros m item [Hitem Hm]. split; [done|].
    assert (Htrim : forall c, content m = Some c -> trimStart c = c).
    { intros c Hc. unfold trim_content in Hm. rewrite Hc in Hm.
      apply (f_equal content) in Hm. cbn in Hm. rewrite Hc in Hm.
      by injection Hm. }
    unfold replay_item in Hitem.
    destruct (decide (role m = assistant /\ is_Some (tool_calls m)))
      as [?|Hnot]; [by left|].
    right. destruct (content m) as [c|] eqn:Hcontent.
    + exists c. split; [done|]. split; [|by apply Htrim]. intros ->.
      destruct (role m), (tool_calls m); cbn in Hitem; try done;
        rewrite ?orb_true_r in Hitem; try done.
      destruct Hnot. by split; [|eexists].
    + destruct (role m), (tool_calls m); cbn in Hitem; try done;
        rewrite ?orb_true_r in Hitem; try done.
      destruct Hnot. by split; [|eexists].
Qed.

End Replay.

(** ** The download of the memories *)

Section Downloads.

Import Unmute Download.

Variable syntax_error_message : jsstring -> jsstring.
Variable get_list : jsstring -> completion list_response.
Variable get_memory : jsstring -> completion memory_response.
Variables backendServerUrl voiceName : jsstring.

Implicit Types (localStorage : Storage) (filename key t : jsstring).
Implicit Types (memoryFilenames : list jsstring).

Local Abbreviation download_one :=
  (Download.download_one get_memory backendServerUrl voiceName).
Local Abbreviation handleDownloadMemories :=
  (Download.handleDownloadMemories get_list get_memory).
Local Abbreviation url_of filename :=
  (memories_url backendServerUrl voiceName ++ u16 "/" ++ filename).

(** The file of a timestamp is read back into the slot of the timestamp. *)
Lemma slice_json t : slice_0_minus5 (t ++ u16 ".json") = t.
Proof.
  unfold slice_0_minus5. rewrite length_app.
  change (length (u16 ".json")) with 5.
  replace (length t + 5 - 5) with (length t) by lia.
  by rewrite take_app_length.
Qed.

Lemma endsWith_json t : endsWith (u16 ".json") (t ++ u16 ".json") = true.
Proof. apply bool_decide_eq_true. by exists t. Qed.

Lemma endsWith_json_inv filename :
  endsWith (u16 ".json") filename = true ->
  filename = slice_0_minus5 filename ++ u16 ".json".
Proof.
  intros H. apply bool_decide_eq_true in H as [k ->].
  by rewrite slice_json.
Qed.

(** One iteration writes one slot at most: the slot named by the file,
    with the text fetched. *)
Lemma download_one_effect localStorage filename :
  download_one localStorage filename = localStorage
  \/ exists memoryResponse text,
       endsWith (u16 ".json") filename = true
       /\ get_memory (url_of filename) = Return memoryResponse
       /\ memory_ok memoryResponse = true
       /\ memory_text memoryResponse = Return text
       /\ download_one localStorage filename
          = <[memoryKey voiceName (slice_0_minus5 filename) := text]>
              localStorage.
Proof.
  unfold Download.download_one.
  destruct (endsWith _ filename); [|by left]. cbn [negb].
  destruct (get_memory _) as [memoryResponse|]; [|by left].
  destruct (memory_ok memoryResponse) eqn:Hok; [|by left].
  destruct (memory_text memoryResponse) as [text|] eqn:Htext; [|by left].
  right. by exists memoryResponse, text.
Qed.

Lemma download_fold_other memoryFilenames localStorage key :
  (forall filename,
     filename ∈ memoryFilenames ->
     endsWith (u16 ".json") filename = true ->
     key <> memoryKey voiceName (slice_0_minus5 filename)) ->
  getItem key (foldl download_one localStorage memoryFilenames)
  = getItem key localStorage.
Proof.
  revert localStorage.
  induction memoryFilenames as [|f l IH]; intros localStorage Hkey; [done|].
  cbn [foldl]. rewrite IH by (intros g Hg; apply Hkey; by right).
  destruct (download_one_effect localStorage f)
    as [->|(r & text & Hends & _ & _ & _ & ->)]; [done|].
  unfold getItem. rewrite lookup_insert_ne; [done|].
  intros Heq. by apply (Hkey f ltac:(by left) Hends).
Qed.

Lemma download_fold_keeps memoryFilenames localStorage key :
  is_Some (getItem key localStorage) ->
  is_Some (getItem key (foldl download_one localStorage memoryFilenames)).
Proof.
  revert localStorage.
  induction memoryFilenames as [|f l IH]; intros localStorage Hkey; [done|].
  cbn [foldl]. apply IH.
  destruct (download_one_effect localStorage f)
    as [->|(r & text & _ & _ & _ & _ & ->)]; [done|].
  unfold getItem in *.
  destruct (decide (memoryKey voiceName (slice_0_minus5 f) = key)) as [->|Hne].
  - rewrite lookup_insert_eq. by eexists.
  - by rewrite lookup_insert_ne.
Qed.

Lemma download_one_fetched localStorage t memoryResponse text :
  get_memory (url_of (t ++ u16 ".json")) = Return memoryResponse ->
  memory_ok memoryResponse = true ->
  memory_text memoryResponse = Return text ->
  download_one localStorage (t ++ u16 ".json")
  = <[memoryKey voiceName t := text]> localStorage.
Proof.
  intros Hget Hok Htext. unfold Download.download_one.
  by rewrite endsWith_json, Hget, Hok, Htext, slice_json.
Qed.

(** The file of a timestamp that is listed and fetched ends in the slot
    of the timestamp. *)
Lemma download_fold_slot memoryFilenames localStorage t memoryResponse text :
  t ++ u16 ".json" ∈ memoryFilenames ->
  get_memory (url_of (t ++ u16 ".json")) = Return memoryResponse ->
  memory_ok memoryResponse = true ->
  memory_text memoryResponse = Return text ->
  getItem (memoryKey voiceName t)
    (foldl download_one localStorage memoryFilenames) = Some text.
Proof.
  intros Hin Hget Hok Htext. revert localStorage Hin.
  induction memoryFilenames as [|f l IH] using rev_ind;
    intros localStorage Hin; [by apply elem_of_nil in Hin|].
  rewrite foldl_app. cbn [foldl].
  apply elem_of_app in Hin as [Hin|Hin].
  - specialize (IH localStorage Hin).
    destruct (download_one_effect (foldl download_one localStorage l) f)
      as [->|(r & text' & Hends & Hget' & _ & Htext' & ->)]; [done|].
    unfold getItem in *.
    destruct (decide (slice_0_minus5 f = t)) as [Hf|Hf].
    + rewrite Hf, lookup_insert_eq.
      apply endsWith_json_inv in Hends. rewrite Hf in Hends. subst f.
      rewrite Hget in Hget'. injection Hget' as <-.
      rewrite Htext in Htext'. by injection Htext' as <-.
    + rewrite lookup_insert_ne; [done|].
      intros Heq. by apply memoryKey_inj in Heq.
  - apply list_elem_of_singleton in Hin as <-.
    rewrite (download_one_fetched _ _ _ _ Hget Hok Htext).
    unfold getItem. by rewrite lookup_insert_eq.
Qed.


(** X25: [handleDownloadMemories] writes to slots of the voice only, and only
    to slots named by the files listed whose name ends in [.json]: every
    other key holds what it held, so [loadChatHistory] returns what it
    returned; no slot is removed, so every timestamp listed before is
    listed after; and when the user declines, or the list cannot be
    fetched or read, the store is left as it is. *)
Theorem download_keeps_the_rest confirmed localStorage :
  let result :=
    handleDownloadMemories confirmed backendServerUrl voiceName localStorage in
  (forall key, (forall t, key <> memoryKey voiceName t) ->
               getItem key result.1 = getItem key localStorage)
  /\ loadChatHistory syntax_error_message voiceName result.1
     = loadChatHistory syntax_error_message voiceName localStorage
  /\ (forall t, t ∈ getMemoryList voiceName localStorage ->
                t ∈ getMemoryList voiceName result.1)
  /\ (forall savedMemories,
        result.2 = downloaded savedMemories ->
        savedMemories = getMemoryList voiceName result.1)
  /\ (result.2 = download_declined \/ result.2 = list_not_ok
      \/ result.2 = download_failed ->
      result.1 = localStorage).
Proof.
  cbn zeta.
  assert (Hcases :
    (handleDownloadMemories confirmed backendServerUrl voiceName
       localStorage).1 = localStorage
    /\ (forall l, (handleDownloadMemories confirmed backendServerUrl
                     voiceName localStorage).2 <> downloaded l)
    \/ exists memoryFilenames,
         handleDownloadMemories confirmed backendServerUrl voiceName
           localStorage
         = (foldl download_one localStorage memoryFilenames,
            downloaded
              (getMemoryList voiceName
                 (foldl download_one localStorage memoryFilenames)))).
  { unfold Download.handleDownloadMemories.
    destruct confirmed; [|by left]. cbn [negb].
    destruct (get_list _) as [listResponse|]; [|by left].
    destruct (list_ok listResponse); [|by left]. cbn [negb].
    destruct (list_json listResponse) as [memoryFilenames|]; [|by left].
    right. by exists memoryFilenames. }
  destruct Hcases as [[Hsame Hreport]|[memoryFilenames Hrun]].
  - rewrite Hsame. repeat split; try done.
    intros savedMemories H. by destruct (Hreport savedMemories).
  - rewrite Hrun. cbn [fst snd].
    assert (Hother : forall key, (forall t, key <> memoryKey voiceName t) ->
              getItem key (foldl download_one localStorage memoryFilenames)
              = getItem key localStorage).
    { intros key Hkey. apply download_fold_other. intros f _ _. apply Hkey. }
    split; [done|]. split; [|split; [|split]].
    + apply loadChatHistory_ext, Hother. intros t H. symmetry in H.
      by apply memoryKey_not_live in H.
    + intros t Ht. apply elem_of_getMemoryList.
      apply elem_of_getMemoryList in Ht. by apply download_fold_keeps.
    + intros savedMemories H. by injection H as <-.
    + by intros [H|[H|H]].
Qed.

(** X26: When the list is fetched, every file listed under the name of a
    timestamp followed by [.json] whose request succeeds ends in the
    slot of the timestamp, whatever the other requests do and wherever
    the file stands in the list, and the timestamp is among the
    snapshots reported. *)
Theorem download_fills_slots localStorage listResponse memoryFilenames t
    memoryResponse text :
  get_list (memories_url backendServerUrl voiceName) = Return listResponse ->
  list_ok listResponse = true ->
  list_json listResponse = Return memoryFilenames ->
  t ++ u16 ".json" ∈ memoryFilenames ->
  get_memory (url_of (t ++ u16 ".json")) = Return memoryResponse ->
  memory_ok memoryResponse = true ->
  memory_text memoryResponse = Return text ->
  let result :=
    handleDownloadMemories true backendServerUrl voiceName localStorage in
  getItem (memoryKey voiceName t) result.1 = Some text
  /\ exists savedMemories,
       result.2 = downloaded savedMemories /\ t ∈ savedMemories.
Proof.
  intros Hlist Hok Hjson Hin Hget Hmok Htext. cbn zeta.
  unfold Download.handleDownloadMemories. cbn [negb].
  rewrite Hlist, Hok, Hjson. cbn [negb fst snd].
  pose proof (download_fold_slot memoryFilenames localStorage t
                memoryResponse text Hin Hget Hmok Htext) as Hslot.
  split; [done|]. eexists. split; [done|].
  apply elem_of_getMemoryList. unfold getItem in Hslot. by eexists.
Qed.

End Downloads.

(** ** From one store to another through the server *)

Section Travel.

Import Unmute Download.

Variable syntax_error_message : jsstring -> jsstring.
Variable post_memory : jsstring -> jsstring -> jsstring -> completion response.
Variable get_list : jsstring -> completion list_response.
Variable get_memory : jsstring -> completion memory_response.
Variables backendServerUrl voiceName : jsstring.

Implicit Types (here there : Storage) (t : jsstring).

Local Abbreviation upload_one :=
  (Unmute.upload_one post_memory backendServerUrl voiceName).
Local Abbreviation load := (loadChatHistory syntax_error_message).




End Travel.

(** ** Further examples *)

Section FurtherExamples.

Import Sample Scenario Tools Unmute Download Jobs Session.

Lemma compress_neighbours_witness :
  role (text_turn user (u16 "hi")) <> role (text_turn assistant (u16 "hello"))
  \/ truthy (content (text_turn user (u16 "hi"))) = false
  \/ truthy (content (text_turn assistant (u16 "hello"))) = false.
Proof.
  apply (compress_neighbours [hi; reply] [] [] _ _ []). reflexivity.
Defined.

Lemma compress_trimmed_witness :
  trimStart (u16 "hi there") = u16 "hi there".
Proof.
  apply (compress_trimmed [hi; there] []
           (text_turn user (u16 "hi there"))); [|reflexivity].
  replace (compressChatHistory [hi; there] [])
    with [text_turn user (u16 "hi there")] by reflexivity.
  by left.
Defined.

Lemma compress_loop_value_witness :
  (compress_loop [] [hi; there] [0; 1] []).2
  = foldl (compress_step []) [] (deref [hi; there] [0; 1]).
Proof.
  apply (compress_loop_value [] [0; 1] [hi; there] []).
  - apply (bool_decide_unpack _). reflexivity.
  - repeat constructor; by eexists.
Defined.

Lemma compress_loop_again_witness :
  compress_loop [] (compress_loop [] [hi; there] [0; 1] []).1 [0; 1] []
  = compress_loop [] [hi; there] [0; 1] [].
Proof.
  apply (compress_loop_again [] [0; 1] [hi; there]).
  apply (bool_decide_unpack _). reflexivity.
Defined.

Lemma streamed_deltas_one_turn_witness :
  Session.chatHistory
    (rawChatHistory _
       (foldl (fun st d =>
                 on_message unit item_of (input_audio_transcription_delta d) st)
          fresh [u16 "hi"; u16 "there"]))
  = [text_turn user
       (trimStart (u16 "hi")
        ++ concat (map (fun d => u16 " " ++ d) [u16 "there"]))]
  /\ Session.chatHistory
       (rawChatHistory _
          (foldl (fun st d =>
                    on_message unit item_of (response_text_delta d) st)
             fresh [u16 "hi"; u16 "there"]))
     = [text_turn assistant
          (trimStart (u16 "hi")
           ++ concat (map (fun d => u16 " " ++ d) [u16 "there"]))].
Proof.
  apply (streamed_deltas_one_turn unit item_of fresh (u16 "hi")
           [u16 "there"]).
  - reflexivity.
  - intros _. vm_compute. discriminate.
Defined.

Lemma compress1_same_role_run_witness :
  ChatHistoryV1.compressChatHistory [hi1; there1] [10%N]
  = [ {| ChatHistoryV1.role := ChatHistoryV1.role hi1;
         ChatHistoryV1.content :=
           join [10%N] (map ChatHistoryV1.content [hi1; there1]) |} ].
Proof.
  apply (compress1_same_role_run [10%N] hi1 [there1]).
  repeat constructor.
Defined.

Lemma other_voice_live_untouched_witness :
  loadChatHistory message_of alice (clearChatHistory bob live)
  = loadChatHistory message_of alice live.
Proof.
  refine (proj1 (proj2
            (other_voice_live_untouched message_of alice bob live _))).
  vm_compute. discriminate.
Defined.

Lemma voice_names_collide_witness :
  loadChatHistory message_of (alice ++ u16 "_memory_" ++ monday)
    (saveMemory monday alice live)
  = loadChatHistory message_of alice live.
Proof.
  refine (proj1 (voice_names_collide message_of alice monday live
                   (stringify (JArr (js_of_history [hi; there]))) _ _)).
  - reflexivity.
  - vm_compute. discriminate.
Defined.

Lemma load_returns_unchecked_elements_witness :
  loadChatHistory message_of alice odd
  = Return [ JStr (u16 "x"); JNull; JArr [] ].
Proof.
  refine (proj1 (load_returns_unchecked_elements message_of alice odd
                   odd_array _ _) _ eq_refl).
  - reflexivity.
  - reflexivity.
Defined.


Lemma declared_tools_are_dispatched_witness :
  exists tool,
    tool ∈ [ nothing; unreachable; nothing_at backend; nothing_at backend ]
    /\ Tools.handleToolCall message_of nothing unreachable nothing_at
         nothing_at call_b backend
       = try_catch (tool (JObj [])) on_failure
    /\ ToolsRegistry.handleToolCall message_of nothing unreachable
         (nothing_at backend) (nothing_at backend)
         (fun name args => Return None) call_b
       = try_catch (tool (JObj [])) on_failure.
Proof.
  refine (proj1 (proj2 (proj2
            (declared_tools_are_dispatched message_of nothing unreachable
               nothing_at nothing_at (fun name args => Return None) backend
               call_b (JObj []) _))) _).
  - reflexivity.
  - apply (bool_decide_unpack _). reflexivity.
Defined.

Lemma dispatchers_agree_witness :
  ToolsRegistry.handleToolCall message_of nothing unreachable
    (nothing_at backend) (nothing_at backend)
    (fun name args => Return None) call_b
  = Tools.handleToolCall message_of nothing unreachable nothing_at
      nothing_at call_b backend.
Proof.
  refine (proj1 (dispatchers_agree message_of nothing unreachable
                   nothing_at nothing_at (fun name args => Return None)
                   backend call_b _) _).
  - apply (bool_decide_unpack _). reflexivity.
  - left. apply (bool_decide_unpack _). reflexivity.
Defined.

Lemma run_answers_each_call_once_witness :
  exists (more : list ChatMessage) (answered : list answer),
    rawChatHistory _ after_coordinates = rawChatHistory _ initial ++ more
    /\ filter (fun m => role m = tool) more = map turn_of answered
    /\ sent _ after_coordinates
       = sent _ initial ++ flat_map sent_for answered
    /\ answered.*1 ++ pending _ after_coordinates
       ≡ₚ pending _ initial ++ flat_map requested two_answers
    /\ length answered
       = length (filter (fun e => is_settled e) two_answers).
Proof.
  assert (Hrun : run unit item_of initial two_answers after_coordinates).
  { eapply run_step; [apply step_message|].
    eapply run_step;
      [apply (step_settled unit item_of after_done 1 call_b no_news);
       reflexivity|].
    eapply run_step;
      [apply (step_settled unit item_of after_news 0 call_a no_coordinates);
       reflexivity|].
    apply run_done. }
  exact (run_answers_each_call_once unit item_of initial two_answers
           after_coordinates Hrun).
Defined.

Lemma run_errors_shown_witness :
  errors _ after_warned
  = errors _ initial ++ map item_of (omap reported warned).
Proof.
  apply (run_errors_shown unit item_of initial warned after_warned).
  repeat (eapply run_step; [apply step_message|]). apply run_done.
Defined.

Lemma tool_results_in_a_row_merge_witness :
  chatHistory
    ([hi] ++ map assistant_turn [call_a; call_b]
     ++ map (fun a : FunctionCall * json => tool_turn a.1 (Some a.2))
          [ (call_b, JArr []); (call_a, JObj []) ])
  = chatHistory [hi] ++ map assistant_turn [call_a; call_b]
    ++ [ {| role := tool;
            content :=
              Some (concat (map (fun a : FunctionCall * json => stringify a.2)
                              [ (call_b, JArr []); (call_a, JObj []) ]));
            tool_calls := None;
            tool_call_id := Some (call_id (call_b, JArr []).1) |} ].
Proof.
  refine (proj1 (tool_results_in_a_row_merge [hi] [call_a; call_b]
                   (call_b, JArr []) [ (call_a, JObj []) ] _ _)).
  - discriminate.
  - repeat constructor; by eexists _, _.
Defined.

Lemma tool_exchange_display_witness :
  displayChatHistory
    ([hi] ++ map assistant_turn [call_a; call_b]
     ++ map (fun a : FunctionCall * json => tool_turn a.1 (Some a.2))
          [ (call_b, JArr []); (call_a, JObj []) ])
  = displayChatHistory [hi]
    ++ map (fun call : FunctionCall =>
              text_turn assistant
                (show_call
                   {| tc_id := call_id call;
                      tc_function :=
                        {| fn_name := call_name call;
                           fn_arguments := call_arguments call |} |}))
         [call_a; call_b]
    ++ [ text_turn user
           (u16 "Tool output: "
            ++ concat (map (fun a : FunctionCall * json => stringify a.2)
                         [ (call_b, JArr []); (call_a, JObj []) ])) ].
Proof.
  refine (proj1 (tool_exchange_display [hi] [call_a; call_b]
                   (call_b, JArr []) [ (call_a, JObj []) ] _ _)).
  - discriminate.
  - repeat constructor; by eexists _, _.
Defined.

Lemma download_fills_slots_witness :
  getItem (memoryKey alice tuesday)
    (handleDownloadMemories serve_list serve_memory true backend alice ∅).1
  = Some (stringify (JArr (js_of_history [hi; there])))
  /\ exists savedMemories,
       (handleDownloadMemories serve_list serve_memory true backend alice
          ∅).2 = downloaded savedMemories
       /\ tuesday ∈ savedMemories.
Proof.
  apply (download_fills_slots serve_list serve_memory backend alice ∅
           {| list_ok := true; list_json := Return uploaded.*1 |}
           uploaded.*1 tuesday
           {| memory_ok := true;
              memory_text :=
                Return (stringify (JArr (js_of_history [hi; there]))) |}).
  - reflexivity.
  - reflexivity.
  - reflexivity.
  - apply (bool_decide_unpack _). by vm_compute.
  - by vm_compute.
  - reflexivity.
  - reflexivity.
Defined.


End FurtherExamples.
